(** * Jerk-constrained velocity smoother and velocity-controller state

    A shallow embedding of
    [AnalyticalJerkConstrainedSmoother] (apply, resampleTrajectory,
    applyLateralAccelerationFilter, searchDecelTargetIndices,
    applyForwardJerkFilter, applyBackwardDecelFilter and the file-local
    helpers [lerpByPose] and [applyMaxVelocity]) and of the default member
    initialiser of [VelocityController::control_state_].

    Modelling conventions.
    - A C++ [double] is an exact rational ([Q]): rounding, infinities and
      NaN are outside the model.  [std::max], [std::min] and [std::abs]
      are written with the comparisons the library performs.  The
      theorems use the operations of the model for their structure and
      their order only (which value is computed from which, which
      comparison decides); where a statement would hold by exact
      arithmetic alone, the place is evaluated in [Binary64], on the
      numbers the program computes with.
    - A [size_t] index is a [nat]; where the source subtracts one from an
      index that may be zero, the wrap-around is written out (the wrapped
      index is beyond every vector, so the following [.at] throws).
    - [std::vector::at] throws [std::out_of_range]; calling [back()] on an
      empty vector is undefined; a loop that does not terminate runs out
      of fuel.  The three are the errors of the [result] monad.
    - A trajectory passed by non-const reference is threaded through as a
      value: a function returns the trajectory it leaves behind.
    - Functions of other packages and of files that are not part of the
      sources at hand are Section variables: [calcDistance2d], [slerp],
      [sqrt], the [trajectory_utils] functions and the
      [analytical_velocity_planning_utils] functions. *)

From Stdlib Require Import QArith Qround Qabs Lia Lqa ZArith String Floats.
From stdpp Require Import base list sorting.

Set Warnings "-inexact-float".

(** ** Arithmetic on [double], idealised *)

Definition Qltb (a b : Q) : bool := negb (Qle_bool b a).
Definition Qleb (a b : Q) : bool := Qle_bool a b.
Definition Qeqb (a b : Q) : bool := Qeq_bool a b.

(** [std::max(a, b)] is [(a < b) ? b : a]; [std::min(a, b)] is
    [(b < a) ? b : a]. *)
Definition std_max (a b : Q) : Q := if Qltb a b then b else a.
Definition std_min (a b : Q) : Q := if Qltb b a then b else a.
Definition std_abs (a : Q) : Q := if Qltb a 0 then (- a)%Q else a.

(** [std::round]: to the nearest integer, halfway cases away from zero. *)
Definition std_round (a : Q) : Z :=
  if Qltb a 0 then Qceiling (a - (1 # 2)) else Qfloor (a + (1 # 2)).

(** ** Errors *)

Inductive error : Type :=
  | out_of_range   (* std::vector::at with an index beyond the size *)
  | undefined      (* back() of an empty vector *)
  | timeout.       (* the fuel of a loop is exhausted *)

Inductive result (A : Type) : Type :=
  | Ok (a : A)
  | Fail (e : error).
Arguments Ok {A} a.
Arguments Fail {A} e.

Definition bind {A B : Type} (c : result A) (k : A -> result B) : result B :=
  match c with
  | Ok a => k a
  | Fail e => Fail e
  end.

Notation "'let*' x ':=' c 'in' k" := (bind c (fun x => k))
  (at level 10, x pattern, c at level 100, k at level 200, only parsing).

(** [v.at(i)] *)
Definition at_ {A : Type} (v : list A) (i : nat) : result A :=
  match v !! i with
  | Some a => Ok a
  | None => Fail out_of_range
  end.

(** [v.at(i - 1)] for an unsigned [i]: at [i = 0] the index wraps. *)
Definition at_pred {A : Type} (v : list A) (i : nat) : result A :=
  match i with
  | O => Fail out_of_range
  | S j => at_ v j
  end.

(** [v.at(i) = a] *)
Definition set_at {A : Type} (v : list A) (i : nat) (a : A) : result (list A) :=
  let* _ := at_ v i in Ok (<[i := a]> v).

(** A [for] loop over the indices of [l], threading the state. *)
Fixpoint foldM {S : Type} (body : nat -> S -> result S) (l : list nat) (s : S)
  : result S :=
  match l with
  | [] => Ok s
  | i :: l' => let* s' := body i s in foldM body l' s'
  end.

(** [for (size_t i = lo; i < hi; ++i)] *)
Definition for_range {S : Type} (lo hi : nat) (body : nat -> S -> result S)
  (s : S) : result S :=
  foldM body (seq lo (hi - lo)) s.

(** ** Messages *)

Module Point.
Record t : Type := mk { x : Q; y : Q; z : Q }.
End Point.

Module Quaternion.
Record t : Type := mk { x : Q; y : Q; z : Q; w : Q }.
End Quaternion.

Module Vector3.
Record t : Type := mk { x : Q; y : Q; z : Q }.
End Vector3.

Module Pose.
Record t : Type := mk { position : Point.t; orientation : Quaternion.t }.
End Pose.

Module Twist.
Record t : Type := mk { linear : Vector3.t; angular : Vector3.t }.
End Twist.

Module Accel.
Record t : Type := mk { linear : Vector3.t; angular : Vector3.t }.
End Accel.

Record Header : Type := mkHeader {
  stamp_sec : Z;
  stamp_nanosec : Z;
  frame_id : string
}.

Record TrajectoryPoint : Type := mkTrajectoryPoint {
  pose : Pose.t;
  twist : Twist.t;
  accel : Accel.t
}.

Record Trajectory : Type := mkTrajectory {
  header : Header;
  points : list TrajectoryPoint
}.

Definition twist_linear_x (p : TrajectoryPoint) : Q :=
  Vector3.x (Twist.linear (twist p)).
Definition twist_angular_z (p : TrajectoryPoint) : Q :=
  Vector3.z (Twist.angular (twist p)).
Definition accel_linear_x (p : TrajectoryPoint) : Q :=
  Vector3.x (Accel.linear (accel p)).
Definition accel_angular_z (p : TrajectoryPoint) : Q :=
  Vector3.z (Accel.angular (accel p)).

(** [p.twist.linear.x = v] and its three siblings *)
Definition set_twist_linear_x (p : TrajectoryPoint) (v : Q) : TrajectoryPoint :=
  let tw := twist p in
  let l := Twist.linear tw in
  mkTrajectoryPoint (pose p)
    (Twist.mk (Vector3.mk v (Vector3.y l) (Vector3.z l)) (Twist.angular tw))
    (accel p).
Definition set_twist_angular_z (p : TrajectoryPoint) (v : Q) : TrajectoryPoint :=
  let tw := twist p in
  let a := Twist.angular tw in
  mkTrajectoryPoint (pose p)
    (Twist.mk (Twist.linear tw) (Vector3.mk (Vector3.x a) (Vector3.y a) v))
    (accel p).
Definition set_accel_linear_x (p : TrajectoryPoint) (v : Q) : TrajectoryPoint :=
  let ac := accel p in
  let l := Accel.linear ac in
  mkTrajectoryPoint (pose p) (twist p)
    (Accel.mk (Vector3.mk v (Vector3.y l) (Vector3.z l)) (Accel.angular ac)).
Definition set_accel_angular_z (p : TrajectoryPoint) (v : Q) : TrajectoryPoint :=
  let ac := accel p in
  let a := Accel.angular ac in
  mkTrajectoryPoint (pose p) (twist p)
    (Accel.mk (Accel.linear ac) (Vector3.mk (Vector3.x a) (Vector3.y a) v)).
Definition set_pose (p : TrajectoryPoint) (ps : Pose.t) : TrajectoryPoint :=
  mkTrajectoryPoint ps (twist p) (accel p).
Definition set_twist (p : TrajectoryPoint) (tw : Twist.t) : TrajectoryPoint :=
  mkTrajectoryPoint (pose p) tw (accel p).

Definition set_points (t : Trajectory) (pts : list TrajectoryPoint) : Trajectory :=
  mkTrajectory (header t) pts.

(** ** Parameters ([AnalyticalJerkConstrainedSmoother::Param] and
    [SmootherBase::BaseParam], by the fields the code reads) *)

Module Resample.
Record t : Type := mk { num_resample : nat }.
End Resample.

Module Latacc.
Record t : Type := mk {
  enable_constant_velocity_while_turning : bool;
  constant_velocity_dist_threshold : Q
}.
End Latacc.

Module Forward.
Record t : Type := mk {
  max_acc : Q; min_acc : Q; max_jerk : Q; min_jerk : Q; kp : Q
}.
End Forward.

Module Backward.
Record t : Type := mk {
  start_jerk : Q;
  min_jerk_mild_stop : Q;
  min_jerk : Q;
  min_acc_mild_stop : Q;
  min_acc : Q;
  span_jerk : Q
}.
End Backward.

Record Param : Type := mkParam {
  resample : Resample.t;
  latacc : Latacc.t;
  forward : Forward.t;
  backward : Backward.t
}.

Record BaseParam : Type := mkBaseParam {
  max_lateral_accel : Q;
  min_curve_velocity : Q;
  decel_distance_before_curve : Q;
  decel_distance_after_curve : Q
}.

(** ** The velocity controller's members

    The members of [VelocityController] that carry a default member
    initialiser of a value type, and the object they give before the
    constructor's body and any control cycle have run. *)

(** [enum class ControlState { DRIVE = 0, STOPPING, STOPPED, EMERGENCY }] *)
Inductive ControlState : Type := DRIVE | STOPPING | STOPPED | EMERGENCY.

Definition ControlState_value (s : ControlState) : Z :=
  match s with
  | DRIVE => 0
  | STOPPING => 1
  | STOPPED => 2
  | EMERGENCY => 3
  end.

(** [enum class Shift { Forward = 0, Reverse }] *)
Inductive Shift : Type := Forward | Reverse.

(** [struct Motion { double vel{0.0}; double acc{0.0}; }] *)
Record Motion : Type := mkMotion { vel : Q; acc : Q }.

Definition Motion_default : Motion := mkMotion 0 0.

Record VelocityControllerMembers : Type := mkVelocityControllerMembers {
  control_state_ : ControlState;
  prev_shift_ : Shift;
  prev_ctrl_cmd_ : Motion;
  prev_raw_ctrl_cmd_ : Motion
}.

(** [ControlState control_state_{ControlState::STOPPED};]
    [Shift prev_shift_{Shift::Forward};] [Motion prev_ctrl_cmd_{};]
    [Motion prev_raw_ctrl_cmd_{};] *)
Definition VelocityController_default : VelocityControllerMembers :=
  mkVelocityControllerMembers STOPPED Forward Motion_default Motion_default.

(** ** Three places of the smoother, in binary64

    The places at which the outcome depends on the rounding of the
    [double] operations, on IEEE 754 binary64 numbers with the operations
    rounded to nearest, as the program computes them: one round of the
    loop of [applyForwardJerkFilter], the scan of the planning jerks in
    [applyBackwardDecelFilter], and the velocity cap of
    [applyLateralAccelerationFilter]. *)

Module Binary64.

(** [std::max(a, b)] is [(a < b) ? b : a]; [std::min(a, b)] is
    [(b < a) ? b : a]. *)
Definition std_max (a b : float) : float :=
  if PrimFloat.ltb a b then b else a.
Definition std_min (a b : float) : float :=
  if PrimFloat.ltb b a then b else a.

(** [params.forward] *)
Record Forward : Type := mkForward {
  max_acc : float; min_acc : float; max_jerk : float; min_jerk : float;
  kp : float
}.

(** One round of the loop of [applyForwardJerkFilter]: [ds] is the
    distance of the two base points, [base_vel] the velocity of the base
    point; the result is [curr_vel] and [curr_acc]. *)
Definition forward_round (forward : Forward)
  (prev_vel prev_acc ds base_vel : float) : float * float :=
  let dt := PrimFloat.div ds (std_max prev_vel 1) in
  let curr_vel := PrimFloat.add prev_vel (PrimFloat.mul prev_acc dt) in
  let error_vel := PrimFloat.sub base_vel curr_vel in
  let fb_acc := PrimFloat.mul (kp forward) error_vel in
  let limited_acc :=
    std_max (min_acc forward) (std_min (max_acc forward) fb_acc) in
  let fb_jerk := PrimFloat.div (PrimFloat.sub limited_acc prev_acc) dt in
  let limited_jerk :=
    std_max (min_jerk forward) (std_min (max_jerk forward) fb_jerk) in
  let curr_acc := PrimFloat.add prev_acc (PrimFloat.mul limited_jerk dt) in
  (curr_vel, curr_acc).

(** [dt] of the same round. *)
Definition forward_round_dt (prev_vel ds : float) : float :=
  PrimFloat.div ds (std_max prev_vel 1).

(** [for (planning_jerk = start; planning_jerk > min_jerk - ep;
    planning_jerk += span_jerk)], [enough] standing for the call of
    [calcEnoughDistForDecel]; one unit of fuel a test of the loop
    condition, [None] when the fuel runs out. *)
Fixpoint scan_jerk (fuel : nat) (enough : float -> bool)
  (min_jerk span_jerk planning_jerk : float) : option (bool * float) :=
  match fuel with
  | O => None
  | S fuel' =>
      if PrimFloat.ltb (PrimFloat.sub min_jerk 0.001) planning_jerk
      then
        if enough planning_jerk then Some (true, planning_jerk)
        else scan_jerk fuel' enough min_jerk span_jerk
               (PrimFloat.add planning_jerk span_jerk)
      else Some (false, planning_jerk)
  end.

(** [v_curvature_max] of a point whose window has the curvature
    [curvature]. *)
Definition v_curvature_max (max_lateral_accel_abs min_curve_velocity
  curvature : float) : float :=
  let v_curvature_max :=
    PrimFloat.sqrt
      (PrimFloat.div max_lateral_accel_abs (std_max curvature 1.0E-5)) in
  std_max v_curvature_max min_curve_velocity.

End Binary64.

(** ** The smoother *)

Section Smoother.

(** [autoware_utils::calcDistance2d], the distance of two points in the
    plane. *)
Variable calcDistance2d : TrajectoryPoint -> TrajectoryPoint -> Q.

(** [tf2::lerp] on positions and [tf2::slerp] on orientations. *)
Variable lerp : Point.t -> Point.t -> Q -> Point.t.
Variable slerp : Quaternion.t -> Quaternion.t -> Q -> Quaternion.t.

(** [std::sqrt] *)
Variable sqrt : Q -> Q.

(** [trajectory_utils::calcArclengthArray],
    [trajectory_utils::applyLinearInterpolation] (a [boost::optional]) and
    [trajectory_utils::calcTrajectoryCurvatureFrom3Points] (a
    [boost::optional]). *)
Variable calcArclengthArray : Trajectory -> list Q.
Variable applyLinearInterpolation :
  list Q -> Trajectory -> list Q -> option Trajectory.
Variable calcTrajectoryCurvatureFrom3Points :
  Trajectory -> nat -> option (list Q).

(** [analytical_velocity_planning_utils::calcStopDistWithJerkAndAccConstraints]
    [v0 a0 jerk_acc jerk_dec min_acc target_vel]: the returned flag, and
    what it leaves in its out-parameters [type], [times] and [stop_dist]
    (which its one caller has reset to [0], empty and [0.0]). *)
Variable calcStopDistWithJerkAndAccConstraints :
  Q -> Q -> Q -> Q -> Q -> Q -> bool * (Z * list Q * Q).

(** [analytical_velocity_planning_utils::calcStopVelocityWithConstantJerkAccLimit]
    [v0 a0 jerk_acc jerk_dec min_acc target_vel type times start_index
    trajectory]: the returned flag and the trajectory it leaves. *)
Variable calcStopVelocityWithConstantJerkAccLimit :
  Q -> Q -> Q -> Q -> Q -> Q -> Z -> list Q -> nat -> Trajectory ->
  bool * Trajectory.

(** The smoother's members [smoother_param_] and [base_param_]. *)
Variable smoother_param_ : Param.
Variable base_param_ : BaseParam.

(** *** File-local helpers *)

Definition lerpByPose (p1 p2 : Pose.t) (t : Q) : Pose.t :=
  Pose.mk (lerp (Pose.position p1) (Pose.position p2) t)
          (slerp (Pose.orientation p1) (Pose.orientation p2) t).

(** One round of the loop of [applyMaxVelocity]. *)
Definition applyMaxVelocity_body (max_velocity : Q) (i : nat)
  (pts : list TrajectoryPoint) : result (list TrajectoryPoint) :=
  let* p := at_ pts i in
  let p1 := set_twist_linear_x p (std_min (twist_linear_x p) max_velocity) in
  Ok (<[i := set_accel_linear_x p1 0]> pts).

(** [for (size_t i = start_index; i <= end_index; ++i)] *)
Definition applyMaxVelocity (max_velocity : Q) (start_index end_index : nat)
  (output_trajectory : Trajectory) : result (bool * Trajectory) :=
  if (end_index <? start_index)
     || (length (points output_trajectory) <? end_index)
  then Ok (false, output_trajectory)
  else
    let* pts := for_range start_index (S end_index)
                  (applyMaxVelocity_body max_velocity)
                  (points output_trajectory) in
    Ok (true, set_points output_trajectory pts).

(** *** searchDecelTargetIndices *)

Definition search_ep : Q := (- 0.00001)%Q.
Definition index_err : nat := 10.

Definition search_body (pts : list TrajectoryPoint) (i : nat)
  (tmp_indices : list (nat * Q)) : result (list (nat * Q)) :=
  let* p := at_ pts i in
  let* p_prev := at_pred pts i in
  let dv_before := (twist_linear_x p - twist_linear_x p_prev)%Q in
  let* p_next := at_ pts (i + 1) in
  let dv_after := (twist_linear_x p_next - twist_linear_x p)%Q in
  Ok (if Qltb dv_before search_ep && Qltb search_ep dv_after
      then tmp_indices ++ [(i, twist_linear_x p)]
      else tmp_indices).

Definition search_last (pts : list TrajectoryPoint) (i : nat)
  (tmp_indices : list (nat * Q)) : result (list (nat * Q)) :=
  let* p := at_ pts i in
  let* p_prev := at_pred pts i in
  let dv_before := (twist_linear_x p - twist_linear_x p_prev)%Q in
  Ok (if Qltb dv_before search_ep
      then tmp_indices ++ [(i, twist_linear_x p)]
      else tmp_indices).

(** The indices of [tmp_indices] increase, so the unsigned difference of
    two consecutive ones does not wrap. *)
Definition coalesce_body (tmp_indices : list (nat * Q)) (i : nat)
  (decel_target_indices : list (nat * Q)) : result (list (nat * Q)) :=
  let* next := at_ tmp_indices (i + 1) in
  let* this := at_ tmp_indices i in
  Ok (if (next.1 - this.1 <? index_err) && Qltb next.2 this.2
      then decel_target_indices
      else decel_target_indices ++ [this]).

(** [trajectory.points.size() - 1] wraps on an empty trajectory: the
    first loop is then entered and its first [.at] throws. *)
Definition searchDecelTargetIndices (trajectory : Trajectory)
  (closest_index : nat) (decel_target_indices : list (nat * Q))
  : result (list (nat * Q)) :=
  let pts := points trajectory in
  let start_index := Nat.max 1 closest_index in
  match length pts with
  | O => Fail out_of_range
  | S last =>
      let* tmp := for_range start_index last (search_body pts) [] in
      let* tmp_indices := search_last pts last tmp in
      match tmp_indices with
      | [] => Ok decel_target_indices
      | _ :: _ =>
          let* kept := for_range 0 (length tmp_indices - 1)
                         (coalesce_body tmp_indices) decel_target_indices in
          let* back := at_ tmp_indices (length tmp_indices - 1) in
          Ok (kept ++ [back])
      end
  end.

(** *** applyForwardJerkFilter *)

Definition forward_dt (prev_vel ds : Q) : Q := (ds / std_max prev_vel 1)%Q.

(** What one round of the loop writes at point [i]: [o_prev] is the
    output point before it, [b_prev] and [b] are the base points, [o] is
    the output point that is overwritten. *)
Definition forward_point (params : Param)
  (b_prev b o_prev o : TrajectoryPoint) : TrajectoryPoint :=
  let prev_vel := twist_linear_x o_prev in
  let ds := calcDistance2d b_prev b in
  let dt := forward_dt prev_vel ds in
  let prev_acc := accel_linear_x o_prev in
  let curr_vel := (prev_vel + prev_acc * dt)%Q in
  let error_vel := (twist_linear_x b - curr_vel)%Q in
  let fb_acc := (Forward.kp (forward params) * error_vel)%Q in
  let limited_acc :=
    std_max (Forward.min_acc (forward params))
            (std_min (Forward.max_acc (forward params)) fb_acc) in
  let fb_jerk := ((limited_acc - prev_acc) / dt)%Q in
  let limited_jerk :=
    std_max (Forward.min_jerk (forward params))
            (std_min (Forward.max_jerk (forward params)) fb_jerk) in
  let curr_acc := (prev_acc + limited_jerk * dt)%Q in
  set_accel_linear_x (set_twist_linear_x o curr_vel) curr_acc.

Definition forward_body (base : list TrajectoryPoint) (params : Param)
  (i : nat) (out : list TrajectoryPoint) : result (list TrajectoryPoint) :=
  let* o_prev := at_ out (i - 1) in
  let* b_prev := at_ base (i - 1) in
  let* b := at_ base i in
  let* o := at_ out i in
  Ok (<[i := forward_point params b_prev b o_prev o]> out).

(** The function returns [true] on every path that returns. *)
Definition applyForwardJerkFilter (base_trajectory : Trajectory)
  (start_index : nat) (initial_vel initial_acc : Q) (params : Param)
  (output_trajectory : Trajectory) : result Trajectory :=
  let out := points output_trajectory in
  let* o := at_ out start_index in
  let out1 :=
    <[start_index :=
        set_accel_linear_x (set_twist_linear_x o initial_vel) initial_acc]> out in
  let* out2 := for_range (start_index + 1) (length (points base_trajectory))
                 (forward_body (points base_trajectory) params) out1 in
  Ok (set_points output_trajectory out2).

(** *** calcEnoughDistForDecel *)

Definition calcMinAcc (params : Param) (planning_jerk : Q) : Q :=
  if Qltb planning_jerk (Backward.min_jerk_mild_stop (backward params))
  then Backward.min_acc (backward params)
  else Backward.min_acc_mild_stop (backward params).

(** The out-parameters [type] and [times] as the call leaves them, next
    to the returned flag; [is_enough_dist] is set exactly when [true] is
    returned, and [stop_dist] is read by no caller. *)
Definition calcEnoughDistForDecel (trajectory : Trajectory)
  (start_index : nat) (decel_target_vel planning_jerk : Q) (params : Param)
  (dist_to_target : list Q) : result (bool * (Z * list Q)) :=
  let* p := at_ (points trajectory) start_index in
  let v0 := twist_linear_x p in
  let a0 := accel_linear_x p in
  let jerk_acc := std_abs planning_jerk in
  let jerk_dec := planning_jerk in
  let min_acc := calcMinAcc params planning_jerk in
  let '(ok, (type, times, stop_dist)) :=
    calcStopDistWithJerkAndAccConstraints
      v0 a0 jerk_acc jerk_dec min_acc decel_target_vel in
  if negb ok then Ok (false, (type, times))
  else
    let* allowed_dist := at_ dist_to_target start_index in
    if Qleb 0 stop_dist && Qleb stop_dist allowed_dist
    then Ok (true, (type, times))
    else Ok (false, (type, times)).

(** *** applyDecelVelocityFilter *)

Definition applyDecelVelocityFilter (decel_start_index : nat)
  (decel_target_vel planning_jerk : Q) (params : Param) (type : Z)
  (times : list Q) (output_trajectory : Trajectory)
  : result (bool * Trajectory) :=
  let* p := at_ (points output_trajectory) decel_start_index in
  let v0 := twist_linear_x p in
  let a0 := accel_linear_x p in
  let jerk_acc := std_abs planning_jerk in
  let jerk_dec := planning_jerk in
  let min_acc := calcMinAcc params planning_jerk in
  Ok (calcStopVelocityWithConstantJerkAccLimit
        v0 a0 jerk_acc jerk_dec min_acc decel_target_vel type times
        decel_start_index output_trajectory).

(** *** applyBackwardDecelFilter *)

Definition backward_ep : Q := 0.001%Q.

(** [for (size_t i = start_index; i < decel_target_index; ++i)] with its
    [break]: the first index whose velocity is at least the target's,
    and [start_index] itself when there is none. *)
Fixpoint advance_start_index (n i : nat) (pts : list TrajectoryPoint)
  (decel_target_vel : Q) (start_index : nat) : result nat :=
  match n with
  | O => Ok start_index
  | S n' =>
      let* p := at_ pts i in
      if Qleb decel_target_vel (twist_linear_x p) then Ok i
      else advance_start_index n' (S i) pts decel_target_vel start_index
  end.

(** One round of [for (size_t i = decel_target_index; i > start_index; --i)]
    on the pair of [dist] and [dist_to_target]. *)
Definition dist_body (pts : list TrajectoryPoint) (i : nat)
  (st : Q * list Q) : result (Q * list Q) :=
  let* p_prev := at_ pts (i - 1) in
  let* p := at_ pts i in
  let dist := (st.1 + calcDistance2d p_prev p)%Q in
  let* d := set_at st.2 (i - 1) dist in
  Ok (dist, d).

(** The scan of the planning jerks, one unit of fuel a test of the loop
    condition.  Returns [is_enough_dist], the [planning_jerk] at which the
    loop was left, and [type] and [times]. *)
Fixpoint scan_jerk (fuel : nat) (trajectory : Trajectory) (start_index : nat)
  (decel_target_vel : Q) (params : Param) (dist_to_target : list Q)
  (planning_jerk : Q) (out : Z * list Q) : result (bool * Q * (Z * list Q)) :=
  match fuel with
  | O => Fail timeout
  | S fuel' =>
      if Qltb (Backward.min_jerk (backward params) - backward_ep) planning_jerk
      then
        let* (ok, out') :=
          calcEnoughDistForDecel trajectory start_index decel_target_vel
            planning_jerk params dist_to_target in
        if ok then Ok (true, planning_jerk, out')
        else scan_jerk fuel' trajectory start_index decel_target_vel params
               dist_to_target
               (planning_jerk + Backward.span_jerk (backward params))%Q out'
      else Ok (false, planning_jerk, out)
  end.

(** The locals [output_planning_jerk], [output_start_index],
    [output_dist_to_target], [output_type] and [output_times]. *)
Record DecelPlan : Type := mkDecelPlan {
  output_planning_jerk : Q;
  output_start_index : nat;
  output_dist_to_target : list Q;
  output_type : Z;
  output_times : list Q
}.

(** [output_type] is declared without an initial value; it is read only
    after it was assigned. *)
Definition initial_plan : DecelPlan := mkDecelPlan (- 100)%Q 0 [] 0 [].

(** One round of [for (size_t start_index : start_indices)]. *)
Definition plan_body (fuel : nat) (decel_target_index : nat)
  (decel_target_vel : Q) (params : Param) (output_trajectory : Trajectory)
  (start_index : nat) (plan : DecelPlan) : result DecelPlan :=
  let pts := points output_trajectory in
  let* dist_to_target :=
    set_at (repeat 0%Q (length pts)) decel_target_index 0%Q in
  let* start_index :=
    advance_start_index (decel_target_index - start_index) start_index pts
      decel_target_vel start_index in
  let* (dist, dist_to_target) :=
    foldM (dist_body pts)
      (rev (seq (S start_index) (decel_target_index - start_index)))
      (0%Q, dist_to_target) in
  let* (is_enough_dist, planning_jerk, (type, times)) :=
    scan_jerk fuel output_trajectory start_index decel_target_vel params
      dist_to_target (Backward.start_jerk (backward params)) (0%Z, []) in
  if negb is_enough_dist then Ok plan
  else if Qleb (output_planning_jerk plan) planning_jerk
  then Ok (mkDecelPlan planning_jerk start_index dist_to_target type times)
  else Ok plan.

Fixpoint plan_loop (fuel : nat) (decel_target_index : nat)
  (decel_target_vel : Q) (params : Param) (output_trajectory : Trajectory)
  (start_indices : list nat) (plan : DecelPlan) : result DecelPlan :=
  match start_indices with
  | [] => Ok plan
  | start_index :: rest =>
      let* plan' := plan_body fuel decel_target_index decel_target_vel params
                      output_trajectory start_index plan in
      plan_loop fuel decel_target_index decel_target_vel params
        output_trajectory rest plan'
  end.

(** [for (size_t i = decel_target_index - 1; i >= output_start_index; --i)]
    from index [i] on: the loop stops at the first index with enough
    distance; decrementing [i = 0] wraps, the condition holds again and
    [calcEnoughDistForDecel] throws on its first [.at].  Returns
    [decel_start_index], [output_type] and [output_times]. *)
Fixpoint search_decel_start (trajectory : Trajectory) (decel_target_vel : Q)
  (params : Param) (plan : DecelPlan) (i : nat) (out : Z * list Q)
  : result (nat * (Z * list Q)) :=
  if i <? output_start_index plan then Ok (output_start_index plan, out)
  else
    let* (ok, out') :=
      calcEnoughDistForDecel trajectory i decel_target_vel
        (output_planning_jerk plan) params (output_dist_to_target plan) in
    if ok then Ok (i, out')
    else
      match i with
      | O => Fail out_of_range
      | S i' =>
          search_decel_start trajectory decel_target_vel params plan i' out'
      end.

Definition applyBackwardDecelFilter (fuel : nat) (start_indices : list nat)
  (decel_target_index : nat) (decel_target_vel : Q) (params : Param)
  (output_trajectory : Trajectory) : result (bool * Trajectory) :=
  let* plan := plan_loop fuel decel_target_index decel_target_vel params
                 output_trajectory start_indices initial_plan in
  if Qeqb (output_planning_jerk plan) (- 100)%Q
  then Ok (false, output_trajectory)
  else
    let* (decel_start_index, (type, times)) :=
      if Qeqb (output_planning_jerk plan)
              (Backward.start_jerk (backward params))
      then
        match decel_target_index with
        | O => Fail out_of_range
        | S i =>
            search_decel_start output_trajectory decel_target_vel params
              plan i (output_type plan, output_times plan)
        end
      else Ok (output_start_index plan, (output_type plan, output_times plan)) in
    let* (ok, trajectory') :=
      applyDecelVelocityFilter decel_start_index decel_target_vel
        (output_planning_jerk plan) params type times output_trajectory in
    Ok (ok, trajectory').

(** *** apply *)

(** [intput trajectory is cropped, so closest_index = 0] *)
Definition closest_index : nat := 0.

(** [for (int j = i; j >= 0; --j)] with its two [break]s: the start of the
    backward filter, as index, velocity and acceleration. *)
Fixpoint search_bwd_start (decel_target_indices : list (nat * Q))
  (filtered_trajectory : Trajectory) (initial_vel initial_acc : Q) (j : nat)
  : result (nat * Q * Q) :=
  match j with
  | O => Ok (closest_index, initial_vel, initial_acc)
  | S j' =>
      let* before := at_ decel_target_indices j' in
      let* this := at_ decel_target_indices j in
      if Qltb before.2 this.2
      then
        let* p := at_ (points filtered_trajectory) before.1 in
        Ok (before.1, twist_linear_x p, accel_linear_x p)
      else search_bwd_start decel_target_indices filtered_trajectory
             initial_vel initial_acc j'
  end.

(** What one round of the loop over the deceleration targets leaves:
    either [apply] has returned [true] with this output, or the loop goes
    on with the reference and the filtered trajectory. *)
Inductive round : Type :=
  | Returned (output : Trajectory)
  | Next (reference_trajectory filtered_trajectory : Trajectory).

(** The first half of a round, up to the call of
    [applyBackwardDecelFilter]: the start of the backward filter, the
    target, the flag of the call and the filtered trajectory it leaves. *)
Definition round_backward (fuel : nat) (initial_vel initial_acc : Q)
  (decel_target_indices : list (nat * Q)) (i : nat)
  (reference_trajectory filtered_trajectory : Trajectory)
  : result (nat * Q * Q * (nat * Q) * bool * Trajectory) :=
  let* (fwd_start_index, fwd_start_vel, fwd_start_acc) :=
    match i with
    | O => Ok (closest_index, initial_vel, initial_acc)
    | S i' =>
        let* before := at_ decel_target_indices i' in
        let* p := at_ (points filtered_trajectory) before.1 in
        Ok (before.1, twist_linear_x p, accel_linear_x p)
    end in
  let* filtered_trajectory :=
    applyForwardJerkFilter reference_trajectory fwd_start_index fwd_start_vel
      fwd_start_acc smoother_param_ filtered_trajectory in
  let* (bwd_start_index, bwd_start_vel, bwd_start_acc) :=
    search_bwd_start decel_target_indices filtered_trajectory initial_vel
      initial_acc i in
  let start_indices :=
    if negb (bwd_start_index =? fwd_start_index)
    then [bwd_start_index; fwd_start_index]
    else [bwd_start_index] in
  let* target := at_ decel_target_indices i in
  let decel_target_index := target.1 in
  let decel_target_vel := target.2 in
  let* (ok, filtered_trajectory) :=
    applyBackwardDecelFilter fuel start_indices decel_target_index
      decel_target_vel smoother_param_ filtered_trajectory in
  Ok (bwd_start_index, bwd_start_vel, bwd_start_acc, target, ok,
      filtered_trajectory).

(** The branch taken when [applyBackwardDecelFilter] has returned
    [false]; the flags of the two [applyMaxVelocity] calls are dropped. *)
Definition round_fallback (bwd_start_index : nat)
  (bwd_start_vel bwd_start_acc : Q) (target : nat * Q)
  (reference_trajectory filtered_trajectory : Trajectory) : result round :=
  let decel_target_index := target.1 in
  let decel_target_vel := target.2 in
  let ep := 0.001%Q in
  if Qltb (std_abs decel_target_vel) ep then
    let* (_, filtered_trajectory) :=
      applyMaxVelocity 0 bwd_start_index
        (length (points filtered_trajectory) - 1) filtered_trajectory in
    Ok (Returned filtered_trajectory)
  else
    let* (_, reference_trajectory) :=
      applyMaxVelocity decel_target_vel bwd_start_index decel_target_index
        reference_trajectory in
    let* filtered_trajectory :=
      applyForwardJerkFilter reference_trajectory bwd_start_index
        bwd_start_vel bwd_start_acc smoother_param_ filtered_trajectory in
    Ok (Next reference_trajectory filtered_trajectory).

(** One round of the loop over the deceleration targets. *)
Definition apply_round (fuel : nat) (initial_vel initial_acc : Q)
  (decel_target_indices : list (nat * Q)) (i : nat)
  (reference_trajectory filtered_trajectory : Trajectory) : result round :=
  let* (bwd_start_index, bwd_start_vel, bwd_start_acc, target, ok,
        filtered_trajectory) :=
    round_backward fuel initial_vel initial_acc decel_target_indices i
      reference_trajectory filtered_trajectory in
  if negb ok
  then round_fallback bwd_start_index bwd_start_vel bwd_start_acc target
         reference_trajectory filtered_trajectory
  else Ok (Next reference_trajectory filtered_trajectory).

(** [for (size_t i = 0; i < decel_target_indices.size(); ++i)] over the
    indices [rest] that are left. *)
Fixpoint apply_rounds (fuel : nat) (initial_vel initial_acc : Q)
  (decel_target_indices : list (nat * Q)) (rest : list nat)
  (reference_trajectory filtered_trajectory : Trajectory) : result round :=
  match rest with
  | [] => Ok (Next reference_trajectory filtered_trajectory)
  | i :: rest' =>
      let* r := apply_round fuel initial_vel initial_acc decel_target_indices
                  i reference_trajectory filtered_trajectory in
      match r with
      | Returned output => Ok (Returned output)
      | Next reference_trajectory filtered_trajectory =>
          apply_rounds fuel initial_vel initial_acc decel_target_indices rest'
            reference_trajectory filtered_trajectory
      end
  end.

(** The returned flag and the caller's [output] after the call. *)
Definition apply (fuel : nat) (initial_vel initial_acc : Q)
  (input output : Trajectory) : result (bool * Trajectory) :=
  match points input with
  | [] => Ok (false, output)
  | [p] =>
      Ok (true,
          set_points input
            [set_accel_linear_x (set_twist_linear_x p initial_vel)
               initial_acc])
  | _ :: _ :: _ =>
      let* decel_target_indices :=
        searchDecelTargetIndices input closest_index [] in
      let* r := apply_rounds fuel initial_vel initial_acc decel_target_indices
                  (seq 0 (length decel_target_indices)) input input in
      match r with
      | Returned output => Ok (true, output)
      | Next reference_trajectory filtered_trajectory =>
          let* (start_index, start_vel, start_acc) :=
            match decel_target_indices with
            | [] => Ok (closest_index, initial_vel, initial_acc)
            | _ :: _ =>
                let* back :=
                  at_ decel_target_indices
                    (length decel_target_indices - 1) in
                let* p := at_ (points filtered_trajectory) back.1 in
                Ok (back.1, twist_linear_x p, accel_linear_x p)
            end in
          let* filtered_trajectory :=
            applyForwardJerkFilter reference_trajectory start_index start_vel
              start_acc smoother_param_ filtered_trajectory in
          Ok (true, filtered_trajectory)
      end
  end.

(** *** resampleTrajectory *)

(** One round of [for (size_t j = 0; j < num_resample; ++j)] on the pair
    of the output points and [s]. *)
Definition resample_inner_body (p tp0 tp1 : TrajectoryPoint) (ds : Q)
  (j : nat) (st : list TrajectoryPoint * Q)
  : result (list TrajectoryPoint * Q) :=
  let s := st.2 in
  let tp := set_pose p (lerpByPose (pose tp0) (pose tp1) s) in
  let tp := set_twist_linear_x tp (twist_linear_x tp0) in
  let tp := set_twist_angular_z tp
              ((1 - s) * twist_angular_z tp0 + s * twist_angular_z tp1)%Q in
  let tp := set_accel_linear_x tp (accel_linear_x tp0) in
  let tp := set_accel_angular_z tp
              ((1 - s) * accel_angular_z tp0 + s * accel_angular_z tp1)%Q in
  Ok (st.1 ++ [tp], (s + ds)%Q).

Definition resample_body (input : list TrajectoryPoint) (ds : Q) (i : nat)
  (out : list TrajectoryPoint) : result (list TrajectoryPoint) :=
  let* tp0 := at_ input i in
  let* tp1 := at_ input (i + 1) in
  let dist_thr := 0.001%Q in
  let dist_tp0_tp1 := calcDistance2d tp0 tp1 in
  if Qltb (std_abs dist_tp0_tp1) dist_thr then
    let* p := at_ input i in
    Ok (out ++ [p])
  else
    let* p := at_ input i in
    let* st := for_range 0 (Resample.num_resample (resample smoother_param_))
                 (resample_inner_body p tp0 tp1 ds) (out, 0%Q) in
    Ok st.1.

(** [v.back()] *)
Definition back_ {A : Type} (v : list A) : result A :=
  match last v with
  | Some a => Ok a
  | None => Fail undefined
  end.

Definition resampleTrajectory (input : Trajectory)
  : result (option Trajectory) :=
  match points input with
  | [] => Ok None
  | _ :: _ =>
      let ds :=
        (1 / inject_Z (Z.of_nat
               (Resample.num_resample (resample smoother_param_))))%Q in
      let* out := for_range 0 (length (points input) - 1)
                    (resample_body (points input) ds) [] in
      let* b := back_ (points input) in
      Ok (Some (mkTrajectory (header input) (out ++ [b])))
  end.

(** *** applyLateralAccelerationFilter *)

Definition points_interval : Q := 0.1%Q.
Definition curvature_calc_dist : Q := 5%Q.

(** [for (double s = 0; s < in_arclength.back(); s += points_interval)]:
    the multiples [k * points_interval] below [back], [k] a natural. *)
Definition out_arclength_of (back : Q) : list Q :=
  let n := if Qltb 0 back then Z.to_nat (Qceiling (back / points_interval))
           else O in
  map (fun k : nat => (inject_Z (Z.of_nat k) * points_interval)%Q) (seq 0 n).

(** [static_cast<int>] of a quotient that is not negative. *)
Definition idx_dist : nat :=
  Z.to_nat (Z.max (Qfloor (curvature_calc_dist / points_interval)) 1).

(** [static_cast<size_t>(std::round(d / points_interval))]; the cast of a
    negative value is undefined and is [0] here. *)
Definition decel_index (d : Q) : nat :=
  Z.to_nat (std_round (d / points_interval)).

Definition window_body (curvature_v : list Q) (j : nat) (curvature : Q)
  : result Q :=
  let* c := at_ curvature_v j in
  Ok (std_max curvature (std_abs c)).

(** The largest absolute curvature in the window of point [i], of [size]
    points. *)
Definition window_curvature (curvature_v : list Q) (size i : nat) : result Q :=
  let before_decel_index :=
    decel_index (decel_distance_before_curve base_param_) in
  let after_decel_index :=
    decel_index (decel_distance_after_curve base_param_) in
  let start := if before_decel_index <? i then i - before_decel_index else 0 in
  let end_ := Nat.min size (i + after_decel_index) in
  for_range start end_ (window_body curvature_v) 0%Q.

Definition v_curvature_max_of (curvature : Q) : Q :=
  let max_lateral_accel_abs := std_abs (max_lateral_accel base_param_) in
  let v := sqrt (max_lateral_accel_abs / std_max curvature 0.00001)%Q in
  std_max v (min_curve_velocity base_param_).

(** One round of the loop that lowers the speed, on the pair of the
    output points and [filtered_points]. *)
Definition latacc_body (curvature_v : list Q) (i : nat)
  (st : list TrajectoryPoint * list nat)
  : result (list TrajectoryPoint * list nat) :=
  let* curvature := window_curvature curvature_v (length st.1) i in
  let v_curvature_max := v_curvature_max_of curvature in
  let* p := at_ st.1 i in
  if Qltb v_curvature_max (twist_linear_x p)
  then Ok (<[i := set_twist_linear_x p v_curvature_max]> st.1, st.2 ++ [i])
  else Ok st.

(** The locals of the loop that groups the filtered points. *)
Record Grouping : Type := mkGrouping {
  latacc_filtered_ranges : list (nat * nat * Q);
  start_index : nat;
  end_index : nat;
  is_updated : bool;
  min_latacc_velocity : Q
}.

(** [min_latacc_velocity] is declared without an initial value; it is
    read only when [is_updated] is set. *)
Definition initial_grouping : Grouping := mkGrouping [] 0 0 false 0%Q.

Definition group_body (pts : list TrajectoryPoint) (filtered_points : list nat)
  (i : nat) (g : Grouping) : result Grouping :=
  let dist_threshold :=
    Latacc.constant_velocity_dist_threshold (latacc smoother_param_) in
  let* index := at_ filtered_points i in
  if negb (is_updated g) then
    let* p := at_ pts index in
    Ok (mkGrouping (latacc_filtered_ranges g) index index true
          (twist_linear_x p))
  else
    let* p_end := at_ pts (end_index g) in
    let* p := at_ pts index in
    if Qltb (calcDistance2d p_end p) dist_threshold then
      Ok (mkGrouping (latacc_filtered_ranges g) (start_index g) index true
            (std_min (twist_linear_x p) (min_latacc_velocity g)))
    else
      Ok (mkGrouping
            (latacc_filtered_ranges g
               ++ [(start_index g, end_index g, min_latacc_velocity g)])
            index index true (twist_linear_x p)).

Definition close_grouping (g : Grouping) : list (nat * nat * Q) :=
  if is_updated g
  then latacc_filtered_ranges g
         ++ [(start_index g, end_index g, min_latacc_velocity g)]
  else latacc_filtered_ranges g.

(** The inner loop over the ranges with its [break]: the velocity to
    assign to point [i], if any. *)
Fixpoint range_velocity (ranges : list (nat * nat * Q)) (i : nat) : option Q :=
  match ranges with
  | [] => None
  | (start_index, end_index, min_latacc_velocity) :: ranges' =>
      if (start_index <=? i) && (i <=? end_index)
         && Latacc.enable_constant_velocity_while_turning
              (latacc smoother_param_)
      then Some min_latacc_velocity
      else range_velocity ranges' i
  end.

Definition plateau_body (ranges : list (nat * nat * Q)) (i : nat)
  (pts : list TrajectoryPoint) : result (list TrajectoryPoint) :=
  match range_velocity ranges i with
  | Some v =>
      let* p := at_ pts i in
      Ok (<[i := set_twist_linear_x p v]> pts)
  | None => Ok pts
  end.

(** The speed-lowering loop on the interpolated points. *)
Definition latacc_limit (curvature_v : list Q) (pts : list TrajectoryPoint)
  : result (list TrajectoryPoint * list nat) :=
  for_range 0 (length pts) (latacc_body curvature_v) (pts, []).

(** The grouping loop and the plateau loop. *)
Definition latacc_ranges (pts : list TrajectoryPoint)
  (filtered_points : list nat) : result (list (nat * nat * Q)) :=
  let* g := for_range 0 (length filtered_points)
              (group_body pts filtered_points) initial_grouping in
  Ok (close_grouping g).

(** [output->points.back().twist = input.points.back().twist;] *)
Definition keep_final_speed (input output : Trajectory) : result Trajectory :=
  let* o_back := back_ (points output) in
  let* i_back := back_ (points input) in
  Ok (set_points output
        (<[length (points output) - 1 := set_twist o_back (twist i_back)]>
           (points output))).

Definition applyLateralAccelerationFilter (input : Trajectory)
  : result (option Trajectory) :=
  match points input with
  | [] => Ok None
  | _ :: _ =>
      if length (points input) <? 3 then Ok (Some input)
      else
        let in_arclength := calcArclengthArray input in
        let* back := back_ in_arclength in
        let out_arclength := out_arclength_of back in
        match applyLinearInterpolation in_arclength input out_arclength with
        | None => Ok None
        | Some output =>
            let* output := keep_final_speed input output in
            match calcTrajectoryCurvatureFrom3Points output idx_dist with
            | None => Ok (Some input)
            | Some curvature_v =>
                let* (pts, filtered_points) :=
                  latacc_limit curvature_v (points output) in
                let* ranges := latacc_ranges pts filtered_points in
                let* pts := for_range 0 (length pts) (plateau_body ranges)
                              pts in
                Ok (Some (set_points output pts))
            end
        end
  end.

(** ** Notions used in the statements *)

(** The point [applyMaxVelocity] leaves where it found [p]. *)
Definition capped (max_velocity : Q) (p : TrajectoryPoint) : TrajectoryPoint :=
  set_accel_linear_x
    (set_twist_linear_x p (std_min (twist_linear_x p) max_velocity)) 0.

(** *** Deceleration targets, as the specification words them *)

Definition velocity_at (pts : list TrajectoryPoint) (i : nat) : Q :=
  from_option twist_linear_x 0%Q (pts !! i).

(** The velocity decreases from point [i - 1] to point [i], beyond the
    tolerance. *)
Definition decreases_into (pts : list TrajectoryPoint) (i : nat) : bool :=
  Qltb (velocity_at pts i - velocity_at pts (i - 1)) search_ep.

(** The velocity does not decrease from point [i] to point [i + 1], up to
    the tolerance. *)
Definition not_decreasing_after (pts : list TrajectoryPoint) (i : nat)
  : bool :=
  Qltb search_ep (velocity_at pts (i + 1) - velocity_at pts i).

(** A local minimum of the velocity profile: an interior index from
    [max(1, closest_index)] to [size - 2] where the velocity decreases
    and then does not, or the final index when the velocity decreases
    into it. *)
Definition local_minimum (pts : list TrajectoryPoint) (closest_index i : nat)
  : bool :=
  ((Nat.max 1 closest_index <=? i) && (i + 2 <=? length pts)
   && decreases_into pts i && not_decreasing_after pts i)
  || ((i + 1 =? length pts) && decreases_into pts i).

Definition local_minima (pts : list TrajectoryPoint) (closest_index : nat)
  : list nat :=
  List.filter (local_minimum pts closest_index) (seq 0 (length pts)).

(** A candidate is skipped when the next candidate is fewer than
    [index_err] indices later and has a strictly lower velocity. *)
Definition skipped (this next : nat * Q) : bool :=
  (next.1 - this.1 <? index_err) && Qltb next.2 this.2.

Fixpoint coalesce (candidates : list (nat * Q)) : list (nat * Q) :=
  match candidates with
  | [] => []
  | this :: rest =>
      match rest with
      | [] => [this]
      | next :: _ =>
          if skipped this next then coalesce rest else this :: coalesce rest
      end
  end.

Definition target_of (pts : list TrajectoryPoint) (i : nat) : nat * Q :=
  (i, velocity_at pts i).

Definition spec_decel_targets (pts : list TrajectoryPoint)
  (closest_index : nat) : list (nat * Q) :=
  coalesce (map (target_of pts) (local_minima pts closest_index)).

(** The candidates of [coalesce] that are kept, the last one apart. *)
Fixpoint kept_before_last (candidates : list (nat * Q)) : list (nat * Q) :=
  match candidates with
  | [] => []
  | this :: rest =>
      match rest with
      | [] => []
      | next :: _ =>
          if skipped this next then kept_before_last rest
          else this :: kept_before_last rest
      end
  end.

(** *** Invariants of [applyBackwardDecelFilter] and of [apply] *)

(** A plan is either still the initial one, as far as the test against
    the sentinel [-100.0] can tell, or it records a start index from which
    the distance was found to be enough. *)
Definition plan_valid (trajectory : Trajectory) (decel_target_vel : Q)
  (params : Param) (plan : DecelPlan) : Prop :=
  Qeqb (output_planning_jerk plan) (- 100)%Q = true
  \/ (length (output_dist_to_target plan) = length (points trajectory)
      /\ exists out,
           calcEnoughDistForDecel trajectory (output_start_index plan)
             decel_target_vel (output_planning_jerk plan) params
             (output_dist_to_target plan) = Ok (true, out)).

(** The deceleration targets point into a trajectory of [n] points. *)
Definition targets_within (n : nat) (targets : list (nat * Q)) : Prop :=
  Forall (fun t : nat * Q => 1 <= t.1 < n) targets.

(** What a round leaves has [n] points. *)
Definition round_within (n : nat) (r : round) : Prop :=
  match r with
  | Returned output => length (points output) = n
  | Next reference filtered =>
      length (points reference) = n /\ length (points filtered) = n
  end.

(** The deceleration targets come in the order of their indices. *)
Definition index_lt (a b : nat * Q) : Prop := a.1 < b.1.

(** *** The forward bounds on a trajectory *)

(** The forward bounds are in order and allow a constant acceleration. *)
Definition forward_bounds_valid (params : Param) : Prop :=
  (Forward.min_acc (forward params) <= Forward.max_acc (forward params))%Q
  /\ (Forward.min_jerk (forward params) <= 0)%Q
  /\ (0 <= Forward.max_jerk (forward params))%Q.

Definition acc_within (params : Param) (a : Q) : Prop :=
  (Forward.min_acc (forward params) <= a
   <= Forward.max_acc (forward params))%Q.

(** The finite difference of the acceleration from output point [p] to
    the next one [q], over the time step the forward filter uses between
    the base points [b] and [b']. *)
Definition jerk_within (params : Param) (b b' p q : TrajectoryPoint) : Prop :=
  let dt := forward_dt (twist_linear_x p) (calcDistance2d b b') in
  let da := (accel_linear_x q - accel_linear_x p)%Q in
  (Forward.min_jerk (forward params) * dt <= da
   <= Forward.max_jerk (forward params) * dt)%Q
  /\ ((0 < dt)%Q ->
      (Forward.min_jerk (forward params) <= da / dt
       <= Forward.max_jerk (forward params))%Q).

Definition respects_forward_bounds (params : Param)
  (base out : list TrajectoryPoint) : Prop :=
  (forall i p, out !! i = Some p -> acc_within params (accel_linear_x p))
  /\ (forall i b b' p q,
        base !! i = Some b -> base !! (S i) = Some b' ->
        out !! i = Some p -> out !! (S i) = Some q ->
        jerk_within params b b' p q).

(** *** The groups of capped points *)

(** Point [j] is closer to point [i] than
    [constant_velocity_dist_threshold]. *)
Definition closer (pts : list TrajectoryPoint) (i j : nat) : bool :=
  match pts !! i, pts !! j with
  | Some p, Some q =>
      Qltb (calcDistance2d p q)
        (Latacc.constant_velocity_dist_threshold (latacc smoother_param_))
  | _, _ => false
  end.

(** The capped points of [capped] that continue the group of [prev],
    and the groups after it: a capped point belongs to the group of the
    capped point before it when it is closer to it than the threshold. *)
Fixpoint split_groups (pts : list TrajectoryPoint) (prev : nat)
  (capped : list nat) : list nat * list (list nat) :=
  match capped with
  | [] => ([], [])
  | j :: rest =>
      let (g, gs) := split_groups pts j rest in
      if closer pts prev j then (j :: g, gs) else ([], (j :: g) :: gs)
  end.

Definition groups (pts : list TrajectoryPoint) (capped : list nat)
  : list (list nat) :=
  match capped with
  | [] => []
  | j :: rest => let (g, gs) := split_groups pts j rest in (j :: g) :: gs
  end.

(** A range [(first, last, minimum velocity)] extended by the capped
    points [g]. *)
Definition extend_range (pts : list TrajectoryPoint) (r : nat * nat * Q)
  (g : list nat) : nat * nat * Q :=
  fold_left (fun r j => (r.1.1, j, std_min (velocity_at pts j) r.2)) g r.

(** The first and the last index of a group and the least velocity of
    its points. *)
Definition group_range (pts : list TrajectoryPoint) (g : list nat)
  : nat * nat * Q :=
  match g with
  | [] => (0, 0, 0%Q)
  | j :: g' => extend_range pts (j, j, velocity_at pts j) g'
  end.

(** The point the speed-lowering loop leaves where it found [p], at
    window curvature [curvature]. *)
Definition lowered (curvature : Q) (p : TrajectoryPoint) : TrajectoryPoint :=
  if Qltb (v_curvature_max_of curvature) (twist_linear_x p)
  then set_twist_linear_x p (v_curvature_max_of curvature)
  else p.

(** ** Stand-ins and example data

    Executable stand-ins for the functions that are Section variables,
    and small trajectories and parameter sets, on which the model is
    run. *)

(** A square root that is exact on squares of rationals and rounds down
    otherwise. *)
Definition Qsqrt_floor (x : Q) : Q :=
  if Qltb x 0 then 0%Q else Z.sqrt (Qnum x * Z.pos (Qden x)) # Qden x.

(** The distance in the plane, through [Qsqrt_floor]. *)
Definition distance2d_floor (p q : TrajectoryPoint) : Q :=
  let dx := (Point.x (Pose.position (pose q))
             - Point.x (Pose.position (pose p)))%Q in
  let dy := (Point.y (Pose.position (pose q))
             - Point.y (Pose.position (pose p)))%Q in
  Qsqrt_floor (dx * dx + dy * dy).

(** Linear interpolation of positions. *)
Definition lerp_linear (a b : Point.t) (t : Q) : Point.t :=
  Point.mk (Point.x a + (Point.x b - Point.x a) * t)%Q
           (Point.y a + (Point.y b - Point.y a) * t)%Q
           (Point.z a + (Point.z b - Point.z a) * t)%Q.

(** Between equal orientations the interpolated orientation is that
    orientation. *)
Definition slerp_first (a b : Quaternion.t) (t : Q) : Quaternion.t := a.

(** A stop-distance computation that finds no profile. *)
Definition no_stop_profile (v0 a0 jerk_acc jerk_dec min_acc target_vel : Q)
  : bool * (Z * list Q * Q) :=
  (false, (0%Z, [], 0%Q)).

(** A deceleration-profile writer that fails and writes nothing. *)
Definition keep_trajectory (v0 a0 jerk_acc jerk_dec min_acc target_vel : Q)
  (type : Z) (times : list Q) (start_index : nat) (trajectory : Trajectory)
  : bool * Trajectory :=
  (false, trajectory).

(** The arc length of every point, from the first one. *)
Fixpoint arclength_from (s : Q) (prev : TrajectoryPoint)
  (pts : list TrajectoryPoint) : list Q :=
  match pts with
  | [] => []
  | p :: pts' =>
      let s' := (s + distance2d_floor prev p)%Q in
      s' :: arclength_from s' p pts'
  end.

Definition arclength_floor (t : Trajectory) : list Q :=
  match points t with
  | [] => []
  | p :: pts => 0%Q :: arclength_from 0 p pts
  end.

(** An interpolation that hands back the trajectory it was given. *)
Definition interpolate_same (in_arclength : list Q) (input : Trajectory)
  (out_arclength : list Q) : option Trajectory :=
  Some input.

(** A curvature estimate of [1/2] (a circle of radius 2) at every
    point. *)
Definition curvature_half (t : Trajectory) (idx_dist : nat)
  : option (list Q) :=
  Some (repeat (1 # 2)%Q (length (points t))).

Definition example_param : Param :=
  mkParam (Resample.mk 2) (Latacc.mk false 2)
    (Forward.mk 1 (- 1) 0.5 (- 0.5) 0.3)
    (Backward.mk (- 0.1) (- 0.3) (- 1.5) (- 1) (- 2.5) (- 0.5)).

(** [example_param] with [enable_constant_velocity_while_turning] set. *)
Definition plateau_param : Param :=
  mkParam (Resample.mk 2) (Latacc.mk true 2)
    (Forward.mk 1 (- 1) 0.5 (- 0.5) 0.3)
    (Backward.mk (- 0.1) (- 0.3) (- 1.5) (- 1) (- 2.5) (- 0.5)).


Definition example_base_param : BaseParam := mkBaseParam 0.5 2.74 3.5 2.

(** The point at [(x, 0, 0)] with the identity orientation, velocity [v]
    and acceleration [a]. *)
Definition point_on_axis (x v a : Q) : TrajectoryPoint :=
  mkTrajectoryPoint
    (Pose.mk (Point.mk x 0 0) (Quaternion.mk 0 0 0 1))
    (Twist.mk (Vector3.mk v 0 0) (Vector3.mk 0 0 0))
    (Accel.mk (Vector3.mk a 0 0) (Vector3.mk 0 0 0)).

Definition example_header : Header := mkHeader 0 0 "map".

(** Points one metre apart on the x axis, with the velocities [vs]. *)
Definition on_axis (vs : list Q) : Trajectory :=
  mkTrajectory example_header
    (imap (fun i v => point_on_axis (inject_Z (Z.of_nat i)) v 0) vs).

(** A stop-distance computation that finds a profile of type [0] which
    needs no distance at all. *)
Definition stop_at_once (v0 a0 jerk_acc jerk_dec min_acc target_vel : Q)
  : bool * (Z * list Q * Q) :=
  (true, (0%Z, [], 0%Q)).

(** A deceleration-profile writer that puts the target velocity on every
    point from the start index on. *)
Definition write_target_velocity
  (v0 a0 jerk_acc jerk_dec min_acc target_vel : Q) (type : Z)
  (times : list Q) (start_index : nat) (trajectory : Trajectory)
  : bool * Trajectory :=
  (true,
   set_points trajectory
     (imap (fun i p => if start_index <=? i
                       then set_twist_linear_x p target_vel else p)
        (points trajectory))).

(** [example_param] with a [start_jerk] of [-100]. *)
Definition sentinel_param : Param :=
  mkParam (Resample.mk 2) (Latacc.mk false 2)
    (Forward.mk 1 (- 1) 0.5 (- 0.5) 0.3)
    (Backward.mk (- 100) (- 0.3) (- 101) (- 1) (- 2.5) (- 0.5)).

(** A curvature estimate of a bend: [1/4] at the first and the last
    point, [1] at the point between them. *)
Definition curvature_bend (t : Trajectory) (idx_dist : nat)
  : option (list Q) :=
  Some [(1 # 4)%Q; 1%Q; (1 # 4)%Q].

(** Base parameters with a lateral acceleration of [1], no floor
    velocity and a window of the point itself. *)
Definition narrow_base_param : BaseParam := mkBaseParam 1 0 0 0.1.

(** [plateau_param] with a distance threshold of [5]. *)
Definition wide_plateau_param : Param :=
  mkParam (Resample.mk 2) (Latacc.mk true 5)
    (Forward.mk 1 (- 1) 0.5 (- 0.5) 0.3)
    (Backward.mk (- 0.1) (- 0.3) (- 1.5) (- 1) (- 2.5) (- 0.5)).

(** The forward parameters of [example_param], in binary64. *)
Definition example_forward64 : Binary64.Forward :=
  Binary64.mkForward 1 (-1) 0.5 (-0.5) 0.3.

(** ** Notions used in further statements *)

(** A point with [twist.linear.x] and [accel.linear.x] blanked: two
    points with the same image agree on the pose and on every other
    component of the twist and of the acceleration. *)
Definition erase_motion (p : TrajectoryPoint) : TrajectoryPoint :=
  set_accel_linear_x (set_twist_linear_x p 0) 0.

(** [t'] is [t] but for the longitudinal velocities and accelerations of
    its points. *)
Definition same_but_motion (t t' : Trajectory) : Prop :=
  header t' = header t
  /\ erase_motion <$> points t' = erase_motion <$> points t.

(** The invariant of the loop over the targets: the reference and the
    filtered trajectory are the input but for the motion. *)
Definition round_same_but_motion (input : Trajectory) (r : round) : Prop :=
  match r with
  | Returned output => same_but_motion input output
  | Next reference filtered =>
      same_but_motion input reference /\ same_but_motion input filtered
  end.

(** The length of the path of [k] segments that starts at point [i]:
    the sum of the distances between consecutive points. *)
Fixpoint path_length (pts : list TrajectoryPoint) (i k : nat) : Q :=
  match k with
  | O => 0%Q
  | S k' =>
      match pts !! i, pts !! (S i) with
      | Some p, Some q =>
          (calcDistance2d p q + path_length pts (S i) k')%Q
      | _, _ => 0%Q
      end
  end.

(** A plan is still the initial one, as far as the test against the
    sentinel [-100.0] can tell, or it records the jerk, the start index,
    the distances, the type and the times of a call of
    [calcEnoughDistForDecel] that found the distance to be enough, for a
    jerk that passed the condition of the scan; the distances recorded
    from the start index on are the lengths of the path to the target. *)
Definition plan_checked (trajectory : Trajectory) (decel_target_index : nat)
  (decel_target_vel : Q) (params : Param) (plan : DecelPlan) : Prop :=
  Qeqb (output_planning_jerk plan) (- 100)%Q = true
  \/ ((Backward.min_jerk (backward params) - backward_ep
       < output_planning_jerk plan)%Q
      /\ calcEnoughDistForDecel trajectory (output_start_index plan)
           decel_target_vel (output_planning_jerk plan) params
           (output_dist_to_target plan)
         = Ok (true, (output_type plan, output_times plan))
      /\ forall i x,
           output_start_index plan <= i ->
           output_dist_to_target plan !! i = Some x ->
           (x == path_length (points trajectory) i
                   (decel_target_index - i))%Q).

(** A result that is no exception: a value that satisfies [P], or the
    fuel of a loop ran out, which stands for a call that does not
    return. *)
Definition no_throw {A : Type} (P : A -> Prop) (r : result A) : Prop :=
  match r with
  | Ok a => P a
  | Fail timeout => True
  | Fail _ => False
  end.

(** *** What the forward filter guarantees *)

(** Output point [o] is one step of the forward filter from the output
    point [o_prev] before it, over the base points [b_prev] and [b]:
    with [dt = ds / max(prev_vel, 1.0)], the velocity of [o] is
    [prev_vel + prev_acc * dt] and its acceleration is
    [prev_acc + limited_jerk * dt], where [limited_jerk] is the jerk
    towards [limited_acc] clamped to [[min_jerk, max_jerk]] and
    [limited_acc] is the feedback acceleration clamped to
    [[min_acc, max_acc]].  The two clamped values are within their
    bounds; the sum that is stored is not clamped again. *)
Definition forward_step (params : Param)
  (b_prev b o_prev o : TrajectoryPoint) : Prop :=
  let prev_vel := twist_linear_x o_prev in
  let prev_acc := accel_linear_x o_prev in
  let dt := forward_dt prev_vel (calcDistance2d b_prev b) in
  let curr_vel := (prev_vel + prev_acc * dt)%Q in
  exists limited_acc limited_jerk : Q,
    limited_acc
    = std_max (Forward.min_acc (forward params))
        (std_min (Forward.max_acc (forward params))
           (Forward.kp (forward params) * (twist_linear_x b - curr_vel)))
    /\ limited_jerk
       = std_max (Forward.min_jerk (forward params))
           (std_min (Forward.max_jerk (forward params))
              ((limited_acc - prev_acc) / dt))
    /\ (Forward.min_acc (forward params) <= limited_acc
        <= Forward.max_acc (forward params))%Q
    /\ (Forward.min_jerk (forward params) <= limited_jerk
        <= Forward.max_jerk (forward params))%Q
    /\ twist_linear_x o = curr_vel
    /\ accel_linear_x o = (prev_acc + limited_jerk * dt)%Q.

(** Every point of [out] above index [lo] and below index [hi] is a
    forward step from the point before it, over base points that are
    the points of [input] but for their velocity and acceleration. *)
Definition forward_steps (params : Param)
  (input out : list TrajectoryPoint) (lo hi : nat) : Prop :=
  forall i o_prev o,
    lo < i < hi -> out !! (i - 1) = Some o_prev -> out !! i = Some o ->
    exists a_prev a b_prev b,
      input !! (i - 1) = Some a_prev /\ input !! i = Some a
      /\ erase_motion b_prev = erase_motion a_prev
      /\ erase_motion b = erase_motion a
      /\ forward_step params b_prev b o_prev o.

(** The first point carries the velocity [v] and the acceleration [a]. *)
Definition starts_with (out : list TrajectoryPoint) (v a : Q) : Prop :=
  exists p,
    out !! 0 = Some p /\ twist_linear_x p = v /\ accel_linear_x p = a.

(** From index [lo] on the points were capped to the velocity [0]: no
    velocity is above [0] and every acceleration is [0]. *)
Definition stopped_from (out : list TrajectoryPoint) (lo : nat) : Prop :=
  forall i o,
    lo <= i -> out !! i = Some o ->
    (twist_linear_x o <= 0)%Q /\ accel_linear_x o = 0%Q.

(** The trajectory [out] is built by forward steps above index [lo], up
    to the index [cap_start] at which a cap to the velocity [0] begins
    (the number of points when there is no such cap); with [lo = 0] the
    steps start from the initial velocity and acceleration. *)
Definition forward_built (params : Param) (initial_vel initial_acc : Q)
  (input out : list TrajectoryPoint) (lo cap_start : nat) : Prop :=
  cap_start <= length out
  /\ (lo = 0 -> 0 < cap_start -> starts_with out initial_vel initial_acc)
  /\ forward_steps params input out lo cap_start
  /\ stopped_from out cap_start.

(** The forward pass that opens round [i] of the loop of [apply], from
    the start of the trajectory or from the target before. *)
Definition round_forward (initial_vel initial_acc : Q)
  (decel_target_indices : list (nat * Q)) (i : nat)
  (reference_trajectory filtered_trajectory : Trajectory)
  : result Trajectory :=
  let* (fwd_start_index, fwd_start_vel, fwd_start_acc) :=
    match i with
    | O => Ok (closest_index, initial_vel, initial_acc)
    | S i' =>
        let* before := at_ decel_target_indices i' in
        let* p := at_ (points filtered_trajectory) before.1 in
        Ok (before.1, twist_linear_x p, accel_linear_x p)
    end in
  applyForwardJerkFilter reference_trajectory fwd_start_index fwd_start_vel
    fwd_start_acc smoother_param_ filtered_trajectory.

(** The run of [apply] on [input] writes no deceleration profile: in
    every round the loop over the targets reaches,
    [applyBackwardDecelFilter] returns [false] and leaves the filtered
    trajectory as the forward pass of the round has made it. *)
Definition writes_no_profile (fuel : nat) (initial_vel initial_acc : Q)
  (input : Trajectory) : Prop :=
  forall targets i reference filtered bwd_start_index bwd_start_vel
         bwd_start_acc target ok filtered',
    searchDecelTargetIndices input closest_index [] = Ok targets ->
    apply_rounds fuel initial_vel initial_acc targets (seq 0 i) input input
    = Ok (Next reference filtered) ->
    round_backward fuel initial_vel initial_acc targets i reference
      filtered
    = Ok (bwd_start_index, bwd_start_vel, bwd_start_acc, target, ok,
          filtered') ->
    ok = false
    /\ round_forward initial_vel initial_acc targets i reference filtered
       = Ok filtered'.

(** [calcStopDistWithJerkAndAccConstraints] finds no stopping profile. *)
Definition finds_no_profile : Prop :=
  forall v0 a0 jerk_acc jerk_dec min_acc target_vel,
    (calcStopDistWithJerkAndAccConstraints v0 a0 jerk_acc jerk_dec min_acc
       target_vel).1 = false.

(** ** Comparisons and clamps *)

Lemma Qltb_lt (a b : Q) : Qltb a b = true <-> (a < b)%Q.
Proof.
  unfold Qltb. rewrite negb_true_iff, <- not_true_iff_false, Qle_bool_iff.
  split; [apply Qnot_le_lt | apply Qlt_not_le].
Qed.

Lemma Qltb_ge (a b : Q) : Qltb a b = false <-> (b <= a)%Q.
Proof.
  unfold Qltb. rewrite negb_false_iff. apply Qle_bool_iff.
Qed.

Lemma Qleb_le (a b : Q) : Qleb a b = true <-> (a <= b)%Q.
Proof. apply Qle_bool_iff. Qed.

Lemma Qleb_gt (a b : Q) : Qleb a b = false <-> (b < a)%Q.
Proof.
  unfold Qleb. rewrite <- not_true_iff_false, Qle_bool_iff.
  split; [apply Qnot_le_lt | apply Qlt_not_le].
Qed.

Lemma std_max_cases (a b : Q) :
  ((a < b)%Q /\ std_max a b = b) \/ ((b <= a)%Q /\ std_max a b = a).
Proof.
  unfold std_max. destruct (Qltb a b) eqn:E.
  - left. split; [by apply Qltb_lt | done].
  - right. split; [by apply Qltb_ge | done].
Qed.

Lemma std_min_cases (a b : Q) :
  ((b < a)%Q /\ std_min a b = b) \/ ((a <= b)%Q /\ std_min a b = a).
Proof.
  unfold std_min. destruct (Qltb b a) eqn:E.
  - left. split; [by apply Qltb_lt | done].
  - right. split; [by apply Qltb_ge | done].
Qed.

Lemma std_abs_cases (a : Q) :
  ((a < 0)%Q /\ std_abs a = (- a)%Q) \/ ((0 <= a)%Q /\ std_abs a = a).
Proof.
  unfold std_abs. destruct (Qltb a 0) eqn:E.
  - left. split; [by apply Qltb_lt | done].
  - right. split; [by apply Qltb_ge | done].
Qed.

Lemma std_max_ge_r (a b : Q) : (b <= std_max a b)%Q.
Proof. destruct (std_max_cases a b) as [[? ->]|[? ->]]; lra. Qed.

Lemma std_max_ge_l (a b : Q) : (a <= std_max a b)%Q.
Proof. destruct (std_max_cases a b) as [[? ->]|[? ->]]; lra. Qed.

Lemma std_min_le_l (a b : Q) : (std_min a b <= a)%Q.
Proof. destruct (std_min_cases a b) as [[? ->]|[? ->]]; lra. Qed.

Lemma std_min_le_r (a b : Q) : (std_min a b <= b)%Q.
Proof. destruct (std_min_cases a b) as [[? ->]|[? ->]]; lra. Qed.

Lemma std_abs_nonneg (a : Q) : (0 <= std_abs a)%Q.
Proof. destruct (std_abs_cases a) as [[? ->]|[? ->]]; lra. Qed.

(** [std::max(lo, std::min(hi, x))] lies between the bounds. *)
Lemma clamp_bounds (lo hi x : Q) :
  (lo <= hi)%Q ->
  (lo <= std_max lo (std_min hi x) <= hi)%Q.
Proof.
  intros Hlh.
  destruct (std_max_cases lo (std_min hi x)) as [[H ->]|[H ->]];
    destruct (std_min_cases hi x) as [[H' E]|[H' E]]; rewrite ?E in *; lra.
Qed.

(** ** The [result] monad and indexed access *)

Lemma bind_Ok {A B : Type} (c : result A) (k : A -> result B) (b : B) :
  bind c k = Ok b <-> exists a, c = Ok a /\ k a = Ok b.
Proof.
  destruct c as [a|e]; simpl; split.
  - eauto.
  - by intros (a' & [= ->] & H).
  - done.
  - by intros (a' & [=] & _).
Qed.

Lemma at_Ok {A : Type} (v : list A) (i : nat) (a : A) :
  at_ v i = Ok a <-> v !! i = Some a.
Proof. unfold at_. destruct (v !! i); split; congruence. Qed.

Lemma at_lt {A : Type} (v : list A) (i : nat) :
  i < length v -> exists a, at_ v i = Ok a /\ v !! i = Some a.
Proof.
  intros H. destruct (lookup_lt_is_Some_2 v i H) as [a Ha].
  exists a. split; [by apply at_Ok | done].
Qed.

Lemma at_ge {A : Type} (v : list A) (i : nat) :
  length v <= i -> at_ v i = Fail out_of_range.
Proof. intros H. unfold at_. by rewrite lookup_ge_None_2. Qed.

Lemma set_at_Ok {A : Type} (v : list A) (i : nat) (a : A) (v' : list A) :
  set_at v i a = Ok v' <-> i < length v /\ v' = <[i := a]> v.
Proof.
  unfold set_at. rewrite bind_Ok. split.
  - intros (x & Hx & [= <-]). apply at_Ok, lookup_lt_Some in Hx. done.
  - intros [H ->]. destruct (at_lt v i H) as (x & Hx & _). eauto.
Qed.

(** The invariant rule of a [for] loop. *)
Lemma foldM_invariant {S : Type} (P : S -> Prop) (body : nat -> S -> result S)
  (l : list nat) (s s' : S) :
  (forall i t t', i ∈ l -> P t -> body i t = Ok t' -> P t') ->
  P s -> foldM body l s = Ok s' -> P s'.
Proof.
  revert s. induction l as [|i l IH]; intros s Hstep Hs; simpl.
  - by intros [= <-].
  - rewrite bind_Ok. intros (t & Ht & Hrest).
    apply (IH t); [| |done].
    + intros j u u' Hj. apply Hstep. by right.
    + apply (Hstep i s t); [by left|done|done].
Qed.

(** A [for] loop whose rounds succeed under an invariant succeeds. *)
Lemma foldM_total {S : Type} (P : S -> Prop) (body : nat -> S -> result S)
  (l : list nat) (s : S) :
  (forall i t, i ∈ l -> P t -> exists t', body i t = Ok t' /\ P t') ->
  P s -> exists s', foldM body l s = Ok s' /\ P s'.
Proof.
  revert s. induction l as [|i l IH]; intros s Hstep Hs; simpl.
  - eauto.
  - destruct (Hstep i s) as (t & Ht & HP); [by left|done|].
    rewrite Ht. simpl. apply IH; [|done].
    intros j u Hj. apply Hstep. by right.
Qed.

Lemma for_range_S {S : Type} (lo hi : nat) (body : nat -> S -> result S)
  (s : S) :
  lo <= hi ->
  for_range lo (Datatypes.S hi) body s
  = bind (for_range lo hi body s) (body hi).
Proof.
  intros Hle. unfold for_range.
  replace (Datatypes.S hi - lo) with (Datatypes.S (hi - lo)) by lia.
  rewrite seq_S. replace (lo + (hi - lo)) with hi by lia.
  generalize (seq lo (hi - lo)). intros l. revert s.
  induction l as [|i l IH]; intros s; simpl.
  - by destruct (body hi s).
  - destruct (body i s); simpl; [apply IH|done].
Qed.

(** ** applyMaxVelocity *)

Lemma for_range_nil {S : Type} (lo : nat) (body : nat -> S -> result S)
  (s : S) : for_range lo lo body s = Ok s.
Proof. unfold for_range. by rewrite Nat.sub_diag. Qed.

Lemma applyMaxVelocity_loop (max_velocity : Q) (lo hi : nat)
  (pts : list TrajectoryPoint) :
  lo <= hi -> hi <= length pts ->
  exists pts',
    for_range lo hi (applyMaxVelocity_body max_velocity) pts = Ok pts'
    /\ length pts' = length pts
    /\ forall i, pts' !! i
                 = if (lo <=? i) && (i <? hi)
                   then capped max_velocity <$> pts !! i
                   else pts !! i.
Proof.
  intros Hle. induction Hle as [|hi Hle IH]; intros Hlen.
  - exists pts. rewrite for_range_nil. split; [done|]. split; [done|].
    intros i. destruct (lo <=? i) eqn:E1, (i <? lo) eqn:E2; try done.
    apply Nat.leb_le in E1. apply Nat.ltb_lt in E2. lia.
  - destruct IH as (pts1 & Hrun & Hlen1 & Hpts1); [lia|].
    rewrite for_range_S, Hrun by done. simpl.
    unfold applyMaxVelocity_body.
    destruct (at_lt pts1 hi) as (p & -> & Hp); [lia|]. simpl.
    eexists. split; [done|]. split; [by rewrite length_insert|].
    intros i. destruct (decide (i = hi)) as [->|Hne].
    + rewrite list_lookup_insert_eq by lia.
      rewrite Hpts1 in Hp.
      replace (hi <? hi) with false in Hp by (symmetry; apply Nat.ltb_ge; lia).
      rewrite andb_false_r in Hp.
      replace (lo <=? hi) with true by (symmetry; apply Nat.leb_le; lia).
      replace (hi <? Datatypes.S hi) with true
        by (symmetry; apply Nat.ltb_lt; lia).
      simpl. by rewrite Hp.
    + rewrite list_lookup_insert_ne by done. rewrite Hpts1.
      destruct (lo <=? i) eqn:E1; [|done]. simpl.
      destruct (i <? hi) eqn:E2.
      * replace (i <? Datatypes.S hi) with true; [done|].
        symmetry. apply Nat.ltb_lt. apply Nat.ltb_lt in E2. lia.
      * replace (i <? Datatypes.S hi) with false; [done|].
        symmetry. apply Nat.ltb_ge. apply Nat.ltb_ge in E2. lia.
Qed.

(** Inside the trajectory the cap succeeds and is pointwise. *)
Lemma applyMaxVelocity_inside (max_velocity : Q) (start_index end_index : nat)
  (t : Trajectory) :
  start_index <= end_index -> end_index < length (points t) ->
  exists pts',
    applyMaxVelocity max_velocity start_index end_index t
    = Ok (true, set_points t pts')
    /\ length pts' = length (points t)
    /\ forall i, pts' !! i
                 = if (start_index <=? i) && (i <=? end_index)
                   then capped max_velocity <$> points t !! i
                   else points t !! i.
Proof.
  intros Hle Hlt. unfold applyMaxVelocity.
  replace (end_index <? start_index) with false
    by (symmetry; apply Nat.ltb_ge; lia).
  replace (length (points t) <? end_index) with false
    by (symmetry; apply Nat.ltb_ge; lia).
  simpl.
  destruct (applyMaxVelocity_loop max_velocity start_index
              (Datatypes.S end_index) (points t))
    as (pts' & -> & Hlen & Hpts); [lia|lia|].
  simpl. exists pts'. split; [done|]. split; [done|].
  intros i. rewrite Hpts. done.
Qed.

(** A [false] return leaves the trajectory as it was. *)
Lemma applyMaxVelocity_false (max_velocity : Q) (start_index end_index : nat)
  (t t' : Trajectory) :
  applyMaxVelocity max_velocity start_index end_index t = Ok (false, t') ->
  t' = t.
Proof.
  unfold applyMaxVelocity.
  destruct ((end_index <? start_index)
            || (length (points t) <? end_index)).
  - by intros [= <-].
  - destruct (for_range _ _ _ _); simpl; [|done]. by intros [=].
Qed.

(** With [end_index = points.size()] the guard lets the call through and
    the last round's [.at] throws. *)
Lemma applyMaxVelocity_at_size (max_velocity : Q) (start_index : nat)
  (t : Trajectory) :
  start_index <= length (points t) ->
  applyMaxVelocity max_velocity start_index (length (points t)) t
  = Fail out_of_range.
Proof.
  intros Hle. unfold applyMaxVelocity.
  replace (length (points t) <? start_index) with false
    by (symmetry; apply Nat.ltb_ge; lia).
  rewrite Nat.ltb_irrefl. simpl.
  rewrite for_range_S by done.
  destruct (applyMaxVelocity_loop max_velocity start_index
              (length (points t)) (points t))
    as (pts' & -> & Hlen & _); [lia|lia|].
  simpl. unfold applyMaxVelocity_body. rewrite at_ge by lia. done.
Qed.

(** ** applyForwardJerkFilter *)

Lemma forward_dt_denominator (prev_vel : Q) : (1 <= std_max prev_vel 1)%Q.
Proof. apply std_max_ge_r. Qed.

Lemma forward_loop (base : list TrajectoryPoint) (params : Param)
  (lo hi : nat) (out : list TrajectoryPoint) :
  1 <= lo -> lo <= hi -> hi <= length base -> hi <= length out ->
  exists out',
    for_range lo hi (forward_body base params) out = Ok out'
    /\ length out' = length out
    /\ (forall i, i < lo \/ hi <= i -> out' !! i = out !! i)
    /\ (forall i, lo <= i < hi ->
          exists b_prev b o_prev o,
            base !! (i - 1) = Some b_prev /\ base !! i = Some b
            /\ out' !! (i - 1) = Some o_prev /\ out !! i = Some o
            /\ out' !! i = Some (forward_point params b_prev b o_prev o)).
Proof.
  intros Hlo Hle. induction Hle as [|hi Hle IH]; intros Hbase Hout.
  - exists out. rewrite for_range_nil. split; [done|]. split; [done|].
    split; [done|]. intros i Hi. lia.
  - destruct IH as (out1 & Hrun & Hlen & Hsame & Hchain); [lia|lia|].
    rewrite for_range_S, Hrun by done. simpl. unfold forward_body.
    destruct (at_lt out1 (hi - 1)) as (o_prev & -> & Ho_prev); [lia|].
    destruct (at_lt base (hi - 1)) as (b_prev & -> & Hb_prev); [lia|].
    destruct (at_lt base hi) as (b & -> & Hb); [lia|].
    destruct (at_lt out1 hi) as (o & -> & Ho); [lia|].
    simpl. eexists. split; [done|]. split; [by rewrite length_insert|].
    split.
    + intros i Hi. rewrite list_lookup_insert_ne by lia. apply Hsame. lia.
    + intros i Hi. destruct (decide (i = hi)) as [->|Hne].
      * exists b_prev, b, o_prev, o.
        rewrite list_lookup_insert_ne by lia.
        rewrite list_lookup_insert_eq by lia.
        rewrite <- (Hsame hi) by lia. done.
      * destruct (Hchain i) as (b_prev' & b' & o_prev' & o' & ? & ? & ? & ? & ?);
          [lia|].
        exists b_prev', b', o_prev', o'.
        rewrite !list_lookup_insert_ne by lia. done.
Qed.

(** What [applyForwardJerkFilter] leaves: the points before [start_index]
    as they were, the initial motion at [start_index], and from there on
    every point computed from the output point before it. *)
Lemma applyForwardJerkFilter_spec (base : Trajectory) (start_index : nat)
  (initial_vel initial_acc : Q) (params : Param) (output : Trajectory) :
  start_index < length (points output) ->
  length (points base) <= length (points output) ->
  exists out',
    applyForwardJerkFilter base start_index initial_vel initial_acc params
      output = Ok (set_points output out')
    /\ length out' = length (points output)
    /\ (forall i, i < start_index \/ length (points base) <= i ->
          i <> start_index -> out' !! i = points output !! i)
    /\ (exists o, points output !! start_index = Some o
          /\ out' !! start_index
             = Some (set_accel_linear_x
                       (set_twist_linear_x o initial_vel) initial_acc))
    /\ (forall i, start_index < i < length (points base) ->
          exists b_prev b o_prev o,
            points base !! (i - 1) = Some b_prev /\ points base !! i = Some b
            /\ out' !! (i - 1) = Some o_prev
            /\ points output !! i = Some o
            /\ out' !! i = Some (forward_point params b_prev b o_prev o)).
Proof.
  intros Hstart Hlen. unfold applyForwardJerkFilter.
  destruct (at_lt (points output) start_index) as (o & -> & Ho); [done|].
  simpl.
  set (out1 := <[start_index := _]> (points output)).
  assert (Hlen1 : length out1 = length (points output))
    by (unfold out1; by rewrite length_insert).
  destruct (le_lt_dec (start_index + 1) (length (points base))) as [Hb|Hb].
  - destruct (forward_loop (points base) params (start_index + 1)
                (length (points base)) out1)
      as (out' & -> & Hlen' & Hsame & Hchain); [lia|lia|lia|lia|].
    simpl. exists out'. split; [done|]. split; [lia|]. split; [|split].
    + intros i Hi Hne. rewrite Hsame by lia. unfold out1.
      by rewrite list_lookup_insert_ne.
    + exists o. split; [done|]. rewrite Hsame by lia. unfold out1.
      by rewrite list_lookup_insert_eq.
    + intros i Hi.
      destruct (Hchain i) as (b_prev & b & o_prev & o' & ? & ? & ? & Ho' & ?);
        [lia|].
      exists b_prev, b, o_prev, o'. unfold out1 in Ho'.
      rewrite list_lookup_insert_ne in Ho' by lia. done.
  - unfold for_range.
    replace (length (points base) - (start_index + 1)) with 0 by lia.
    simpl. exists out1. split; [done|]. split; [done|]. split; [|split].
    + intros i Hi Hne. unfold out1. by rewrite list_lookup_insert_ne.
    + exists o. split; [done|]. unfold out1.
      by rewrite list_lookup_insert_eq.
    + intros i Hi. lia.
Qed.

(** ** searchDecelTargetIndices *)

Lemma velocity_at_Some (pts : list TrajectoryPoint) (i : nat)
  (p : TrajectoryPoint) :
  pts !! i = Some p -> velocity_at pts i = twist_linear_x p.
Proof. unfold velocity_at. by intros ->. Qed.

Lemma search_body_spec (pts : list TrajectoryPoint) (i : nat)
  (tmp : list (nat * Q)) :
  1 <= i -> i + 1 < length pts ->
  search_body pts i tmp
  = Ok (tmp ++ map (target_of pts)
                (List.filter
                   (fun k => decreases_into pts k && not_decreasing_after pts k)
                   [i])).
Proof.
  intros Hi Hlen. unfold search_body.
  destruct (at_lt pts i) as (p & -> & Hp); [lia|].
  destruct i as [|j]; [lia|]. simpl at_pred.
  destruct (at_lt pts j) as (pp & -> & Hpp); [lia|].
  destruct (at_lt pts (Datatypes.S j + 1)) as (pn & -> & Hpn); [lia|].
  simpl. unfold decreases_into, not_decreasing_after.
  replace (Datatypes.S j - 1) with j by lia.
  rewrite (velocity_at_Some _ _ _ Hp), (velocity_at_Some _ _ _ Hpp),
    (velocity_at_Some _ _ _ Hpn).
  destruct (Qltb _ search_ep && Qltb search_ep _); simpl.
  - unfold target_of. by rewrite (velocity_at_Some _ _ _ Hp).
  - by rewrite app_nil_r.
Qed.

Lemma search_loop (pts : list TrajectoryPoint) (lo hi : nat) :
  1 <= lo -> lo <= hi -> hi < length pts ->
  for_range lo hi (search_body pts) []
  = Ok (map (target_of pts)
          (List.filter
             (fun k => decreases_into pts k && not_decreasing_after pts k)
             (seq lo (hi - lo)))).
Proof.
  intros Hlo Hle. induction Hle as [|hi Hle IH]; intros Hlen.
  - rewrite for_range_nil, Nat.sub_diag. done.
  - rewrite for_range_S, IH by (done || lia). simpl.
    rewrite search_body_spec by lia.
    replace (Datatypes.S hi - lo) with (Datatypes.S (hi - lo)) by lia.
    rewrite seq_S, List.filter_app, map_app.
    replace (lo + (hi - lo)) with hi by lia. done.
Qed.

Lemma search_last_spec (pts : list TrajectoryPoint) (last : nat)
  (tmp : list (nat * Q)) :
  1 <= last -> last < length pts ->
  search_last pts last tmp
  = Ok (tmp ++ map (target_of pts) (List.filter (decreases_into pts) [last])).
Proof.
  intros Hi Hlen. unfold search_last.
  destruct (at_lt pts last) as (p & -> & Hp); [lia|].
  destruct last as [|j]; [lia|]. simpl at_pred.
  destruct (at_lt pts j) as (pp & -> & Hpp); [lia|].
  simpl. unfold decreases_into.
  replace (Datatypes.S j - 1) with j by lia.
  rewrite (velocity_at_Some _ _ _ Hp), (velocity_at_Some _ _ _ Hpp).
  destruct (Qltb _ search_ep); simpl.
  - unfold target_of. by rewrite (velocity_at_Some _ _ _ Hp).
  - by rewrite app_nil_r.
Qed.

Lemma filter_ext_in_seq (f g : nat -> bool) (lo n : nat) :
  (forall k, lo <= k < lo + n -> f k = g k) ->
  List.filter f (seq lo n) = List.filter g (seq lo n).
Proof.
  intros H. apply List.filter_ext_in. intros k Hk.
  apply in_seq in Hk. apply H. lia.
Qed.

Lemma filter_none_seq (f : nat -> bool) (lo n : nat) :
  (forall k, lo <= k < lo + n -> f k = false) ->
  List.filter f (seq lo n) = [].
Proof.
  intros H. rewrite (filter_ext_in_seq f (fun _ => false)) by done.
  induction (seq lo n); simpl; done.
Qed.

(** The candidates the two scanning steps collect are the local minima. *)
Lemma local_minima_split (pts : list TrajectoryPoint) (closest_index last : nat) :
  length pts = Datatypes.S last ->
  local_minima pts closest_index
  = List.filter (fun k => decreases_into pts k && not_decreasing_after pts k)
      (seq (Nat.max 1 closest_index) (last - Nat.max 1 closest_index))
    ++ List.filter (decreases_into pts) [last].
Proof.
  intros Hlen. unfold local_minima. rewrite Hlen.
  set (start := Nat.max 1 closest_index).
  rewrite seq_S, List.filter_app. simpl (0 + last).
  f_equal.
  - destruct (le_lt_dec start last) as [Hs|Hs].
    + replace last with (start + (last - start)) at 1 by lia.
      rewrite seq_app, List.filter_app. simpl (0 + start).
      rewrite filter_none_seq.
      * simpl. apply filter_ext_in_seq. intros k Hk.
        unfold local_minimum. fold start. rewrite Hlen.
        replace (start <=? k) with true by (symmetry; apply Nat.leb_le; lia).
        replace (k + 2 <=? Datatypes.S last) with true
          by (symmetry; apply Nat.leb_le; lia).
        replace (k + 1 =? Datatypes.S last) with false
          by (symmetry; apply Nat.eqb_neq; lia).
        simpl. by rewrite orb_false_r.
      * intros k Hk. unfold local_minimum. fold start. rewrite Hlen.
        replace (start <=? k) with false by (symmetry; apply Nat.leb_gt; lia).
        replace (k + 1 =? Datatypes.S last) with false
          by (symmetry; apply Nat.eqb_neq; lia).
        done.
    + replace (last - start) with 0 by lia. simpl.
      apply filter_none_seq. intros k Hk.
      unfold local_minimum. fold start. rewrite Hlen.
      replace (start <=? k) with false by (symmetry; apply Nat.leb_gt; lia).
      replace (k + 1 =? Datatypes.S last) with false
        by (symmetry; apply Nat.eqb_neq; lia).
      done.
  - simpl. unfold local_minimum. fold start. rewrite Hlen.
    replace (last + 2 <=? Datatypes.S last) with false
      by (symmetry; apply Nat.leb_gt; lia).
    replace (last + 1 =? Datatypes.S last) with true
      by (symmetry; apply Nat.eqb_eq; lia).
    rewrite andb_false_r. simpl. done.
Qed.

Lemma coalesce_kept (candidates : list (nat * Q)) (back : nat * Q) :
  last candidates = Some back ->
  coalesce candidates = kept_before_last candidates ++ [back].
Proof.
  induction candidates as [|this rest IH]; [done|].
  destruct rest as [|next rest'].
  - by intros [= ->].
  - intros Hback. change (last (next :: rest') = Some back) in Hback.
    specialize (IH Hback). simpl in *.
    destruct (skipped this next); [done|]. by rewrite IH.
Qed.

Lemma coalesce_loop (pre suf acc : list (nat * Q)) :
  foldM (coalesce_body (pre ++ suf)) (seq (length pre) (length suf - 1)) acc
  = Ok (acc ++ kept_before_last suf).
Proof.
  revert pre acc. induction suf as [|this rest IH]; intros pre acc.
  - simpl. by rewrite app_nil_r.
  - destruct rest as [|next rest'].
    + simpl. by rewrite app_nil_r.
    + replace (length (this :: next :: rest') - 1)
        with (Datatypes.S (length (next :: rest') - 1)) by (simpl; lia).
      simpl seq. cbn [foldM]. unfold coalesce_body at 1.
      assert (Hnext : (pre ++ this :: next :: rest') !! (length pre + 1)
                      = Some next).
      { rewrite lookup_app_r by lia.
        replace (length pre + 1 - length pre) with 1 by lia. done. }
      assert (Hthis : (pre ++ this :: next :: rest') !! length pre = Some this).
      { rewrite lookup_app_r by lia. by rewrite Nat.sub_diag. }
      apply at_Ok in Hnext, Hthis. rewrite Hnext, Hthis. simpl bind.
      replace (pre ++ this :: next :: rest')
        with ((pre ++ [this]) ++ next :: rest') by (by rewrite <- app_assoc).
      replace (Datatypes.S (length pre)) with (length (pre ++ [this]))
        by (rewrite length_app; simpl; lia).
      rewrite IH. cbn [kept_before_last]. fold (skipped this next).
      destruct (skipped this next); [done|].
      by rewrite <- app_assoc.
Qed.

Lemma searchDecelTargetIndices_spec (trajectory : Trajectory)
  (closest_index : nat) :
  2 <= length (points trajectory) ->
  searchDecelTargetIndices trajectory closest_index []
  = Ok (spec_decel_targets (points trajectory) closest_index).
Proof.
  intros Hlen. unfold searchDecelTargetIndices, spec_decel_targets.
  destruct (length (points trajectory)) as [|last] eqn:Elen; [lia|].
  rewrite (local_minima_split _ _ last Elen).
  set (start := Nat.max 1 closest_index).
  assert (Htmp : for_range start last (search_body (points trajectory)) []
                 = Ok (map (target_of (points trajectory))
                         (List.filter
                            (fun k => decreases_into (points trajectory) k
                                      && not_decreasing_after
                                           (points trajectory) k)
                            (seq start (last - start))))).
  { destruct (le_lt_dec start last) as [Hs|Hs].
    - apply search_loop; unfold start; lia.
    - unfold for_range. replace (last - start) with 0 by lia. done. }
  rewrite Htmp. simpl bind.
  rewrite search_last_spec by lia. simpl bind.
  rewrite <- map_app.
  set (tmp := map _ (_ ++ _)).
  destruct tmp as [|c tmp'] eqn:Etmp; [done|].
  rewrite <- Etmp.
  assert (Hne : length tmp - 1 < length tmp) by (rewrite Etmp; simpl; lia).
  destruct (at_lt tmp (length tmp - 1) Hne) as (back & Hat & Hback).
  unfold for_range. rewrite Nat.sub_0_r.
  pose proof (coalesce_loop [] tmp []) as Hloop. simpl in Hloop.
  rewrite Hloop. simpl bind. rewrite Hat. simpl.
  rewrite (coalesce_kept tmp back); [done|].
  rewrite last_lookup. rewrite <- Hback. f_equal. lia.
Qed.

(** ** applyBackwardDecelFilter does not throw *)

Lemma calcEnoughDistForDecel_total (trajectory : Trajectory)
  (start_index : nat) (decel_target_vel planning_jerk : Q) (params : Param)
  (dist_to_target : list Q) :
  start_index < length (points trajectory) ->
  start_index < length dist_to_target ->
  exists r,
    calcEnoughDistForDecel trajectory start_index decel_target_vel
      planning_jerk params dist_to_target = Ok r.
Proof.
  intros Hp Hd. unfold calcEnoughDistForDecel.
  destruct (at_lt _ _ Hp) as (p & -> & _). simpl.
  destruct (calcStopDistWithJerkAndAccConstraints _ _ _ _ _ _)
    as [ok [[type times] stop_dist]].
  destruct ok; simpl; [|eauto].
  destruct (at_lt _ _ Hd) as (d & -> & _). simpl.
  destruct (_ && _); eauto.
Qed.

Lemma calcEnoughDistForDecel_index (trajectory : Trajectory)
  (start_index : nat) (decel_target_vel planning_jerk : Q) (params : Param)
  (dist_to_target : list Q) (r : bool * (Z * list Q)) :
  calcEnoughDistForDecel trajectory start_index decel_target_vel
    planning_jerk params dist_to_target = Ok r ->
  start_index < length (points trajectory).
Proof.
  unfold calcEnoughDistForDecel. rewrite bind_Ok.
  intros (p & Hp & _). apply at_Ok in Hp. by eapply lookup_lt_Some.
Qed.

(** *** Results that do not throw *)

Lemma no_throw_bind {A B : Type} (P : A -> Prop) (Q : B -> Prop)
  (c : result A) (k : A -> result B) :
  no_throw P c -> (forall a, P a -> no_throw Q (k a)) ->
  no_throw Q (bind c k).
Proof. destruct c as [a|[| |]]; simpl; auto. Qed.

Lemma no_throw_cases {A : Type} (P : A -> Prop) (c : result A) :
  no_throw P c -> (exists a, c = Ok a /\ P a) \/ c = Fail timeout.
Proof. destruct c as [a|[| |]]; simpl; intros H; eauto; done. Qed.

(** The scan of the planning jerks reads inside the vectors; it ends
    with a result or goes on for ever. *)
Lemma scan_jerk_outcome (fuel : nat) (trajectory : Trajectory)
  (start_index : nat) (decel_target_vel : Q) (params : Param)
  (dist_to_target : list Q) (planning_jerk : Q) (out : Z * list Q) :
  start_index < length (points trajectory) ->
  start_index < length dist_to_target ->
  no_throw (fun _ => True)
    (scan_jerk fuel trajectory start_index decel_target_vel params
       dist_to_target planning_jerk out).
Proof.
  intros Hp Hd. revert planning_jerk out.
  induction fuel as [|fuel IH]; intros planning_jerk out; [done|].
  cbn [scan_jerk]. destruct (Qltb _ planning_jerk); [|done].
  destruct (calcEnoughDistForDecel_total trajectory start_index
              decel_target_vel planning_jerk params dist_to_target Hp Hd)
    as ([ok out'] & ->).
  cbn [bind]. destruct ok; [done|]. apply IH.
Qed.

(** A scan that reports enough distance has just seen
    [calcEnoughDistForDecel] return [true] at the jerk it reports. *)
Lemma scan_jerk_found (fuel : nat) (trajectory : Trajectory)
  (start_index : nat) (decel_target_vel : Q) (params : Param)
  (dist_to_target : list Q) (planning_jerk : Q) (out : Z * list Q)
  (found : Q) (out' : Z * list Q) :
  scan_jerk fuel trajectory start_index decel_target_vel params
    dist_to_target planning_jerk out = Ok (true, found, out') ->
  calcEnoughDistForDecel trajectory start_index decel_target_vel found
    params dist_to_target = Ok (true, out').
Proof.
  revert planning_jerk out.
  induction fuel as [|fuel IH]; intros planning_jerk out; [done|].
  simpl. destruct (Qltb _ planning_jerk); [|done].
  destruct (calcEnoughDistForDecel _ _ _ planning_jerk _ _)
    as [[ok o]|e] eqn:E; simpl; [|done].
  destruct ok.
  - intros [= <- <-]. done.
  - apply IH.
Qed.

Lemma advance_start_index_total (n i : nat) (pts : list TrajectoryPoint)
  (decel_target_vel : Q) (start_index : nat) :
  i + n <= length pts ->
  exists r,
    advance_start_index n i pts decel_target_vel start_index = Ok r
    /\ (r = start_index \/ i <= r < i + n).
Proof.
  revert i. induction n as [|n IH]; intros i Hle; simpl.
  - eauto.
  - destruct (at_lt pts i) as (p & -> & _); [lia|]. simpl.
    destruct (Qleb _ _).
    + exists i. split; [done|]. right. lia.
    + destruct (IH (Datatypes.S i)) as (r & -> & Hr); [lia|].
      exists r. split; [done|]. destruct Hr; [by left|right; lia].
Qed.

Lemma dist_loop_total (pts : list TrajectoryPoint) (lo hi : nat)
  (dist : Q) (dist_to_target : list Q) :
  hi < length pts -> length dist_to_target = length pts ->
  exists st,
    foldM (dist_body pts) (rev (seq (Datatypes.S lo) (hi - lo)))
      (dist, dist_to_target) = Ok st
    /\ length st.2 = length pts.
Proof.
  intros Hhi Hlen.
  apply (foldM_total (fun st => length st.2 = length pts)); [|done].
  intros i [d l] Hi Hl. simpl in Hl.
  apply list_elem_of_In in Hi. rewrite <- in_rev in Hi. apply in_seq in Hi.
  unfold dist_body.
  destruct (at_lt pts (i - 1)) as (pp & -> & _); [lia|].
  destruct (at_lt pts i) as (p & -> & _); [lia|].
  simpl. unfold set_at.
  destruct (at_lt l (i - 1)) as (x & -> & _); [lia|].
  simpl. eexists. split; [done|]. simpl. by rewrite length_insert.
Qed.

Lemma plan_body_outcome (fuel : nat) (decel_target_index : nat)
  (decel_target_vel : Q) (params : Param) (trajectory : Trajectory)
  (start_index : nat) (plan : DecelPlan) :
  start_index < length (points trajectory) ->
  decel_target_index < length (points trajectory) ->
  plan_valid trajectory decel_target_vel params plan ->
  no_throw (plan_valid trajectory decel_target_vel params)
    (plan_body fuel decel_target_index decel_target_vel params trajectory
       start_index plan).
Proof.
  intros Hs Ht Hplan. unfold plan_body.
  set (n := length (points trajectory)) in *.
  unfold set_at at 1.
  destruct (at_lt (repeat 0%Q n) decel_target_index) as (z & -> & _);
    [by rewrite repeat_length|].
  simpl bind.
  destruct (advance_start_index_total (decel_target_index - start_index)
              start_index (points trajectory) decel_target_vel start_index)
    as (r & -> & Hr); [fold n; lia|].
  simpl bind.
  assert (Hrn : r < n) by (destruct Hr; lia).
  destruct (dist_loop_total (points trajectory) r decel_target_index 0%Q
              (<[decel_target_index := 0%Q]> (repeat 0%Q n)))
    as ([dist dist_to_target] & -> & Hlen);
    [done|by rewrite length_insert, repeat_length|].
  simpl in Hlen. simpl bind.
  pose proof (scan_jerk_outcome fuel trajectory r decel_target_vel params
                dist_to_target (Backward.start_jerk (backward params))
                (0%Z, []) Hrn ltac:(by rewrite Hlen)) as Hscan.
  destruct (scan_jerk _ _ _ _ _ _ _ _)
    as [[[is_enough planning_jerk] [type times]]|[| |]] eqn:Escan;
    try done.
  simpl. destruct is_enough; simpl; [|done].
  destruct (Qleb _ planning_jerk); [|done].
  right. simpl. split; [done|].
  exists (type, times). by eapply scan_jerk_found.
Qed.

Lemma plan_loop_outcome (fuel : nat) (decel_target_index : nat)
  (decel_target_vel : Q) (params : Param) (trajectory : Trajectory)
  (start_indices : list nat) (plan : DecelPlan) :
  Forall (fun i => i < length (points trajectory)) start_indices ->
  decel_target_index < length (points trajectory) ->
  plan_valid trajectory decel_target_vel params plan ->
  no_throw (plan_valid trajectory decel_target_vel params)
    (plan_loop fuel decel_target_index decel_target_vel params trajectory
       start_indices plan).
Proof.
  intros Hs Ht. revert plan.
  induction Hs as [|i rest Hi Hrest IH]; intros plan Hplan; simpl.
  - done.
  - eapply no_throw_bind.
    + by apply plan_body_outcome.
    + intros plan1 Hplan1. by apply IH.
Qed.

(** The search for the latest start index ends at [output_start_index]
    at the latest, where the distance was already found to be enough. *)
Lemma search_decel_start_total (trajectory : Trajectory)
  (decel_target_vel : Q) (params : Param) (plan : DecelPlan) (i : nat)
  (out : Z * list Q) :
  length (output_dist_to_target plan) = length (points trajectory) ->
  (exists o,
     calcEnoughDistForDecel trajectory (output_start_index plan)
       decel_target_vel (output_planning_jerk plan) params
       (output_dist_to_target plan) = Ok (true, o)) ->
  i < length (points trajectory) ->
  exists r,
    search_decel_start trajectory decel_target_vel params plan i out = Ok r
    /\ r.1 < length (points trajectory).
Proof.
  intros Hlen [o Ho]. revert out.
  pose proof (calcEnoughDistForDecel_index _ _ _ _ _ _ _ Ho) as Hosi.
  induction i as [|i IH]; intros out Hi.
  - simpl. destruct (0 <? output_start_index plan) eqn:E; [eauto|].
    apply Nat.ltb_ge in E.
    replace (output_start_index plan) with 0 in Ho by lia.
    rewrite Ho. simpl. eauto.
  - cbn [search_decel_start].
    destruct (Datatypes.S i <? output_start_index plan) eqn:E; [eauto|].
    apply Nat.ltb_ge in E.
    destruct (calcEnoughDistForDecel_total trajectory (Datatypes.S i)
                decel_target_vel (output_planning_jerk plan) params
                (output_dist_to_target plan)) as ([ok out'] & Hcall);
      [done|by rewrite Hlen|].
    rewrite Hcall. simpl. destruct ok; [eauto|].
    destruct (decide (Datatypes.S i = output_start_index plan)) as [Heq|Hne].
    + rewrite Heq in Hcall. congruence.
    + apply IH. lia.
Qed.

(** The helper that writes the deceleration profile keeps the number of
    points. *)
Hypothesis calcStopVelocity_length :
  forall v0 a0 jerk_acc jerk_dec min_acc target_vel type times start_index
         trajectory,
    length (points (calcStopVelocityWithConstantJerkAccLimit v0 a0 jerk_acc
                      jerk_dec min_acc target_vel type times start_index
                      trajectory).2)
    = length (points trajectory).

Lemma applyBackwardDecelFilter_outcome (fuel : nat)
  (start_indices : list nat) (decel_target_index : nat)
  (decel_target_vel : Q) (params : Param) (trajectory : Trajectory) :
  Forall (fun i => i < length (points trajectory)) start_indices ->
  1 <= decel_target_index < length (points trajectory) ->
  no_throw
    (fun r => length (points r.2) = length (points trajectory))
    (applyBackwardDecelFilter fuel start_indices decel_target_index
       decel_target_vel params trajectory).
Proof.
  intros Hs Ht. unfold applyBackwardDecelFilter.
  eapply no_throw_bind.
  { apply plan_loop_outcome; [done|lia|by left]. }
  intros plan Hplan. cbv beta.
  destruct (Qeqb (output_planning_jerk plan) (- 100)) eqn:Esentinel;
    [done|].
  destruct Hplan as [Hplan|[Hlen Henough]]; [congruence|].
  assert (Hstart : exists r,
             (if Qeqb (output_planning_jerk plan)
                   (Backward.start_jerk (backward params))
              then
                match decel_target_index with
                | O => Fail out_of_range
                | Datatypes.S i =>
                    search_decel_start trajectory decel_target_vel params
                      plan i (output_type plan, output_times plan)
                end
              else Ok (output_start_index plan,
                       (output_type plan, output_times plan))) = Ok r
             /\ r.1 < length (points trajectory)).
  { destruct (Qeqb (output_planning_jerk plan)
                (Backward.start_jerk (backward params))).
    - destruct decel_target_index as [|i]; [lia|].
      apply search_decel_start_total; [done|done|lia].
    - eexists. split; [done|]. simpl.
      destruct Henough as [o Ho].
      by eapply calcEnoughDistForDecel_index. }
  destruct Hstart as ([decel_start_index [type times]] & -> & Hdsi).
  simpl in Hdsi. simpl bind. unfold applyDecelVelocityFilter.
  destruct (at_lt _ _ Hdsi) as (p & -> & _). simpl bind.
  destruct (calcStopVelocityWithConstantJerkAccLimit _ _ _ _ _ _ _ _ _ _)
    as [ok trajectory'] eqn:E.
  simpl.
  pose proof (calcStopVelocity_length (twist_linear_x p) (accel_linear_x p)
                (std_abs (output_planning_jerk plan))
                (output_planning_jerk plan)
                (calcMinAcc params (output_planning_jerk plan))
                decel_target_vel type times decel_start_index trajectory)
    as Hl.
  by rewrite E in Hl.
Qed.

(** ** apply does not throw *)

Lemma applyMaxVelocity_total (max_velocity : Q) (start_index end_index : nat)
  (t : Trajectory) :
  end_index < length (points t) ->
  exists b t',
    applyMaxVelocity max_velocity start_index end_index t = Ok (b, t')
    /\ length (points t') = length (points t).
Proof.
  intros Hend. destruct (le_lt_dec start_index end_index) as [Hle|Hlt].
  - destruct (applyMaxVelocity_inside max_velocity start_index end_index t)
      as (pts' & -> & Hlen & _); [done|done|].
    by exists true, (set_points t pts').
  - unfold applyMaxVelocity.
    replace (end_index <? start_index) with true
      by (symmetry; apply Nat.ltb_lt; lia).
    simpl. by exists false, t.
Qed.

Lemma applyForwardJerkFilter_total (base : Trajectory) (start_index : nat)
  (initial_vel initial_acc : Q) (params : Param) (output : Trajectory) :
  start_index < length (points output) ->
  length (points base) = length (points output) ->
  exists output',
    applyForwardJerkFilter base start_index initial_vel initial_acc params
      output = Ok output'
    /\ length (points output') = length (points output).
Proof.
  intros Hs Hlen.
  destruct (applyForwardJerkFilter_spec base start_index initial_vel
              initial_acc params output) as (out' & -> & Hlen' & _);
    [done|lia|].
  by exists (set_points output out').
Qed.

Lemma targets_within_lookup (n : nat) (targets : list (nat * Q)) (i : nat)
  (t : nat * Q) :
  targets_within n targets -> targets !! i = Some t -> 1 <= t.1 < n.
Proof.
  intros Hw Ht. unfold targets_within in Hw.
  rewrite Forall_forall in Hw. apply Hw.
  by eapply list_elem_of_lookup_2.
Qed.

Lemma search_bwd_start_total (targets : list (nat * Q))
  (filtered : Trajectory) (initial_vel initial_acc : Q) (j : nat) :
  targets_within (length (points filtered)) targets ->
  1 <= length (points filtered) -> j < length targets ->
  exists bwd_start_index bwd_start_vel bwd_start_acc,
    search_bwd_start targets filtered initial_vel initial_acc j
    = Ok (bwd_start_index, bwd_start_vel, bwd_start_acc)
    /\ bwd_start_index < length (points filtered)
    /\ (bwd_start_index = closest_index
        \/ exists j' t, j' < j /\ targets !! j' = Some t
                        /\ bwd_start_index = t.1).
Proof.
  intros Hw Hn. induction j as [|j IH]; intros Hj; simpl.
  - exists closest_index, initial_vel, initial_acc.
    split; [done|]. split; [unfold closest_index; lia|by left].
  - destruct (at_lt targets j) as (before & -> & Hbefore); [lia|].
    destruct (at_lt targets (Datatypes.S j)) as (this & -> & _); [lia|].
    simpl. destruct (Qltb before.2 this.2).
    + pose proof (targets_within_lookup _ _ _ _ Hw Hbefore) as Hb.
      destruct (at_lt (points filtered) before.1) as (p & -> & _); [lia|].
      simpl. eexists _, _, _. split; [done|]. split; [lia|].
      right. exists j, before. split; [lia|done].
    + destruct IH as (b & v & a & -> & Hb & Hor); [lia|].
      exists b, v, a. split; [done|]. split; [done|].
      destruct Hor as [->|(j' & t & ? & ? & ?)]; [by left|].
      right. exists j', t. split; [lia|done].
Qed.

Lemma round_backward_outcome (fuel : nat) (initial_vel initial_acc : Q)
  (targets : list (nat * Q)) (i n : nat) (reference filtered : Trajectory) :
  1 <= n -> length (points reference) = n -> length (points filtered) = n ->
  targets_within n targets -> i < length targets ->
  no_throw
    (fun r =>
       let '(bwd_start_index, _, _, target, _, filtered') := r in
       bwd_start_index < n
       /\ targets !! i = Some target
       /\ length (points filtered') = n)
    (round_backward fuel initial_vel initial_acc targets i reference
       filtered).
Proof.
  intros Hn Hr Hf Hw Hi. unfold round_backward.
  assert (Hfwd : exists fwd,
             match i with
             | O => Ok (closest_index, initial_vel, initial_acc)
             | Datatypes.S i' =>
                 let* before := at_ targets i' in
                 let* p := at_ (points filtered) before.1 in
                 Ok (before.1, twist_linear_x p, accel_linear_x p)
             end = Ok fwd /\ fwd.1.1 < n).
  { destruct i as [|i'].
    - eexists. split; [done|]. simpl. unfold closest_index. lia.
    - destruct (at_lt targets i') as (before & -> & Hbefore); [lia|].
      pose proof (targets_within_lookup _ _ _ _ Hw Hbefore) as Hb.
      cbn [bind].
      destruct (at_lt (points filtered) before.1) as (p & -> & _); [lia|].
      simpl. eexists. split; [done|]. simpl. lia. }
  destruct Hfwd as ([[fwd_start_index fwd_vel] fwd_acc] & -> & Hfwd).
  simpl in Hfwd. simpl bind.
  destruct (applyForwardJerkFilter_total reference fwd_start_index fwd_vel
              fwd_acc smoother_param_ filtered) as (filtered1 & -> & Hf1);
    [lia|lia|].
  simpl bind.
  destruct (search_bwd_start_total targets filtered1 initial_vel
              initial_acc i)
    as (bwd & bv & ba & -> & Hbwd & Hor); [by rewrite Hf1, Hf|lia|done|].
  simpl bind.
  destruct (at_lt targets i Hi) as (target & -> & Htarget). simpl bind.
  pose proof (targets_within_lookup _ _ _ _ Hw Htarget) as Ht.
  eapply no_throw_bind.
  { apply (applyBackwardDecelFilter_outcome fuel
             (if negb (bwd =? fwd_start_index)
              then [bwd; fwd_start_index] else [bwd])
             target.1 target.2 smoother_param_ filtered1); [|lia].
    destruct (negb _); repeat constructor; lia. }
  intros [ok filtered2] Hf2. simpl in Hf2. simpl.
  split; [lia|]. split; [done|lia].
Qed.

Lemma round_fallback_total (bwd_start_index : nat)
  (bwd_start_vel bwd_start_acc : Q) (target : nat * Q) (n : nat)
  (reference filtered : Trajectory) :
  1 <= n -> length (points reference) = n -> length (points filtered) = n ->
  bwd_start_index < n -> target.1 < n ->
  exists r,
    round_fallback bwd_start_index bwd_start_vel bwd_start_acc target
      reference filtered = Ok r
    /\ round_within n r.
Proof.
  intros Hn Hr Hf Hb Ht. unfold round_fallback.
  destruct (Qltb (std_abs target.2) 0.001).
  - destruct (applyMaxVelocity_total 0 bwd_start_index
                (length (points filtered) - 1) filtered)
      as (b & filtered' & -> & Hlen); [lia|].
    simpl. eexists. split; [done|]. simpl. lia.
  - destruct (applyMaxVelocity_total target.2 bwd_start_index target.1
                reference) as (b & reference' & -> & Hlen); [lia|].
    simpl bind.
    destruct (applyForwardJerkFilter_total reference' bwd_start_index
                bwd_start_vel bwd_start_acc smoother_param_ filtered)
      as (filtered' & -> & Hlen'); [lia|lia|].
    simpl. eexists. split; [done|]. simpl. lia.
Qed.

Lemma apply_round_outcome (fuel : nat) (initial_vel initial_acc : Q)
  (targets : list (nat * Q)) (i n : nat) (reference filtered : Trajectory) :
  1 <= n -> length (points reference) = n -> length (points filtered) = n ->
  targets_within n targets -> i < length targets ->
  no_throw (round_within n)
    (apply_round fuel initial_vel initial_acc targets i reference filtered).
Proof.
  intros Hn Hr Hf Hw Hi. unfold apply_round.
  eapply no_throw_bind.
  { by apply (round_backward_outcome fuel initial_vel initial_acc targets i
                n reference filtered). }
  intros [[[[[bwd bv] ba] target] ok] filtered'] (Hb & Ht & Hf').
  cbv beta iota. destruct ok; cbn [negb].
  - simpl. done.
  - destruct (round_fallback_total bwd bv ba target n reference filtered')
      as (r & -> & Hwithin); try done.
    pose proof (targets_within_lookup _ _ _ _ Hw Ht). lia.
Qed.

Lemma apply_rounds_outcome (fuel : nat) (initial_vel initial_acc : Q)
  (targets : list (nat * Q)) (rest : list nat) (n : nat)
  (reference filtered : Trajectory) :
  1 <= n -> length (points reference) = n -> length (points filtered) = n ->
  targets_within n targets ->
  Forall (fun i => i < length targets) rest ->
  no_throw (round_within n)
    (apply_rounds fuel initial_vel initial_acc targets rest reference
       filtered).
Proof.
  intros Hn Hr Hf Hw Hrest. revert reference filtered Hr Hf.
  induction Hrest as [|i rest Hi Hrest IH]; intros reference filtered Hr Hf.
  - simpl. done.
  - cbn [apply_rounds]. eapply no_throw_bind.
    { by apply (apply_round_outcome fuel initial_vel initial_acc targets i
                  n reference filtered). }
    intros [output|reference' filtered'] Hwithin; simpl in Hwithin.
    + done.
    + destruct Hwithin. by apply IH.
Qed.

(** ** The fallback of apply *)

Lemma applyBackwardDecelFilter_length (fuel : nat) (start_indices : list nat)
  (decel_target_index : nat) (decel_target_vel : Q) (params : Param)
  (trajectory : Trajectory) (ok : bool) (trajectory' : Trajectory) :
  applyBackwardDecelFilter fuel start_indices decel_target_index
    decel_target_vel params trajectory = Ok (ok, trajectory') ->
  length (points trajectory') = length (points trajectory).
Proof.
  unfold applyBackwardDecelFilter. rewrite bind_Ok.
  intros (plan & _ & H). destruct (Qeqb _ (- 100)).
  - by intros; simplify_eq.
  - rewrite bind_Ok in H.
    destruct H as ([decel_start_index [type times]] & _ & H).
    rewrite bind_Ok in H. destruct H as ([ok' t'] & H & Heq).
    simplify_eq. unfold applyDecelVelocityFilter in H.
    rewrite bind_Ok in H. destruct H as (p & _ & H). simplify_eq.
    pose proof (calcStopVelocity_length (twist_linear_x p) (accel_linear_x p)
                  (std_abs (output_planning_jerk plan))
                  (output_planning_jerk plan)
                  (calcMinAcc params (output_planning_jerk plan))
                  decel_target_vel type times decel_start_index trajectory)
      as Hl.
    by rewrite H in Hl.
Qed.

Lemma applyForwardJerkFilter_length (base : Trajectory) (start_index : nat)
  (initial_vel initial_acc : Q) (params : Param)
  (output output' : Trajectory) :
  applyForwardJerkFilter base start_index initial_vel initial_acc params
    output = Ok output' ->
  length (points output') = length (points output).
Proof.
  unfold applyForwardJerkFilter. rewrite bind_Ok.
  intros (o & _ & H). rewrite bind_Ok in H.
  destruct H as (out2 & Hloop & [= <-]). simpl.
  unfold for_range in Hloop.
  apply (foldM_invariant
           (fun out => length out = length (points output))) in Hloop.
  - done.
  - intros i t t' _ Ht Hbody. unfold forward_body in Hbody.
    repeat (apply bind_Ok in Hbody; destruct Hbody as (? & _ & Hbody)).
    injection Hbody as <-. by rewrite length_insert.
  - by rewrite length_insert.
Qed.

(** What the first half of a round hands to the fallback. *)
Lemma round_backward_inv (fuel : nat) (initial_vel initial_acc : Q)
  (targets : list (nat * Q)) (i n : nat) (reference filtered : Trajectory)
  (bwd_start_index : nat) (bwd_start_vel bwd_start_acc : Q)
  (target : nat * Q) (ok : bool) (filtered' : Trajectory) :
  1 <= n -> length (points filtered) = n ->
  targets_within n targets -> StronglySorted index_lt targets ->
  round_backward fuel initial_vel initial_acc targets i reference filtered
  = Ok (bwd_start_index, bwd_start_vel, bwd_start_acc, target, ok, filtered') ->
  targets !! i = Some target
  /\ bwd_start_index <= target.1 /\ target.1 < n
  /\ length (points filtered') = n.
Proof.
  intros Hn Hf Hw Hsorted. unfold round_backward. rewrite bind_Ok.
  intros ([[fwd_start_index fwd_vel] fwd_acc] & _ & H).
  rewrite bind_Ok in H. destruct H as (filtered1 & Hfwd & H).
  apply applyForwardJerkFilter_length in Hfwd.
  rewrite bind_Ok in H. destruct H as ([[bwd bv] ba] & Hbwd & H).
  rewrite bind_Ok in H. destruct H as (target' & Htarget & H).
  rewrite bind_Ok in H. destruct H as ([ok' filtered2] & Hback & Heq).
  simplify_eq. apply at_Ok in Htarget.
  apply applyBackwardDecelFilter_length in Hback.
  pose proof (targets_within_lookup _ _ _ _ Hw Htarget) as Ht.
  split; [done|]. split; [|split; [lia|lia]].
  destruct (search_bwd_start_total targets filtered1 initial_vel
              initial_acc i) as (b & v & a & Hb & _ & Hor);
    [by rewrite Hfwd|lia|by eapply lookup_lt_Some|].
  rewrite Hbwd in Hb. simplify_eq.
  destruct Hor as [->|(j' & t & Hj' & Ht' & ->)];
    [unfold closest_index; lia|].
  apply list_elem_of_split_length in Htarget
    as (l1 & l2 & -> & Hl1).
  rewrite lookup_app_l in Ht' by lia.
  apply StronglySorted_app in Hsorted as (Hall & _ & _).
  assert (index_lt t target); [|unfold index_lt in *; lia].
  apply Hall; [by eapply list_elem_of_lookup_2|by left].
Qed.

(** ** Reading back what was written *)

Lemma accel_linear_x_set (p : TrajectoryPoint) (a : Q) :
  accel_linear_x (set_accel_linear_x p a) = a.
Proof. done. Qed.

Lemma twist_linear_x_set (p : TrajectoryPoint) (v a : Q) :
  twist_linear_x (set_accel_linear_x (set_twist_linear_x p v) a) = v.
Proof. done. Qed.

(** ** The targets of [searchDecelTargetIndices] point into the trajectory *)

Lemma coalesce_subset (candidates : list (nat * Q)) (t : nat * Q) :
  t ∈ coalesce candidates -> t ∈ candidates.
Proof.
  induction candidates as [|this rest IH]; [done|].
  destruct rest as [|next rest'].
  - done.
  - cbn [coalesce]. destruct (skipped this next).
    + intros H. right. by apply IH.
    + intros [->|H]%elem_of_cons; [by left|]. right. by apply IH.
Qed.

Lemma decreases_into_first (pts : list TrajectoryPoint) :
  decreases_into pts 0 = false.
Proof.
  unfold decreases_into. apply Qltb_ge. simpl (0 - 1).
  unfold search_ep. set (v := velocity_at pts 0).
  assert ((v - v == 0)%Q) by ring. lra.
Qed.

Lemma local_minimum_within (pts : list TrajectoryPoint)
  (closest_index i : nat) :
  local_minimum pts closest_index i = true -> 1 <= i < length pts.
Proof.
  unfold local_minimum. intros H.
  apply orb_true_iff in H as [H|H].
  - rewrite !andb_true_iff in H. destruct H as [[[H1 H2] _] _].
    apply Nat.leb_le in H1, H2. lia.
  - rewrite andb_true_iff in H. destruct H as [H1 H2].
    apply Nat.eqb_eq in H1. destruct i as [|i]; [|lia].
    by rewrite decreases_into_first in H2.
Qed.

Lemma spec_decel_targets_within (pts : list TrajectoryPoint)
  (closest_index : nat) :
  targets_within (length pts) (spec_decel_targets pts closest_index).
Proof.
  unfold targets_within, spec_decel_targets. apply Forall_forall.
  intros t Ht%coalesce_subset.
  apply list_elem_of_In, in_map_iff in Ht as (i & <- & Hi).
  unfold local_minima in Hi.
  apply List.filter_In in Hi as [_ Hi]. simpl.
  by eapply local_minimum_within.
Qed.

(** [apply] throws on no input: on a non-empty one it returns [true]
    with an output of as many points, or a jerk scan goes on for
    ever. *)
Lemma apply_outcome (fuel : nat) (initial_vel initial_acc : Q)
  (input output : Trajectory) :
  points input <> [] ->
  no_throw
    (fun r => r.1 = true /\ length (points r.2) = length (points input))
    (apply fuel initial_vel initial_acc input output).
Proof.
  intros Hne. unfold apply.
  destruct (points input) as [|p0 [|p1 rest]] eqn:Epts; [done| |].
  - simpl. done.
  - assert (Hn : 2 <= length (points input)) by (rewrite Epts; simpl; lia).
    rewrite <- Epts. clear Epts Hne p0 p1 rest.
    rewrite searchDecelTargetIndices_spec by done.
    simpl bind.
    set (targets := spec_decel_targets (points input) closest_index).
    assert (Hw : targets_within (length (points input)) targets)
      by apply spec_decel_targets_within.
    eapply no_throw_bind.
    { apply (apply_rounds_outcome fuel initial_vel initial_acc targets
               (seq 0 (length targets)) (length (points input)) input
               input); try done; try lia.
      apply Forall_forall. intros i Hi%elem_of_seq. lia. }
    intros [out|reference filtered] Hr; simpl in Hr.
    + simpl. done.
    + destruct Hr as [Href Hfilt].
      assert (Hstart : exists start,
                 match targets with
                 | [] => Ok (closest_index, initial_vel, initial_acc)
                 | _ :: _ =>
                     let* back := at_ targets (length targets - 1) in
                     let* p := at_ (points filtered) back.1 in
                     Ok (back.1, twist_linear_x p, accel_linear_x p)
                 end = Ok start /\ start.1.1 < length (points input)).
      { destruct targets as [|t targets'] eqn:Et.
        - eexists. split; [done|]. simpl. unfold closest_index. lia.
        - rewrite <- Et in *.
          destruct (at_lt targets (length targets - 1))
            as (back & -> & Hback); [rewrite Et; simpl; lia|].
          pose proof (targets_within_lookup _ _ _ _ Hw Hback).
          cbn [bind].
          destruct (at_lt (points filtered) back.1) as (p & -> & _); [lia|].
          simpl. eexists. split; [done|]. simpl. lia. }
      destruct Hstart as ([[start_index start_vel] start_acc] & -> & Hs).
      simpl in Hs. simpl bind.
      destruct (applyForwardJerkFilter_total reference start_index start_vel
                  start_acc smoother_param_ filtered)
        as (filtered' & -> & Hlen); [lia|lia|].
      simpl. split; [done|lia].
Qed.

Lemma seq_sorted (a n : nat) : StronglySorted lt (seq a n).
Proof.
  revert a. induction n as [|n IH]; intros a; [constructor|].
  cbn [seq]. apply StronglySorted_cons. split; [|apply IH].
  apply Forall_forall. intros x Hx%elem_of_seq. lia.
Qed.

Lemma filter_sorted (f : nat -> bool) (l : list nat) :
  StronglySorted lt l -> StronglySorted lt (List.filter f l).
Proof.
  induction l as [|a l IH]; intros Hs; [constructor|].
  apply StronglySorted_cons in Hs as [Hall Hs]. cbn [List.filter].
  destruct (f a); [|by apply IH].
  apply StronglySorted_cons. split; [|by apply IH].
  apply Forall_forall. intros x Hx%list_elem_of_In%List.filter_In.
  rewrite Forall_forall in Hall. apply Hall.
  apply list_elem_of_In. tauto.
Qed.

Lemma map_target_sorted (pts : list TrajectoryPoint) (l : list nat) :
  StronglySorted lt l -> StronglySorted index_lt (map (target_of pts) l).
Proof.
  induction l as [|a l IH]; intros Hs; [constructor|].
  apply StronglySorted_cons in Hs as [Hall Hs]. cbn [map].
  apply StronglySorted_cons. split; [|by apply IH].
  apply Forall_forall. intros t Ht%list_elem_of_In%in_map_iff.
  destruct Ht as (i & <- & Hi). unfold index_lt, target_of. simpl.
  rewrite Forall_forall in Hall. apply Hall. by apply list_elem_of_In.
Qed.

Lemma coalesce_sorted (candidates : list (nat * Q)) :
  StronglySorted index_lt candidates ->
  StronglySorted index_lt (coalesce candidates).
Proof.
  induction candidates as [|this rest IH]; intros Hs; [constructor|].
  apply StronglySorted_cons in Hs as [Hall Hs].
  destruct rest as [|next rest'].
  - repeat constructor.
  - assert (Hunfold : coalesce (this :: next :: rest')
                      = if skipped this next then coalesce (next :: rest')
                        else this :: coalesce (next :: rest'))
      by reflexivity.
    rewrite Hunfold. destruct (skipped this next); [by apply IH|].
    apply StronglySorted_cons. split; [|by apply IH].
    apply Forall_forall. intros t Ht%coalesce_subset.
    rewrite Forall_forall in Hall. by apply Hall.
Qed.

(** The targets come in the order of their indices. *)
Lemma spec_decel_targets_sorted (pts : list TrajectoryPoint)
  (closest_index : nat) :
  StronglySorted index_lt (spec_decel_targets pts closest_index).
Proof.
  unfold spec_decel_targets, local_minima.
  apply coalesce_sorted, map_target_sorted, filter_sorted, seq_sorted.
Qed.

(** ** The claims about [apply] and its filters *)

(** C4.  On a trajectory of at least two points,
    [searchDecelTargetIndices] returns exactly the local minima of the
    velocity profile (an interior index from [max(1, closest_index)] to
    [size - 2] where the velocity decreases and then does not, with the
    tolerance [1e-5], or the final index when the velocity decreases
    into it), in the order of their indices and each with its velocity,
    without those whose next candidate is fewer than 10 indices later
    and has a strictly lower velocity. *)
Theorem searchDecelTargetIndices_local_minima (trajectory : Trajectory)
  (closest_index : nat) :
  2 <= length (points trajectory) ->
  searchDecelTargetIndices trajectory closest_index []
  = Ok (spec_decel_targets (points trajectory) closest_index).
Proof. apply searchDecelTargetIndices_spec. Qed.

(** C6.  Every time step of the forward filter is the distance of the
    two base points divided by [max(previous velocity, 1.0)]: in the
    trajectory [applyForwardJerkFilter] leaves, each point after the
    start index has the velocity [prev_vel + prev_acc * dt] with
    [dt = ds / max(prev_vel, 1.0)], [prev_vel] and [prev_acc] read from
    the output point before it, and the divisor is at least [1.0]
    whatever the previous velocity is. *)
Theorem forward_time_step_divisor (base : Trajectory) (start_index : nat)
  (initial_vel initial_acc : Q) (params : Param) (output : Trajectory) :
  start_index < length (points output) ->
  length (points base) <= length (points output) ->
  exists output',
    applyForwardJerkFilter base start_index initial_vel initial_acc params
      output = Ok output'
    /\ forall i, start_index < i < length (points base) ->
         exists b_prev b o_prev o,
           points base !! (i - 1) = Some b_prev
           /\ points base !! i = Some b
           /\ points output' !! (i - 1) = Some o_prev
           /\ points output' !! i = Some o
           /\ let divisor := std_max (twist_linear_x o_prev) 1 in
              let dt := (calcDistance2d b_prev b / divisor)%Q in
              (1 <= divisor)%Q
              /\ twist_linear_x o
                 = (twist_linear_x o_prev + accel_linear_x o_prev * dt)%Q.
Proof.
  intros Hs Hlen.
  destruct (applyForwardJerkFilter_spec base start_index initial_vel
              initial_acc params output)
    as (out' & -> & _ & _ & _ & Hchain); [done|done|].
  exists (set_points output out'). split; [done|].
  intros i Hi.
  destruct (Hchain i Hi) as (b_prev & b & o_prev & o & ? & ? & ? & ? & Ho).
  exists b_prev, b, o_prev, (forward_point params b_prev b o_prev o).
  repeat (split; [done|]). split; [apply forward_dt_denominator|].
  unfold forward_point. cbv zeta. by rewrite twist_linear_x_set.
Qed.

(** C7.  On an input of exactly one point, [apply] returns [true] and
    its output is the input with that one point unchanged but for
    [twist.linear.x], set to the initial velocity, and [accel.linear.x],
    set to the initial acceleration. *)
Theorem apply_single_point (fuel : nat) (initial_vel initial_acc : Q)
  (input output : Trajectory) (p : TrajectoryPoint) :
  points input = [p] ->
  exists p',
    apply fuel initial_vel initial_acc input output
    = Ok (true, mkTrajectory (header input) [p'])
    /\ pose p' = pose p
    /\ twist p'
       = Twist.mk
           (Vector3.mk initial_vel (Vector3.y (Twist.linear (twist p)))
              (Vector3.z (Twist.linear (twist p))))
           (Twist.angular (twist p))
    /\ accel p'
       = Accel.mk
           (Vector3.mk initial_acc (Vector3.y (Accel.linear (accel p)))
              (Vector3.z (Accel.linear (accel p))))
           (Accel.angular (accel p)).
Proof.
  intros Hp. unfold apply. rewrite Hp.
  by exists (set_accel_linear_x (set_twist_linear_x p initial_vel) initial_acc).
Qed.

(** ** resampleTrajectory *)

Lemma back_total {A : Type} (v : list A) :
  v <> [] -> exists a, back_ v = Ok a /\ a ∈ v.
Proof.
  intros Hne. unfold back_.
  destruct (last v) as [a|] eqn:E.
  - exists a. split; [done|].
    rewrite last_lookup in E. by eapply list_elem_of_lookup_2.
  - apply last_None in E. done.
Qed.

Lemma resample_inner_total (p tp0 tp1 : TrajectoryPoint) (ds v : Q)
  (l : list nat) (st : list TrajectoryPoint * Q) :
  twist_linear_x tp0 = v ->
  (forall q, q ∈ st.1 -> twist_linear_x q = v) ->
  exists st',
    foldM (resample_inner_body p tp0 tp1 ds) l st = Ok st'
    /\ forall q, q ∈ st'.1 -> twist_linear_x q = v.
Proof.
  intros Hv Hst.
  apply (foldM_total (fun st => forall q, q ∈ st.1 -> twist_linear_x q = v));
    [|done].
  intros j [out s] _ Hout. unfold resample_inner_body.
  eexists. split; [done|]. simpl.
  intros q [Hq|Hq%list_elem_of_singleton]%elem_of_app.
  - by apply Hout.
  - by rewrite Hq.
Qed.

(** C8.  When every point of the input carries the linear velocity [v],
    [resampleTrajectory] returns (for every [num_resample], so for every
    one that is at least [1]) a trajectory every point of which carries
    [v], on every non-empty input. *)
Theorem resample_uniform_velocity (input : Trajectory) (v : Q) :
  (forall p, p ∈ points input -> twist_linear_x p = v) ->
  points input <> [] ->
  exists output,
    resampleTrajectory input = Ok (Some output)
    /\ header output = header input
    /\ forall p, p ∈ points output -> twist_linear_x p = v.
Proof.
  intros Hv Hne. unfold resampleTrajectory.
  destruct (points input) as [|p0 rest] eqn:Epts; [done|].
  rewrite <- Epts in *. clear Epts p0 rest.
  set (ds := (1 / _)%Q).
  assert (Hloop : exists out,
             for_range 0 (length (points input) - 1)
               (resample_body (points input) ds) [] = Ok out
             /\ forall q, q ∈ out -> twist_linear_x q = v).
  { apply (foldM_total (fun out => forall q, q ∈ out -> twist_linear_x q = v)).
    - intros i out Hi%elem_of_seq Hout. unfold resample_body.
      destruct (at_lt (points input) i) as (tp0 & -> & Htp0); [lia|].
      destruct (at_lt (points input) (i + 1)) as (tp1 & -> & _); [lia|].
      cbn [bind].
      assert (Hv0 : twist_linear_x tp0 = v)
        by (apply Hv; by eapply list_elem_of_lookup_2).
      destruct (Qltb _ _).
      + eexists. split; [done|].
        intros q [Hq|Hq%list_elem_of_singleton]%elem_of_app.
        * by apply Hout.
        * by rewrite Hq.
      + unfold for_range.
        destruct (resample_inner_total tp0 tp0 tp1 ds v
                    (seq 0 (Resample.num_resample (resample smoother_param_)
                            - 0))
                    (out, 0%Q)) as (st' & -> & Hst'); [done|done|].
        simpl. eauto.
    - intros q Hq. by apply elem_of_nil in Hq. }
  destruct Hloop as (out & -> & Hout). simpl bind.
  destruct (back_total (points input) Hne) as (b & -> & Hb).
  simpl. eexists. split; [done|]. split; [done|]. simpl.
  intros q [Hq|Hq%list_elem_of_singleton]%elem_of_app.
  - by apply Hout.
  - rewrite Hq. by apply Hv.
Qed.

Lemma window_curvature_total (curvature_v : list Q) (size i : nat) :
  size <= length curvature_v ->
  exists c, window_curvature curvature_v size i = Ok c /\ (0 <= c)%Q.
Proof.
  intros Hlen. unfold window_curvature.
  apply (foldM_total (fun c => (0 <= c)%Q)); [|lra].
  intros j c Hj%elem_of_seq Hc. unfold window_body.
  destruct (at_lt curvature_v j) as (x & -> & _); [lia|].
  simpl. eexists. split; [done|].
  pose proof (std_max_ge_l c (std_abs x)). lra.
Qed.

(** What the speed-lowering loop leaves after the points below [hi]. *)
Lemma latacc_loop (curvature_v : list Q) (pts : list TrajectoryPoint)
  (hi : nat) :
  hi <= length pts -> length pts <= length curvature_v ->
  exists pts' filtered_points,
    for_range 0 hi (latacc_body curvature_v) (pts, [])
    = Ok (pts', filtered_points)
    /\ length pts' = length pts
    /\ (forall i, hi <= i -> pts' !! i = pts !! i)
    /\ StronglySorted lt filtered_points
    /\ Forall (fun i => i < hi) filtered_points
    /\ (forall i p, i < hi -> pts !! i = Some p ->
          exists c,
            window_curvature curvature_v (length pts) i = Ok c
            /\ (0 <= c)%Q
            /\ pts' !! i = Some (lowered c p)
            /\ (i ∈ filtered_points
                <-> Qltb (v_curvature_max_of c) (twist_linear_x p) = true)).
Proof.
  intros Hhi Hcv. induction hi as [|hi IH].
  - exists pts, []. rewrite for_range_nil.
    split; [done|]. split; [done|]. split; [done|].
    split; [constructor|]. split; [constructor|]. intros i p Hi. lia.
  - destruct IH as (pts1 & fp1 & Hrun & Hlen & Hrest & Hsorted & Hbelow & Hdone);
      [lia|].
    rewrite for_range_S, Hrun by lia. cbn [bind]. unfold latacc_body.
    cbn [fst snd]. rewrite Hlen.
    destruct (window_curvature_total curvature_v (length pts) hi Hcv)
      as (c & Hc & Hc0).
    rewrite Hc. cbn [bind].
    destruct (at_lt pts1 hi) as (p & -> & Hp); [lia|]. cbn [bind].
    rewrite Hrest in Hp by lia.
    assert (Hnotin : hi ∉ fp1).
    { intros Hin. rewrite Forall_forall in Hbelow.
      specialize (Hbelow hi Hin). lia. }
    destruct (Qltb (v_curvature_max_of c) (twist_linear_x p)) eqn:E.
    + eexists _, _. split; [done|]. split; [by rewrite length_insert|].
      split; [|split; [|split]].
      * intros i Hi. rewrite list_lookup_insert_ne by lia. apply Hrest. lia.
      * apply StronglySorted_app_2; [|done|repeat constructor].
        intros x y Hx ->%list_elem_of_singleton.
        rewrite Forall_forall in Hbelow. by apply Hbelow.
      * apply Forall_app. split; [|repeat constructor].
        eapply Forall_impl; [done|]. simpl. lia.
      * intros i q Hi Hq. destruct (decide (i = hi)) as [->|Hne].
        -- simplify_eq. exists c. split; [done|]. split; [done|].
           rewrite list_lookup_insert_eq by lia.
           unfold lowered. rewrite E. split; [done|].
           split; [done|]. intros _. apply elem_of_app. right.
           by apply list_elem_of_singleton.
        -- destruct (Hdone i q) as (c' & ? & ? & ? & Hiff); [lia|done|].
           exists c'. rewrite list_lookup_insert_ne by done.
           split; [done|]. split; [done|]. split; [done|].
           rewrite <- Hiff. rewrite elem_of_app, list_elem_of_singleton.
           split; [intros [?|?]; [done|lia]|by left].
    + eexists _, _. split; [done|]. split; [done|].
      split; [|split; [done|split]].
      * intros i Hi. apply Hrest. lia.
      * eapply Forall_impl; [done|]. simpl. lia.
      * intros i q Hi Hq. destruct (decide (i = hi)) as [->|Hne].
        -- simplify_eq. exists c. split; [done|]. split; [done|].
           rewrite Hrest by lia. unfold lowered. rewrite E.
           split; [done|]. split; [done|]. done.
        -- destruct (Hdone i q) as (c' & ? & ? & ? & Hiff); [lia|done|].
           exists c'. done.
Qed.

(** The grouping loop computes the ranges of the groups. *)
Lemma group_loop (pts : list TrajectoryPoint) (suf pre : list nat)
  (g : Grouping) :
  is_updated g = true -> end_index g < length pts ->
  Forall (fun j => j < length pts) suf ->
  exists g',
    foldM (group_body pts (pre ++ suf)) (seq (length pre) (length suf)) g
    = Ok g'
    /\ close_grouping g'
       = latacc_filtered_ranges g
         ++ (let (gr, gs) := split_groups pts (end_index g) suf in
             extend_range pts
               (start_index g, end_index g, min_latacc_velocity g) gr
             :: map (group_range pts) gs).
Proof.
  intros Hup Hend Hsuf. revert pre g Hup Hend.
  induction Hsuf as [|j rest Hj Hrest IH]; intros pre g Hup Hend.
  - exists g. split; [done|]. unfold close_grouping. by rewrite Hup.
  - cbn [length seq foldM]. unfold group_body at 1.
    assert (Hidx : (pre ++ j :: rest) !! length pre = Some j).
    { rewrite lookup_app_r by lia. by rewrite Nat.sub_diag. }
    apply at_Ok in Hidx. rewrite Hidx. cbn [bind]. rewrite Hup. cbn [negb].
    destruct (at_lt pts (end_index g) Hend) as (p_end & -> & Hp_end).
    destruct (at_lt pts j Hj) as (p & -> & Hp). cbn [bind].
    replace (pre ++ j :: rest) with ((pre ++ [j]) ++ rest)
      by (by rewrite <- app_assoc).
    replace (Datatypes.S (length pre)) with (length (pre ++ [j]))
      by (rewrite length_app; simpl; lia).
    cbn [split_groups]. destruct (split_groups pts j rest) as [g0 gs0] eqn:Es.
    unfold closer. rewrite Hp_end, Hp.
    destruct (Qltb (calcDistance2d p_end p) _).
    + cbn [bind].
      destruct (IH (pre ++ [j])
                  (mkGrouping (latacc_filtered_ranges g) (start_index g) j
                     true
                     (std_min (twist_linear_x p) (min_latacc_velocity g))))
        as (g' & -> & Hclose); [done|done|].
      exists g'. split; [done|]. rewrite Hclose. cbn. rewrite Es.
      unfold extend_range. cbn [fold_left fst snd].
      by rewrite (velocity_at_Some _ _ _ Hp).
    + cbn [bind].
      destruct (IH (pre ++ [j])
                  (mkGrouping
                     (latacc_filtered_ranges g
                      ++ [(start_index g, end_index g,
                           min_latacc_velocity g)])
                     j j true (twist_linear_x p)))
        as (g' & -> & Hclose); [done|done|].
      exists g'. split; [done|]. rewrite Hclose. cbn. rewrite Es.
      rewrite <- app_assoc. cbn.
      by rewrite (velocity_at_Some _ _ _ Hp).
Qed.

Lemma latacc_ranges_spec (pts : list TrajectoryPoint)
  (filtered_points : list nat) :
  Forall (fun j => j < length pts) filtered_points ->
  latacc_ranges pts filtered_points
  = Ok (map (group_range pts) (groups pts filtered_points)).
Proof.
  intros Hfp. unfold latacc_ranges, for_range. rewrite Nat.sub_0_r.
  destruct filtered_points as [|j rest]; [done|].
  apply Forall_cons in Hfp as [Hj Hrest].
  cbn [length seq foldM]. unfold group_body at 1.
  change (at_ (j :: rest) 0) with (Ok (A:=nat) j).
  cbn [bind initial_grouping is_updated latacc_filtered_ranges negb].
  destruct (at_lt pts j Hj) as (p & -> & Hp). cbn [bind].
  destruct (group_loop pts rest [j]
              (mkGrouping [] j j true (twist_linear_x p)))
    as (g' & Hrun & Hclose); [done|done|done|].
  cbn [app length] in Hrun. rewrite Hrun. cbn [bind]. rewrite Hclose.
  cbn. destruct (split_groups pts j rest) as [g0 gs0].
  cbn. by rewrite (velocity_at_Some _ _ _ Hp).
Qed.

(** The range of a group: its first index, its last index and the least
    velocity of its points. *)
Lemma extend_range_spec (pts : list TrajectoryPoint) (s e : nat) (m : Q)
  (g : list nat) :
  exists e' m',
    extend_range pts (s, e, m) g = (s, e', m')
    /\ last (e :: g) = Some e'
    /\ (m' = m \/ exists j, j ∈ g /\ m' = velocity_at pts j)
    /\ (m' <= m)%Q
    /\ forall j, j ∈ g -> (m' <= velocity_at pts j)%Q.
Proof.
  revert e m. induction g as [|j g IH]; intros e m.
  - exists e, m. split; [done|]. split; [done|]. split; [by left|].
    split; [lra|]. intros j Hj. by apply elem_of_nil in Hj.
  - destruct (IH j (std_min (velocity_at pts j) m))
      as (e' & m' & Hext & Hlast & Hor & Hle & Hall).
    exists e', m'. split; [done|]. split; [done|].
    pose proof (std_min_le_l (velocity_at pts j) m).
    pose proof (std_min_le_r (velocity_at pts j) m).
    split; [|split; [lra|]].
    + destruct Hor as [->|(x & Hx & ->)].
      * destruct (std_min_cases (velocity_at pts j) m) as [[_ ->]|[_ ->]];
          [by left|].
        right. exists j. split; [by left|done].
      * right. exists x. split; [by right|done].
    + intros x [->|Hx]%elem_of_cons; [lra|by apply Hall].
Qed.

Lemma group_range_spec (pts : list TrajectoryPoint) (j : nat) (g : list nat) :
  exists e m,
    group_range pts (j :: g) = (j, e, m)
    /\ last (j :: g) = Some e
    /\ (exists x, x ∈ j :: g /\ m = velocity_at pts x)
    /\ forall x, x ∈ j :: g -> (m <= velocity_at pts x)%Q.
Proof.
  destruct (extend_range_spec pts j j (velocity_at pts j) g)
    as (e & m & Hext & Hlast & Hor & Hle & Hall).
  exists e, m. split; [done|]. split; [done|]. split.
  - destruct Hor as [->|(x & Hx & ->)].
    + exists j. split; [by left|done].
    + exists x. split; [by right|done].
  - intros x [->|Hx]%elem_of_cons; [done|by apply Hall].
Qed.

(** The groups split the capped points into non-empty runs. *)
Lemma split_groups_concat (pts : list TrajectoryPoint) (prev : nat)
  (capped : list nat) :
  let (g, gs) := split_groups pts prev capped in
  g ++ concat gs = capped /\ Forall (fun G => G <> []) gs.
Proof.
  revert prev. induction capped as [|j rest IH]; intros prev; [done|].
  cbn [split_groups]. specialize (IH j).
  destruct (split_groups pts j rest) as [g gs].
  destruct IH as [Hcat Hne].
  destruct (closer pts prev j); cbn.
  - by rewrite Hcat.
  - rewrite Hcat. split; [done|]. by constructor.
Qed.

Lemma groups_concat (pts : list TrajectoryPoint) (capped : list nat) :
  concat (groups pts capped) = capped
  /\ Forall (fun G => G <> []) (groups pts capped).
Proof.
  destruct capped as [|j rest]; [done|]. cbn [groups].
  pose proof (split_groups_concat pts j rest) as H.
  destruct (split_groups pts j rest) as [g gs]. destruct H as [Hcat Hne].
  cbn. rewrite Hcat. split; [done|]. by constructor.
Qed.

Lemma sorted_first_le (j : nat) (g : list nat) (x : nat) :
  StronglySorted lt (j :: g) -> x ∈ j :: g -> j <= x.
Proof.
  intros Hs [->|Hx]%elem_of_cons; [done|].
  apply StronglySorted_cons in Hs as [Hall _].
  rewrite Forall_forall in Hall. specialize (Hall x Hx). lia.
Qed.

Lemma sorted_last_ge (l : list nat) (e x : nat) :
  StronglySorted lt l -> last l = Some e -> x ∈ l -> x <= e.
Proof.
  intros Hs Hlast Hx. apply last_Some in Hlast as [l' ->].
  apply elem_of_app in Hx as [Hx | ->%list_elem_of_singleton]; [|done].
  apply StronglySorted_app in Hs as (Hall & _ & _).
  specialize (Hall x e Hx). unfold lt in Hall.
  assert (e ∈ [e]) by (by left). specialize (Hall H). lia.
Qed.

(** Among ranges of groups in increasing order, the range loop finds
    for an index the range of the group that spans it. *)
Lemma range_velocity_group (pts : list TrajectoryPoint)
  (gs : list (list nat)) (G : list nat) (i : nat) :
  Latacc.enable_constant_velocity_while_turning (latacc smoother_param_)
  = true ->
  Forall (fun G => G <> []) gs -> StronglySorted lt (concat gs) ->
  G ∈ gs ->
  (group_range pts G).1.1 <= i <= (group_range pts G).1.2 ->
  range_velocity (map (group_range pts) gs) i = Some (group_range pts G).2.
Proof.
  intros Hen Hne. revert G. induction Hne as [|G0 gs' HG0 Hne IH];
    intros G Hs HG Hi.
  - by apply elem_of_nil in HG.
  - cbn [concat] in Hs. apply StronglySorted_app in Hs as (Hall & Hs0 & Hs').
    cbn [map range_velocity].
    destruct G0 as [|j0 g0]; [done|].
    destruct (group_range_spec pts j0 g0) as (e0 & m0 & E0 & Hlast0 & _ & _).
    rewrite E0. rewrite Hen, andb_true_r.
    apply elem_of_cons in HG as [->|HG].
    + rewrite E0 in Hi. cbn in Hi.
      replace (j0 <=? i) with true by (symmetry; apply Nat.leb_le; lia).
      replace (i <=? e0) with true by (symmetry; apply Nat.leb_le; lia).
      by rewrite E0.
    + assert (HGne : G <> []).
      { rewrite Forall_forall in Hne. by apply Hne. }
      destruct G as [|j g]; [done|].
      destruct (group_range_spec pts j g) as (e & m & E & _ & _ & _).
      assert (He0 : e0 ∈ j0 :: g0) by (by eapply last_Some_elem_of).
      assert (Hj : j ∈ concat gs').
      { apply list_elem_of_In, in_concat. exists (j :: g).
        split; [by apply list_elem_of_In|by left]. }
      specialize (Hall e0 j He0 Hj). unfold lt in Hall.
      rewrite E in Hi. cbn in Hi.
      replace (i <=? e0) with false by (symmetry; apply Nat.leb_gt; lia).
      rewrite andb_false_r. apply IH; [done|done|].
      rewrite E. cbn. lia.
Qed.

(** What the plateau loop leaves after the points below [hi]. *)
Lemma plateau_loop (ranges : list (nat * nat * Q))
  (pts : list TrajectoryPoint) (hi : nat) :
  hi <= length pts ->
  exists pts',
    for_range 0 hi (plateau_body ranges) pts = Ok pts'
    /\ length pts' = length pts
    /\ forall i p, pts !! i = Some p ->
         pts' !! i
         = Some (if i <? hi
                 then match range_velocity ranges i with
                      | Some v => set_twist_linear_x p v
                      | None => p
                      end
                 else p).
Proof.
  induction hi as [|hi IH]; intros Hhi.
  - exists pts. rewrite for_range_nil. split; [done|]. split; [done|].
    by intros i p ->.
  - destruct IH as (pts1 & Hrun & Hlen & Hpts); [lia|].
    rewrite for_range_S, Hrun by lia. cbn [bind]. unfold plateau_body.
    destruct (lookup_lt_is_Some_2 pts hi) as [q Hq]; [lia|].
    pose proof (Hpts hi q Hq) as Hq1. rewrite Nat.ltb_irrefl in Hq1.
    destruct (range_velocity ranges hi) as [v|] eqn:Ev.
    + apply at_Ok in Hq1 as Hat. rewrite Hat. cbn [bind].
      eexists. split; [done|]. split; [by rewrite length_insert|].
      intros i p Hp. destruct (decide (i = hi)) as [->|Hne].
      * rewrite list_lookup_insert_eq by lia. simplify_eq.
        replace (hi <? Datatypes.S hi) with true
          by (symmetry; apply Nat.ltb_lt; lia).
        by rewrite Ev.
      * rewrite list_lookup_insert_ne by done. rewrite (Hpts i p Hp).
        destruct (i <? hi) eqn:E.
        -- replace (i <? Datatypes.S hi) with true; [done|].
           symmetry. apply Nat.ltb_lt. apply Nat.ltb_lt in E. lia.
        -- replace (i <? Datatypes.S hi) with false; [done|].
           symmetry. apply Nat.ltb_ge. apply Nat.ltb_ge in E. lia.
    + exists pts1. split; [done|]. split; [done|].
      intros i p Hp. destruct (decide (i = hi)) as [->|Hne].
      * simplify_eq. rewrite Hq1.
        replace (hi <? Datatypes.S hi) with true
          by (symmetry; apply Nat.ltb_lt; lia).
        by rewrite Ev.
      * rewrite (Hpts i p Hp).
        destruct (i <? hi) eqn:E.
        -- replace (i <? Datatypes.S hi) with true; [done|].
           symmetry. apply Nat.ltb_lt. apply Nat.ltb_lt in E. lia.
        -- replace (i <? Datatypes.S hi) with false; [done|].
           symmetry. apply Nat.ltb_ge. apply Nat.ltb_ge in E. lia.
Qed.

(** Without the flag no range matches. *)
Lemma range_velocity_disabled (ranges : list (nat * nat * Q)) (i : nat) :
  Latacc.enable_constant_velocity_while_turning (latacc smoother_param_)
  = false ->
  range_velocity ranges i = None.
Proof.
  intros Hen. induction ranges as [|[[s e] m] ranges IH]; [done|].
  cbn [range_velocity]. by rewrite Hen, andb_false_r.
Qed.

Lemma sorted_member_of_concat (gs : list (list nat)) (G : list nat) :
  StronglySorted lt (concat gs) -> G ∈ gs -> StronglySorted lt G.
Proof.
  induction gs as [|G0 gs IH]; intros Hs HG.
  - by apply elem_of_nil in HG.
  - cbn [concat] in Hs. apply StronglySorted_app in Hs as (_ & Hs0 & Hs').
    apply elem_of_cons in HG as [->|HG]; [done|by apply IH].
Qed.

(** ** The caps and the plateaus of the lateral filter *)

Lemma velocity_at_set (pts : list TrajectoryPoint) (i : nat)
  (p : TrajectoryPoint) (v : Q) :
  pts !! i = Some (set_twist_linear_x p v) -> velocity_at pts i = v.
Proof. intros H. unfold velocity_at. by rewrite H. Qed.

Lemma range_velocity_outside (ranges : list (nat * nat * Q)) (i : nat) :
  (forall r, r ∈ ranges -> ~ (r.1.1 <= i <= r.1.2)) ->
  range_velocity ranges i = None.
Proof.
  induction ranges as [|[[s e] m] ranges IH]; intros Hout; [done|].
  cbn [range_velocity].
  destruct ((s <=? i) && (i <=? e)) eqn:E.
  - exfalso. apply (Hout (s, e, m)); [by left|].
    apply andb_true_iff in E as [?%Nat.leb_le ?%Nat.leb_le]. simpl. lia.
  - cbn [andb]. apply IH. intros r Hr. apply Hout. by right.
Qed.

(** C5, as amended.  On an input of at least three points for which the
    interpolation and the curvature estimate succeed (the estimate
    covering every interpolated point), [applyLateralAccelerationFilter]
    returns the interpolated trajectory with these velocities:
    - the speed-lowering loop caps the velocity of point [i] to
      [max(sqrt(|max_lateral_accel| / max(curvature, 1e-5)),
      min_curve_velocity)], [curvature] being the largest absolute
      curvature estimate over the window of [i], where the velocity is
      above this cap, and records exactly the points it lowered;
    - when [enable_constant_velocity_while_turning] is unset, that is
      the trajectory returned: every velocity is the least of the
      interpolated velocity and the cap;
    - when the flag is set, the lowered points of each group (of
      consecutive lowered points closer than
      [constant_velocity_dist_threshold]) are all returned with one
      velocity, the least lowered velocity of the group, which is at
      most the cap of each of them;
    - a point outside the index range of every group is returned with
      the least of its interpolated velocity and its cap. *)
Theorem lateral_filter_caps_and_plateaus (input interpolated prepared : Trajectory)
  (back : Q) (curvature_v : list Q) :
  3 <= length (points input) ->
  back_ (calcArclengthArray input) = Ok back ->
  applyLinearInterpolation (calcArclengthArray input) input
    (out_arclength_of back) = Some interpolated ->
  keep_final_speed input interpolated = Ok prepared ->
  calcTrajectoryCurvatureFrom3Points prepared idx_dist = Some curvature_v ->
  length (points prepared) <= length curvature_v ->
  exists lowered_pts filtered_points out_pts,
    latacc_limit curvature_v (points prepared)
    = Ok (lowered_pts, filtered_points)
    /\ applyLateralAccelerationFilter input
       = Ok (Some (set_points prepared out_pts))
    /\ length out_pts = length (points prepared)
    /\ (forall i p, points prepared !! i = Some p ->
          exists c,
            window_curvature curvature_v (length (points prepared)) i = Ok c
            /\ lowered_pts !! i = Some (lowered c p)
            /\ (i ∈ filtered_points
                <-> (v_curvature_max_of c < twist_linear_x p)%Q))
    /\ (Latacc.enable_constant_velocity_while_turning
          (latacc smoother_param_) = false ->
        out_pts = lowered_pts)
    /\ (Latacc.enable_constant_velocity_while_turning
          (latacc smoother_param_) = true ->
        forall G, G ∈ groups lowered_pts filtered_points ->
          exists m,
            (forall j, j ∈ G ->
               j ∈ filtered_points
               /\ (m <= velocity_at lowered_pts j)%Q
               /\ velocity_at out_pts j = m)
            /\ (exists j, j ∈ G /\ m = velocity_at lowered_pts j))
    /\ (forall i,
          (forall G, G ∈ groups lowered_pts filtered_points ->
             ~ ((group_range lowered_pts G).1.1 <= i
                <= (group_range lowered_pts G).1.2)) ->
          out_pts !! i = lowered_pts !! i).
Proof.
  intros Hn Hback Hinterp Hprep Hcurv Hcv.
  destruct (latacc_loop curvature_v (points prepared)
              (length (points prepared)))
    as (pts1 & fp & Hrun & Hlen1 & _ & Hsorted & Hbelow & Hdone);
    [done|done|].
  assert (Hfp : Forall (fun j => j < length pts1) fp)
    by (by rewrite Hlen1).
  destruct (plateau_loop (map (group_range pts1) (groups pts1 fp)) pts1
              (length pts1)) as (pts2 & Hplateau & Hlen2 & Hpts2); [done|].
  exists pts1, fp, pts2. split; [done|]. split; [|split; [lia|]].
  { unfold applyLateralAccelerationFilter.
    destruct (points input) as [|p0 rest] eqn:Epts; [simpl in Hn; lia|].
    rewrite <- Epts in Hn |- *.
    replace (length (points input) <? 3) with false
      by (symmetry; apply Nat.ltb_ge; lia).
    rewrite Hback. cbn [bind]. rewrite Hinterp, Hprep. cbn [bind].
    rewrite Hcurv. unfold latacc_limit in Hrun. unfold latacc_limit.
    rewrite Hrun. cbn [bind].
    rewrite latacc_ranges_spec by done. cbn [bind].
    rewrite Hplateau. done. }
  split; [|split; [|split]]; cycle 3.
  { intros i Hout.
    destruct (pts1 !! i) as [p1|] eqn:Hp1.
    - rewrite (Hpts2 i p1 Hp1).
      rewrite range_velocity_outside; [by destruct (i <? length pts1)|].
      intros r (G & -> & HG)%list_elem_of_fmap. by apply Hout.
    - apply lookup_ge_None in Hp1. apply lookup_ge_None. lia. }
  - intros i p Hp.
    destruct (Hdone i p) as (c & Hc & _ & Hlow & Hiff);
      [by eapply lookup_lt_Some|done|].
    exists c. split; [done|]. split; [done|].
    rewrite Hiff. apply Qltb_lt.
  - intros Hen. apply list_eq. intros i.
    destruct (pts1 !! i) as [p1|] eqn:Hp1.
    + rewrite (Hpts2 i p1 Hp1).
      rewrite range_velocity_disabled by done.
      by destruct (i <? length pts1).
    + apply lookup_ge_None in Hp1. apply lookup_ge_None. lia.
  - intros Hen G HG.
    destruct (groups_concat pts1 fp) as [Hcat Hne].
    assert (HGne : G <> []).
    { rewrite Forall_forall in Hne. by apply Hne. }
    destruct G as [|j g]; [done|].
    destruct (group_range_spec pts1 j g) as (e & m & E & Hlast & Hmin & Hle).
    assert (HsG : StronglySorted lt (j :: g)).
    { apply (sorted_member_of_concat (groups pts1 fp)); [|done].
      by rewrite Hcat. }
    exists m. split; [|done].
    intros x Hx.
    assert (Hxfp : x ∈ fp).
    { rewrite <- Hcat. clear -HG Hx.
      induction (groups pts1 fp) as [|G0 gs IH];
        [by apply elem_of_nil in HG|].
      cbn [concat]. apply elem_of_app.
      apply elem_of_cons in HG as [<-|HG]; [by left|right; by apply IH]. }
    split; [done|]. split; [by apply Hle|].
    assert (Hxlt : x < length pts1).
    { rewrite Forall_forall in Hfp. by apply Hfp. }
    destruct (lookup_lt_is_Some_2 pts1 x Hxlt) as [p1 Hp1].
    pose proof (Hpts2 x p1 Hp1) as Hout.
    replace (x <? length pts1) with true in Hout
      by (symmetry; by apply Nat.ltb_lt).
    rewrite (range_velocity_group pts1 (groups pts1 fp) (j :: g) x) in Hout;
      [|done|done|by rewrite Hcat|done|].
    + rewrite E in Hout. by apply velocity_at_set in Hout.
    + rewrite E. cbn [fst snd].
      split; [by apply (sorted_first_le j g)|by eapply sorted_last_ge].
Qed.

(** ** What the filters leave untouched *)

Lemma erase_motion_forward_point (params : Param)
  (b_prev b o_prev o : TrajectoryPoint) :
  erase_motion (forward_point params b_prev b o_prev o) = erase_motion o.
Proof. done. Qed.

Lemma erase_motion_capped (max_velocity : Q) (p : TrajectoryPoint) :
  erase_motion (capped max_velocity p) = erase_motion p.
Proof. done. Qed.

Lemma erase_motion_set (p : TrajectoryPoint) (v a : Q) :
  erase_motion (set_accel_linear_x (set_twist_linear_x p v) a)
  = erase_motion p.
Proof. done. Qed.

Lemma same_but_motion_refl (t : Trajectory) : same_but_motion t t.
Proof. by split. Qed.

Lemma same_but_motion_trans (t1 t2 t3 : Trajectory) :
  same_but_motion t1 t2 -> same_but_motion t2 t3 -> same_but_motion t1 t3.
Proof. intros [H1 H2] [H3 H4]. split; congruence. Qed.

Lemma same_but_motion_length (t t' : Trajectory) :
  same_but_motion t t' -> length (points t') = length (points t).
Proof.
  intros [_ H]. apply (f_equal length) in H. by rewrite !length_fmap in H.
Qed.

Lemma same_but_motion_lookup (t t' : Trajectory) (i : nat)
  (p : TrajectoryPoint) :
  same_but_motion t t' -> points t !! i = Some p ->
  exists p', points t' !! i = Some p' /\ erase_motion p' = erase_motion p.
Proof.
  intros [_ H] Hp.
  assert (Hi : (erase_motion <$> points t') !! i = Some (erase_motion p))
    by (by rewrite H, list_lookup_fmap, Hp).
  rewrite list_lookup_fmap in Hi.
  destruct (points t' !! i) as [p'|]; [|done].
  exists p'. split; [done|]. simpl in Hi. congruence.
Qed.

(** Overwriting a point with one of the same image keeps the image of
    the list. *)
Lemma erase_motion_insert (pts : list TrajectoryPoint) (i : nat)
  (p p' : TrajectoryPoint) :
  pts !! i = Some p -> erase_motion p' = erase_motion p ->
  erase_motion <$> <[i := p']> pts = erase_motion <$> pts.
Proof.
  intros Hp He. rewrite list_fmap_insert, He. apply list_insert_id.
  by rewrite list_lookup_fmap, Hp.
Qed.

Lemma applyMaxVelocity_same_but_motion (max_velocity : Q)
  (start_index end_index : nat) (t t' : Trajectory) (b : bool) :
  applyMaxVelocity max_velocity start_index end_index t = Ok (b, t') ->
  same_but_motion t t'.
Proof.
  unfold applyMaxVelocity.
  destruct ((end_index <? start_index) || _).
  - intros [= <- <-]. apply same_but_motion_refl.
  - intros H. apply bind_Ok in H as (pts & Hloop & [= <- <-]).
    split; [done|]. simpl. unfold for_range in Hloop.
    apply (foldM_invariant
             (fun pts => erase_motion <$> pts = erase_motion <$> points t))
      in Hloop; [done| |done].
    intros i u u' _ Hu Hbody. unfold applyMaxVelocity_body in Hbody.
    apply bind_Ok in Hbody as (p & Hp%at_Ok & [= <-]).
    rewrite <- Hu. by apply (erase_motion_insert u i p).
Qed.

Lemma applyForwardJerkFilter_same_but_motion (base : Trajectory)
  (start_index : nat) (initial_vel initial_acc : Q) (params : Param)
  (output output' : Trajectory) :
  applyForwardJerkFilter base start_index initial_vel initial_acc params
    output = Ok output' ->
  same_but_motion output output'.
Proof.
  unfold applyForwardJerkFilter. intros H.
  apply bind_Ok in H as (o & Ho%at_Ok & H).
  apply bind_Ok in H as (out2 & Hloop & [= <-]).
  split; [done|]. simpl. unfold for_range in Hloop.
  apply (foldM_invariant
           (fun pts => erase_motion <$> pts = erase_motion <$> points output))
    in Hloop; [done| |].
  - intros i u u' _ Hu Hbody. unfold forward_body in Hbody.
    apply bind_Ok in Hbody as (o_prev & _ & Hbody).
    apply bind_Ok in Hbody as (b_prev & _ & Hbody).
    apply bind_Ok in Hbody as (b & _ & Hbody).
    apply bind_Ok in Hbody as (o_old & Hold%at_Ok & [= <-]).
    rewrite <- Hu. by apply (erase_motion_insert u i o_old).
  - by apply (erase_motion_insert (points output) start_index o).
Qed.

(** The helper that writes the deceleration profile writes longitudinal
    velocities and accelerations only. *)
Hypothesis calcStopVelocity_same_but_motion :
  forall v0 a0 jerk_acc jerk_dec min_acc target_vel type times start_index
         trajectory,
    same_but_motion trajectory
      (calcStopVelocityWithConstantJerkAccLimit v0 a0 jerk_acc jerk_dec
         min_acc target_vel type times start_index trajectory).2.

Lemma applyBackwardDecelFilter_same_but_motion (fuel : nat)
  (start_indices : list nat) (decel_target_index : nat)
  (decel_target_vel : Q) (params : Param) (t t' : Trajectory) (ok : bool) :
  applyBackwardDecelFilter fuel start_indices decel_target_index
    decel_target_vel params t = Ok (ok, t') ->
  same_but_motion t t'.
Proof.
  unfold applyBackwardDecelFilter. intros H.
  apply bind_Ok in H as (plan & _ & H). destruct (Qeqb _ (- 100)).
  - injection H as <- <-. apply same_but_motion_refl.
  - apply bind_Ok in H as ([decel_start_index [type times]] & _ & H).
    apply bind_Ok in H as ([ok' t''] & H & [= <- <-]).
    unfold applyDecelVelocityFilter in H.
    apply bind_Ok in H as (p & _ & H). injection H as H.
    pose proof (calcStopVelocity_same_but_motion (twist_linear_x p)
                  (accel_linear_x p) (std_abs (output_planning_jerk plan))
                  (output_planning_jerk plan)
                  (calcMinAcc params (output_planning_jerk plan))
                  decel_target_vel type times decel_start_index t) as Hs.
    by rewrite H in Hs.
Qed.

Lemma round_fallback_same_but_motion (input : Trajectory)
  (bwd_start_index : nat) (bwd_start_vel bwd_start_acc : Q)
  (target : nat * Q) (reference filtered : Trajectory) (r : round) :
  same_but_motion input reference -> same_but_motion input filtered ->
  round_fallback bwd_start_index bwd_start_vel bwd_start_acc target
    reference filtered = Ok r ->
  round_same_but_motion input r.
Proof.
  intros Hr Hf. unfold round_fallback. destruct (Qltb _ _); intros H.
  - apply bind_Ok in H as ([b filtered'] & Hcap & [= <-]).
    apply applyMaxVelocity_same_but_motion in Hcap.
    simpl. exact (same_but_motion_trans _ _ _ Hf Hcap).
  - apply bind_Ok in H as ([b reference'] & Hcap & H).
    apply bind_Ok in H as (filtered' & Hfwd & [= <-]).
    apply applyMaxVelocity_same_but_motion in Hcap.
    apply applyForwardJerkFilter_same_but_motion in Hfwd.
    simpl. split.
    + exact (same_but_motion_trans _ _ _ Hr Hcap).
    + exact (same_but_motion_trans _ _ _ Hf Hfwd).
Qed.

Lemma apply_round_same_but_motion (fuel : nat) (initial_vel initial_acc : Q)
  (targets : list (nat * Q)) (i : nat) (input reference filtered : Trajectory)
  (r : round) :
  same_but_motion input reference -> same_but_motion input filtered ->
  apply_round fuel initial_vel initial_acc targets i reference filtered
  = Ok r ->
  round_same_but_motion input r.
Proof.
  intros Hr Hf. unfold apply_round. intros H.
  apply bind_Ok in H as ([[[[[bwd bv] ba] target] ok] filtered2] & Hback & H).
  assert (Hf2 : same_but_motion input filtered2).
  { unfold round_backward in Hback.
    apply bind_Ok in Hback as ([[fwd fv] fa] & _ & Hback).
    apply bind_Ok in Hback as (filtered1 & Hfwd & Hback).
    apply bind_Ok in Hback as ([[bwd' bv'] ba'] & _ & Hback).
    apply bind_Ok in Hback as (target' & _ & Hback).
    apply bind_Ok in Hback as ([ok' filtered2'] & Hbwd & Heq).
    simplify_eq.
    apply applyForwardJerkFilter_same_but_motion in Hfwd.
    apply applyBackwardDecelFilter_same_but_motion in Hbwd.
    exact (same_but_motion_trans _ _ _
             (same_but_motion_trans _ _ _ Hf Hfwd) Hbwd). }
  destruct ok; simpl in H.
  - injection H as <-. by split.
  - exact (round_fallback_same_but_motion _ _ _ _ _ _ _ _ Hr Hf2 H).
Qed.

Lemma apply_rounds_same_but_motion (fuel : nat)
  (initial_vel initial_acc : Q) (targets : list (nat * Q)) (rest : list nat)
  (input reference filtered : Trajectory) (r : round) :
  same_but_motion input reference -> same_but_motion input filtered ->
  apply_rounds fuel initial_vel initial_acc targets rest reference filtered
  = Ok r ->
  round_same_but_motion input r.
Proof.
  revert reference filtered.
  induction rest as [|i rest IH]; intros reference filtered Hr Hf; simpl.
  - intros [= <-]. by split.
  - intros H. apply bind_Ok in H as (r1 & Hround & H).
    apply (apply_round_same_but_motion _ _ _ _ _ input) in Hround;
      [|done|done].
    destruct r1 as [out|reference' filtered'].
    + by injection H as <-.
    + destruct Hround as [Hr' Hf']. exact (IH _ _ Hr' Hf' H).
Qed.

(** X1.  On a non-empty input, whenever [apply] returns it returns
    [true], and what it writes to [output] is the input but for the
    longitudinal velocities and accelerations: the header, the number of
    points, every pose and every other component of the twists and
    accelerations are those of the input.  This holds for every
    configuration. *)
Theorem apply_changes_motion_only (fuel : nat) (initial_vel initial_acc : Q)
  (input output output' : Trajectory) (b : bool) :
  points input <> [] ->
  apply fuel initial_vel initial_acc input output = Ok (b, output') ->
  b = true
  /\ header output' = header input
  /\ length (points output') = length (points input)
  /\ forall i p, points input !! i = Some p ->
       exists p',
         points output' !! i = Some p'
         /\ pose p' = pose p
         /\ erase_motion p' = erase_motion p.
Proof.
  intros Hne Happly.
  assert (Hsame : b = true /\ same_but_motion input output').
  { unfold apply in Happly.
    destruct (points input) as [|p0 [|p1 rest]] eqn:Epts; [done| |].
    - injection Happly as <- <-. split; [done|]. split; [done|].
      simpl. by rewrite Epts.
    - clear Epts.
      apply bind_Ok in Happly as (targets & _ & Happly).
      apply bind_Ok in Happly as (r & Hrounds & Happly).
      apply (apply_rounds_same_but_motion _ _ _ _ _ input) in Hrounds;
        [|apply same_but_motion_refl|apply same_but_motion_refl].
      destruct r as [out|reference filtered].
      + by injection Happly as <- <-.
      + destruct Hrounds as [_ Hf].
        apply bind_Ok in Happly as ([[s v] a] & _ & Happly).
        apply bind_Ok in Happly as (filtered' & Hfwd & [= <- <-]).
        apply applyForwardJerkFilter_same_but_motion in Hfwd.
        split; [done|]. exact (same_but_motion_trans _ _ _ Hf Hfwd). }
  destruct Hsame as [-> Hsame]. split; [done|].
  split; [apply Hsame|]. split; [by apply same_but_motion_length|].
  intros i p Hp.
  destruct (same_but_motion_lookup _ _ _ _ Hsame Hp) as (p' & Hp' & He).
  exists p'. split; [done|]. split; [|done].
  by apply (f_equal pose) in He.
Qed.

(** ** The forward steps of apply *)

Lemma forward_point_step (params : Param)
  (b_prev b o_prev o : TrajectoryPoint) :
  forward_bounds_valid params ->
  forward_step params b_prev b o_prev
    (forward_point params b_prev b o_prev o).
Proof.
  intros (Hacc & Hj1 & Hj2). unfold forward_step. cbv zeta.
  eexists _, _. split; [reflexivity|]. split; [reflexivity|].
  split; [by apply clamp_bounds|].
  split; [apply clamp_bounds; lra|].
  split; reflexivity.
Qed.

(** A forward step is a matter of the velocity and the acceleration of
    the point. *)
Lemma forward_step_motion (params : Param)
  (b_prev b o_prev o o' : TrajectoryPoint) :
  twist_linear_x o' = twist_linear_x o ->
  accel_linear_x o' = accel_linear_x o ->
  forward_step params b_prev b o_prev o ->
  forward_step params b_prev b o_prev o'.
Proof.
  intros Hv Ha. unfold forward_step. cbv zeta.
  intros (la & lj & ? & ? & ? & ? & ? & ?).
  exists la, lj. rewrite Hv, Ha. done.
Qed.

Lemma calcEnoughDistForDecel_no_profile (trajectory : Trajectory)
  (start_index : nat) (decel_target_vel planning_jerk : Q) (params : Param)
  (dist_to_target : list Q) (r : bool * (Z * list Q)) :
  finds_no_profile ->
  calcEnoughDistForDecel trajectory start_index decel_target_vel
    planning_jerk params dist_to_target = Ok r ->
  r.1 = false.
Proof.
  intros Hno. unfold calcEnoughDistForDecel. intros H.
  apply bind_Ok in H as (p & _ & H). cbv zeta in H.
  pose proof (Hno (twist_linear_x p) (accel_linear_x p)
                (std_abs planning_jerk) planning_jerk
                (calcMinAcc params planning_jerk) decel_target_vel) as Hp.
  destruct (calcStopDistWithJerkAndAccConstraints _ _ _ _ _ _)
    as [ok [[type times] stop_dist]].
  simpl in Hp. subst ok. cbn [negb] in H. by injection H as <-.
Qed.

Lemma scan_jerk_no_profile (fuel : nat) (trajectory : Trajectory)
  (start_index : nat) (decel_target_vel : Q) (params : Param)
  (dist_to_target : list Q) (planning_jerk : Q) (out : Z * list Q)
  (r : bool * Q * (Z * list Q)) :
  finds_no_profile ->
  scan_jerk fuel trajectory start_index decel_target_vel params
    dist_to_target planning_jerk out = Ok r ->
  r.1.1 = false.
Proof.
  intros Hno. revert planning_jerk out.
  induction fuel as [|fuel IH]; intros planning_jerk out; [done|].
  cbn [scan_jerk]. destruct (Qltb _ planning_jerk).
  - intros H. apply bind_Ok in H as ([ok o] & Hcall & H).
    apply calcEnoughDistForDecel_no_profile in Hcall; [|done].
    simpl in Hcall. subst ok. by apply IH in H.
  - by intros [= <-].
Qed.

Lemma plan_loop_no_profile (fuel : nat) (decel_target_index : nat)
  (decel_target_vel : Q) (params : Param) (trajectory : Trajectory)
  (start_indices : list nat) (plan plan' : DecelPlan) :
  finds_no_profile ->
  plan_loop fuel decel_target_index decel_target_vel params trajectory
    start_indices plan = Ok plan' ->
  plan' = plan.
Proof.
  intros Hno. revert plan.
  induction start_indices as [|s rest IH]; intros plan.
  - by intros [= <-].
  - cbn [plan_loop]. intros H. apply bind_Ok in H as (plan1 & H1 & H).
    apply IH in H. subst plan'.
    unfold plan_body in H1. cbv zeta in H1.
    apply bind_Ok in H1 as (d0 & _ & H1).
    apply bind_Ok in H1 as (s' & _ & H1).
    apply bind_Ok in H1 as ([dist d] & _ & H1).
    apply bind_Ok in H1 as ([[ok pj] [type times]] & Hscan & H1).
    apply scan_jerk_no_profile in Hscan; [|done].
    simpl in Hscan. subst ok. cbn [negb] in H1. by injection H1 as <-.
Qed.

(** When no stopping profile is found the backward filter returns
    [false] and leaves the trajectory as it was. *)
Lemma applyBackwardDecelFilter_no_profile (fuel : nat)
  (start_indices : list nat) (decel_target_index : nat)
  (decel_target_vel : Q) (params : Param) (t t' : Trajectory) (ok : bool) :
  finds_no_profile ->
  applyBackwardDecelFilter fuel start_indices decel_target_index
    decel_target_vel params t = Ok (ok, t') ->
  ok = false /\ t' = t.
Proof.
  intros Hno. unfold applyBackwardDecelFilter. intros H.
  apply bind_Ok in H as (plan & Hplan & H).
  apply plan_loop_no_profile in Hplan; [|done]. subst plan.
  change (Qeqb (output_planning_jerk initial_plan) (- 100)) with true in H.
  by injection H as <- <-.
Qed.

(** [searchDecelTargetIndices] returns on trajectories of two points or
    more only. *)
Lemma searchDecelTargetIndices_Ok_length (trajectory : Trajectory)
  (start : nat) (known targets : list (nat * Q)) :
  searchDecelTargetIndices trajectory start known = Ok targets ->
  2 <= length (points trajectory).
Proof.
  unfold searchDecelTargetIndices.
  destruct (points trajectory) as [|p [|q rest]] eqn:Epts;
    [done| |simpl; lia].
  simpl length. unfold for_range.
  replace (0 - Nat.max 1 start) with 0 by lia. done.
Qed.

(** With a stop-distance computation that never finds a profile, no run
    of [apply] writes one. *)
Lemma finds_no_profile_writes_none (fuel : nat)
  (initial_vel initial_acc : Q) (input : Trajectory) :
  finds_no_profile -> writes_no_profile fuel initial_vel initial_acc input.
Proof.
  intros Hno targets i reference filtered bwd bv ba target ok filtered'
    _ _ Hback.
  unfold round_backward in Hback.
  apply bind_Ok in Hback as ([[fwd fv] fa] & Hfwd & Hback).
  apply bind_Ok in Hback as (filtered1 & Hpass & Hback).
  apply bind_Ok in Hback as ([[bwd' bv'] ba'] & _ & Hback).
  apply bind_Ok in Hback as (target' & _ & Hback).
  apply bind_Ok in Hback as ([ok' filtered2] & Hbwd & Hback).
  injection Hback as -> -> -> -> -> ->.
  apply applyBackwardDecelFilter_no_profile in Hbwd as [-> ->]; [|done].
  split; [done|]. unfold round_forward. by rewrite Hfwd.
Qed.

(** The loop over a list of rounds that is split in two. *)
Lemma apply_rounds_app (fuel : nat) (initial_vel initial_acc : Q)
  (targets : list (nat * Q)) (l1 l2 : list nat)
  (reference filtered : Trajectory) :
  apply_rounds fuel initial_vel initial_acc targets (l1 ++ l2) reference
    filtered
  = let* r := apply_rounds fuel initial_vel initial_acc targets l1
                reference filtered in
    match r with
    | Returned output => Ok (Returned output)
    | Next reference' filtered' =>
        apply_rounds fuel initial_vel initial_acc targets l2 reference'
          filtered'
    end.
Proof.
  revert reference filtered.
  induction l1 as [|i l1 IH]; intros reference filtered; [done|].
  cbn [app apply_rounds].
  destruct (apply_round _ _ _ _ i reference filtered)
    as [[output|reference' filtered']|e]; cbn [bind]; [done|apply IH|done].
Qed.

Lemma seq_split (i n : nat) :
  i < n -> seq 0 n = seq 0 i ++ i :: seq (Datatypes.S i) (n - Datatypes.S i).
Proof.
  intros Hi. replace n with (i + Datatypes.S (n - Datatypes.S i)) at 1 by lia.
  by rewrite seq_app.
Qed.

Lemma same_but_motion_base (input base : Trajectory) (i : nat)
  (b : TrajectoryPoint) :
  same_but_motion input base -> points base !! i = Some b ->
  exists a, points input !! i = Some a /\ erase_motion b = erase_motion a.
Proof.
  intros Hs Hb.
  destruct (lookup_lt_is_Some_2 (points input) i) as [a Ha].
  { rewrite <- (same_but_motion_length _ _ Hs). by eapply lookup_lt_Some. }
  destruct (same_but_motion_lookup _ _ _ _ Hs Ha) as (b' & Hb' & He).
  exists a. split; [done|]. congruence.
Qed.

Lemma forward_steps_within (params : Param)
  (input out : list TrajectoryPoint) (lo lo' hi hi' : nat) :
  lo <= lo' -> hi' <= hi -> forward_steps params input out lo hi ->
  forward_steps params input out lo' hi'.
Proof. intros Hlo Hhi H i o_prev o Hi. apply H. lia. Qed.

(** A forward pass that starts from the motion found at its start index
    (or, at index [0], from the initial motion) keeps the forward steps
    up to its start index and leaves forward steps after it. *)
Lemma forward_pass_steps (params : Param) (input base filt filt' : Trajectory)
  (s lo : nat) (v a initial_vel initial_acc : Q) :
  forward_bounds_valid params ->
  same_but_motion input base ->
  length (points filt) = length (points input) ->
  applyForwardJerkFilter base s v a params filt = Ok filt' ->
  forward_steps params (points input) (points filt) lo (Datatypes.S s) ->
  (s = 0 /\ v = initial_vel /\ a = initial_acc)
  \/ ((lo = 0 -> starts_with (points filt) initial_vel initial_acc)
      /\ exists p, points filt !! s = Some p
                   /\ twist_linear_x p = v /\ accel_linear_x p = a) ->
  length (points filt') = length (points input)
  /\ (lo = 0 -> starts_with (points filt') initial_vel initial_acc)
  /\ forward_steps params (points input) (points filt') lo
       (length (points input)).
Proof.
  intros Hvalid Hbase Hlf Hrun Hsteps Hstart.
  pose proof (same_but_motion_length _ _ Hbase) as Hlb.
  assert (Hs : s < length (points filt)).
  { unfold applyForwardJerkFilter in Hrun.
    apply bind_Ok in Hrun as (o & Ho%at_Ok & _). by eapply lookup_lt_Some. }
  destruct (applyForwardJerkFilter_spec base s v a params filt)
    as (out' & Hrun' & Hlen' & Hsame & (o & Ho & Hos) & Hchain); [done|lia|].
  rewrite Hrun' in Hrun. injection Hrun as <-.
  assert (Hpts : points (set_points filt out') = out') by (by destruct filt).
  rewrite Hpts. split; [lia|]. split.
  - intros Hlo.
    destruct Hstart as [(-> & -> & ->)|[Hfirst (p & Hp & Hv & Ha)]].
    + eexists. split; [exact Hos|]. done.
    + destruct (Hfirst Hlo) as (p0 & Hp0 & Hv0 & Ha0).
      destruct (decide (s = 0)) as [->|Hne].
      * eexists. split; [exact Hos|].
        rewrite twist_linear_x_set, accel_linear_x_set.
        assert (p = p0) by congruence. subst p. split; congruence.
      * exists p0. rewrite Hsame by lia. done.
  - intros i o_prev o_i Hi Hprev Hcur.
    destruct (lt_eq_lt_dec i s) as [[Hlt| ->]|Hgt].
    + rewrite Hsame in Hprev, Hcur by lia.
      apply (Hsteps i o_prev o_i); [lia|done|done].
    + destruct Hstart as [(? & _)|[_ (p & Hp & Hv & Ha)]]; [lia|].
      rewrite Hsame in Hprev by lia.
      rewrite Hos in Hcur. injection Hcur as <-.
      assert (o = p) as -> by congruence.
      destruct (Hsteps s o_prev p)
        as (a_prev & a_s & b_prev & b & ? & ? & ? & ? & Hstep);
        [lia|done|done|].
      exists a_prev, a_s, b_prev, b. repeat (split; [done|]).
      eapply forward_step_motion; [| |exact Hstep].
      * by rewrite twist_linear_x_set.
      * by rewrite accel_linear_x_set.
    + destruct (Hchain i)
        as (b_prev & b & o_prev' & o_old & Hb1 & Hb2 & Ho1 & _ & Ho2).
      { split; [lia|]. apply lookup_lt_Some in Hcur. lia. }
      destruct (same_but_motion_base _ _ _ _ Hbase Hb1) as (a_prev & ? & ?).
      destruct (same_but_motion_base _ _ _ _ Hbase Hb2) as (a_i & ? & ?).
      exists a_prev, a_i, b_prev, b. repeat (split; [done|]).
      assert (o_prev' = o_prev) as -> by congruence.
      assert (o_i = forward_point params b_prev b o_prev o_old) as ->
        by congruence.
      by apply forward_point_step.
Qed.

(** The start of the backward filter is the first point with the initial
    motion, or a point with the motion the filtered trajectory has
    there. *)
Lemma search_bwd_start_value (targets : list (nat * Q))
  (filtered : Trajectory) (initial_vel initial_acc : Q) (j : nat)
  (bwd_start_index : nat) (bwd_start_vel bwd_start_acc : Q) :
  search_bwd_start targets filtered initial_vel initial_acc j
  = Ok (bwd_start_index, bwd_start_vel, bwd_start_acc) ->
  (bwd_start_index = 0 /\ bwd_start_vel = initial_vel
   /\ bwd_start_acc = initial_acc)
  \/ exists p, points filtered !! bwd_start_index = Some p
               /\ twist_linear_x p = bwd_start_vel
               /\ accel_linear_x p = bwd_start_acc.
Proof.
  induction j as [|j IH]; cbn [search_bwd_start].
  - intros [= <- <- <-]. by left.
  - intros H. apply bind_Ok in H as (before & _ & H).
    apply bind_Ok in H as (this & _ & H).
    destruct (Qltb _ _); [|by apply IH].
    apply bind_Ok in H as (p & Hp%at_Ok & [= <- <- <-]).
    right. by exists p.
Qed.

Lemma forward_built_all (params : Param) (initial_vel initial_acc : Q)
  (input out : list TrajectoryPoint) (lo : nat) :
  length out = length input ->
  (lo = 0 -> starts_with out initial_vel initial_acc) ->
  forward_steps params input out lo (length input) ->
  forward_built params initial_vel initial_acc input out lo (length input).
Proof.
  intros Hlen Hstart Hsteps. split; [lia|]. split; [by intros ? _; auto|].
  split; [done|].
  intros i o Hi Ho. apply lookup_lt_Some in Ho. lia.
Qed.

(** The cap to the velocity [0] from [bwd_start_index] to the end. *)
Lemma zero_cap_stops (filtered output : Trajectory) (bwd_start_index : nat)
  (b : bool) :
  bwd_start_index < length (points filtered) ->
  applyMaxVelocity 0 bwd_start_index (length (points filtered) - 1) filtered
  = Ok (b, output) ->
  length (points output) = length (points filtered)
  /\ (forall i, i < bwd_start_index ->
        points output !! i = points filtered !! i)
  /\ stopped_from (points output) bwd_start_index.
Proof.
  intros Hb Hcap.
  destruct (applyMaxVelocity_inside 0 bwd_start_index
              (length (points filtered) - 1) filtered)
    as (pts' & Hrun & Hlen & Hpts); [lia|lia|].
  rewrite Hrun in Hcap. injection Hcap as _ <-.
  assert (E : points (set_points filtered pts') = pts')
    by (by destruct filtered).
  rewrite E. split; [done|]. split.
  - intros i Hi. rewrite Hpts.
    replace (bwd_start_index <=? i) with false
      by (symmetry; apply Nat.leb_gt; lia).
    done.
  - intros i o Hi Ho.
    assert (Hin : i < length (points filtered)).
    { rewrite <- Hlen. by eapply lookup_lt_Some. }
    rewrite Hpts in Ho.
    replace (bwd_start_index <=? i) with true in Ho
      by (symmetry; apply Nat.leb_le; lia).
    replace (i <=? length (points filtered) - 1) with true in Ho
      by (symmetry; apply Nat.leb_le; lia).
    simpl in Ho. destruct (points filtered !! i) as [p|]; [|done].
    injection Ho as <-. unfold capped.
    rewrite twist_linear_x_set, accel_linear_x_set.
    split; [apply std_min_le_r|done].
Qed.

Lemma zero_cap_built (params : Param) (initial_vel initial_acc : Q)
  (input filtered output : Trajectory) (bwd_start_index : nat) (b : bool) :
  length (points filtered) = length (points input) ->
  bwd_start_index < length (points filtered) ->
  starts_with (points filtered) initial_vel initial_acc ->
  forward_steps params (points input) (points filtered) 0
    (length (points input)) ->
  applyMaxVelocity 0 bwd_start_index (length (points filtered) - 1) filtered
  = Ok (b, output) ->
  length (points output) = length (points input)
  /\ forward_built params initial_vel initial_acc (points input)
       (points output) 0 bwd_start_index.
Proof.
  intros Hlf Hb Hstart Hsteps Hcap.
  destruct (zero_cap_stops filtered output bwd_start_index b Hb Hcap)
    as (Hlen & Hout & Hstop).
  split; [lia|]. split; [lia|]. split; [|split; [|done]].
  - intros _ Hgt. destruct Hstart as (p & Hp & Hv & Ha).
    exists p. rewrite Hout by lia. done.
  - intros i o_prev o Hi Hprev Hcur.
    rewrite Hout in Hprev, Hcur by lia.
    apply (Hsteps i o_prev o); [|done|done].
    apply lookup_lt_Some in Hcur. lia.
Qed.

(** One round of the loop over the targets in which no deceleration
    profile is written: [apply] returns with the cap to the velocity
    [0], or the loop goes on with forward steps everywhere. *)
Lemma apply_round_steps (fuel : nat) (initial_vel initial_acc : Q)
  (targets : list (nat * Q)) (i : nat)
  (input reference filtered : Trajectory) (r : round) :
  forward_bounds_valid smoother_param_ ->
  targets_within (length (points input)) targets ->
  StronglySorted index_lt targets ->
  same_but_motion input reference ->
  length (points filtered) = length (points input) ->
  i = 0
  \/ (starts_with (points filtered) initial_vel initial_acc
      /\ forward_steps smoother_param_ (points input) (points filtered) 0
           (length (points input))) ->
  (forall bwd bv ba target ok filtered',
     round_backward fuel initial_vel initial_acc targets i reference
       filtered = Ok (bwd, bv, ba, target, ok, filtered') ->
     ok = false
     /\ round_forward initial_vel initial_acc targets i reference filtered
        = Ok filtered') ->
  apply_round fuel initial_vel initial_acc targets i reference filtered
  = Ok r ->
  match r with
  | Returned output =>
      length (points output) = length (points input)
      /\ exists cap_start,
           forward_built smoother_param_ initial_vel initial_acc
             (points input) (points output) 0 cap_start
  | Next reference' filtered' =>
      same_but_motion input reference'
      /\ length (points filtered') = length (points input)
      /\ starts_with (points filtered') initial_vel initial_acc
      /\ forward_steps smoother_param_ (points input) (points filtered') 0
           (length (points input))
  end.
Proof.
  intros Hvalid Hw Hsorted Href Hlf Hinv Hclean Hround.
  unfold apply_round in Hround.
  apply bind_Ok in Hround
      as ([[[[[bwd bv] ba] target] ok] filtered2] & Hback & Hround).
  destruct (Hclean _ _ _ _ _ _ Hback) as [-> Hforward].
  assert (Hn : 1 <= length (points input)).
  { unfold round_forward in Hforward.
    apply bind_Ok in Hforward as ([[fwd fv] fa] & _ & Hpass).
    unfold applyForwardJerkFilter in Hpass.
    apply bind_Ok in Hpass as (o & Ho%at_Ok & _).
    apply lookup_lt_Some in Ho. lia. }
  destruct (round_backward_inv _ _ _ _ _ _ _ _ _ _ _ _ _ _ Hn Hlf Hw Hsorted
              Hback) as (Htarget & Hle & Hlt & Hlf2).
  assert (Hsearch : search_bwd_start targets filtered2 initial_vel
                      initial_acc i = Ok (bwd, bv, ba)).
  { unfold round_backward in Hback.
    apply bind_Ok in Hback as ([[fwd fv] fa] & Hfwd & Hback).
    apply bind_Ok in Hback as (filtered1 & Hpass & Hback).
    unfold round_forward in Hforward. rewrite Hfwd in Hforward.
    cbn [bind] in Hforward. rewrite Hpass in Hforward.
    injection Hforward as ->.
    apply bind_Ok in Hback as ([[bwd' bv'] ba'] & Hsearch & Hback).
    apply bind_Ok in Hback as (target' & _ & Hback).
    apply bind_Ok in Hback as ([ok' filtered2'] & _ & Hback).
    by injection Hback as -> -> -> _ _ _. }
  unfold round_forward in Hforward.
  apply bind_Ok in Hforward as ([[fwd fv] fa] & Hfwd & Hpass).
  assert (Hpass1 :
            length (points filtered2) = length (points input)
            /\ (0 = 0 -> starts_with (points filtered2) initial_vel
                           initial_acc)
            /\ forward_steps smoother_param_ (points input)
                 (points filtered2) 0 (length (points input))).
  { apply (forward_pass_steps smoother_param_ input reference filtered
             filtered2 fwd 0 fv fa); try done.
    - destruct i as [|i'].
      + injection Hfwd as <- <- <-. intros k o_prev o Hk.
        unfold closest_index in Hk. lia.
      + destruct Hinv as [?|[_ Hsteps]]; [done|].
        eapply forward_steps_within; [| |exact Hsteps]; [lia|].
        apply bind_Ok in Hfwd as (before & _ & Hfwd).
        apply bind_Ok in Hfwd as (p & Hp%at_Ok & [= <- <- <-]).
        apply lookup_lt_Some in Hp. lia.
    - destruct i as [|i'].
      + injection Hfwd as <- <- <-. by left.
      + destruct Hinv as [?|[Hstart _]]; [done|]. right. split; [done|].
        apply bind_Ok in Hfwd as (before & _ & Hfwd).
        apply bind_Ok in Hfwd as (p & Hp%at_Ok & [= <- <- <-]).
        by exists p. }
  destruct Hpass1 as (_ & Hstart1 & Hsteps1).
  specialize (Hstart1 eq_refl).
  cbn [negb] in Hround. unfold round_fallback in Hround.
  destruct (Qltb _ _).
  - apply bind_Ok in Hround as ([b output] & Hcap & [= <-]).
    destruct (zero_cap_built smoother_param_ initial_vel initial_acc input
                filtered2 output bwd b) as [Hlo Hbuilt];
      [done|lia|done|done|done|].
    split; [done|]. by exists bwd.
  - apply bind_Ok in Hround as ([b reference'] & Hcap & Hround).
    apply bind_Ok in Hround as (filtered' & Hpass' & [= <-]).
    assert (Href' : same_but_motion input reference').
    { eapply same_but_motion_trans; [exact Href|].
      by eapply applyMaxVelocity_same_but_motion. }
    split; [done|].
    destruct (forward_pass_steps smoother_param_ input reference' filtered2
                filtered' bwd 0 bv ba initial_vel initial_acc)
      as (Hl' & Hs' & Hsteps'); try done.
    + eapply forward_steps_within; [| |exact Hsteps1]; lia.
    + apply search_bwd_start_value in Hsearch
          as [(-> & -> & ->)|(p & Hp & Hv & Ha)]; [by left|].
      right. split; [done|]. by exists p.
    + split; [done|]. split; [by apply Hs'|done].
Qed.

(** The rounds from round [i] on, in a run that writes no deceleration
    profile. *)
Lemma apply_rounds_steps (fuel : nat) (initial_vel initial_acc : Q)
  (targets : list (nat * Q)) (input : Trajectory) (k : nat) :
  forward_bounds_valid smoother_param_ ->
  targets_within (length (points input)) targets ->
  StronglySorted index_lt targets ->
  (forall i reference filtered bwd bv ba target ok filtered',
     apply_rounds fuel initial_vel initial_acc targets (seq 0 i) input
       input = Ok (Next reference filtered) ->
     round_backward fuel initial_vel initial_acc targets i reference
       filtered = Ok (bwd, bv, ba, target, ok, filtered') ->
     ok = false
     /\ round_forward initial_vel initial_acc targets i reference filtered
        = Ok filtered') ->
  forall (i : nat) (reference filtered : Trajectory) (r : round),
    apply_rounds fuel initial_vel initial_acc targets (seq 0 i) input input
    = Ok (Next reference filtered) ->
    same_but_motion input reference ->
    length (points filtered) = length (points input) ->
    i = 0
    \/ (starts_with (points filtered) initial_vel initial_acc
        /\ forward_steps smoother_param_ (points input) (points filtered) 0
             (length (points input))) ->
    apply_rounds fuel initial_vel initial_acc targets
      (seq i (Datatypes.S k)) reference filtered = Ok r ->
    match r with
    | Returned output =>
        length (points output) = length (points input)
        /\ exists cap_start,
             forward_built smoother_param_ initial_vel initial_acc
               (points input) (points output) 0 cap_start
    | Next reference' filtered' =>
        same_but_motion input reference'
        /\ length (points filtered') = length (points input)
        /\ starts_with (points filtered') initial_vel initial_acc
        /\ forward_steps smoother_param_ (points input) (points filtered') 0
             (length (points input))
    end.
Proof.
  intros Hvalid Hw Hsorted Hclean.
  induction k as [|k IH]; intros i reference filtered r Hreach Href Hlf
    Hinv; cbn [seq apply_rounds]; intros H;
    apply bind_Ok in H as (r1 & Hround & H);
    pose proof (apply_round_steps fuel initial_vel initial_acc targets i
                  input reference filtered r1 Hvalid Hw Hsorted Href Hlf
                  Hinv (fun bwd bv ba target ok filtered' =>
                          Hclean i reference filtered bwd bv ba target ok
                            filtered' Hreach)
                  Hround) as Hr1;
    destruct r1 as [output|reference' filtered'];
    try (by injection H as <-).
  destruct Hr1 as (Href' & Hlf' & Hstart' & Hsteps').
  apply (IH (Datatypes.S i) reference' filtered' r); try done.
  - replace (seq 0 (Datatypes.S i)) with (seq 0 i ++ [i])
      by (by rewrite seq_S).
    rewrite apply_rounds_app, Hreach. cbn [bind apply_rounds].
    by rewrite Hround.
  - by right.
Qed.

(** *** After the last deceleration target *)

Lemma sorted_last_index (targets : list (nat * Q)) (t tl : nat * Q) :
  StronglySorted index_lt targets -> last targets = Some tl ->
  t ∈ targets -> t.1 <= tl.1.
Proof.
  intros Hsorted. revert tl.
  induction Hsorted as [|t0 ts Hsorted IH Hall]; intros tl Hlast Ht.
  - by apply elem_of_nil in Ht.
  - destruct ts as [|t1 ts'].
    + simpl in Hlast. injection Hlast as <-.
      apply elem_of_cons in Ht as [->|Ht]; [done|].
      by apply elem_of_nil in Ht.
    + change (last (t0 :: t1 :: ts')) with (last (t1 :: ts')) in Hlast.
      apply elem_of_cons in Ht as [->|Ht]; [|by apply IH].
      assert (Hin : tl ∈ t1 :: ts').
      { apply last_Some in Hlast as [l' ->].
        apply elem_of_app. right. by left. }
      rewrite Forall_forall in Hall. specialize (Hall tl Hin).
      unfold index_lt in Hall. lia.
Qed.

(** Whatever the rounds write, a round that returns has capped the
    velocity to [0] from an index that is at most the index of its
    target; a round that goes on leaves a reference trajectory that is
    the input but for its velocities and accelerations. *)
Lemma apply_rounds_cap (fuel : nat) (initial_vel initial_acc : Q)
  (targets : list (nat * Q)) (input : Trajectory) (rest : list nat) :
  1 <= length (points input) ->
  targets_within (length (points input)) targets ->
  StronglySorted index_lt targets ->
  forall (reference filtered : Trajectory) (r : round),
    same_but_motion input reference ->
    length (points filtered) = length (points input) ->
    apply_rounds fuel initial_vel initial_acc targets rest reference
      filtered = Ok r ->
    match r with
    | Returned output =>
        length (points output) = length (points input)
        /\ exists cap_start target,
             target ∈ targets /\ cap_start <= target.1
             /\ stopped_from (points output) cap_start
    | Next reference' filtered' =>
        same_but_motion input reference'
        /\ length (points filtered') = length (points input)
    end.
Proof.
  intros Hn Hw Hsorted.
  induction rest as [|i rest IH]; intros reference filtered r Href Hlf;
    cbn [apply_rounds].
  - by intros [= <-].
  - intros H. apply bind_Ok in H as (r1 & Hround & H).
    unfold apply_round in Hround.
    apply bind_Ok in Hround
        as ([[[[[bwd bv] ba] target] ok] filtered2] & Hback & Hround).
    destruct (round_backward_inv _ _ _ _ _ _ _ _ _ _ _ _ _ _ Hn Hlf Hw
                Hsorted Hback) as (Htarget & Hle & Hlt & Hlf2).
    destruct ok; cbn [negb] in Hround.
    + injection Hround as <-. by apply (IH reference filtered2 r).
    + unfold round_fallback in Hround. destruct (Qltb _ _).
      * apply bind_Ok in Hround as ([b output] & Hcap & [= <-]).
        injection H as <-.
        destruct (zero_cap_stops filtered2 output bwd b) as (Hlen & _ & Hstop);
          [lia|done|].
        split; [lia|]. exists bwd, target.
        split; [by eapply list_elem_of_lookup_2|done].
      * apply bind_Ok in Hround as ([b reference'] & Hcap & Hround).
        apply bind_Ok in Hround as (filtered' & Hpass' & [= <-]).
        apply (IH reference' filtered' r); [| |done].
        -- eapply same_but_motion_trans; [exact Href|].
           by eapply applyMaxVelocity_same_but_motion.
        -- apply applyForwardJerkFilter_length in Hpass'. lia.
Qed.

(** C1, as amended.  The trajectory [apply] returns for a non-empty
    input is built by forward steps.  A forward step gives point [i]
    the acceleration [a_(i-1) + limited_jerk * dt_i], with
    [dt_i = ds_i / max(v_(i-1), 1.0)], a jerk [limited_jerk] clamped to
    [[min_jerk, max_jerk]] and computed towards an acceleration clamped
    to [[min_acc, max_acc]]: the bounds are kept by the two clamped
    values, and the sum that is stored as the acceleration is not
    clamped again.
    - When the run writes no deceleration profile, the first point
      carries the initial velocity and acceleration and every later
      point is a forward step, up to the index at which a cap to the
      velocity [0] starts; from there on every acceleration is [0].
    - In every run, the points after the last deceleration target are
      forward steps, up to the index at which such a cap starts. *)
Theorem apply_builds_forward_steps (fuel : nat)
  (initial_vel initial_acc : Q) (input output output' : Trajectory)
  (b : bool) :
  forward_bounds_valid smoother_param_ ->
  points input <> [] ->
  apply fuel initial_vel initial_acc input output = Ok (b, output') ->
  b = true
  /\ length (points output') = length (points input)
  /\ (writes_no_profile fuel initial_vel initial_acc input ->
      exists cap_start,
        forward_built smoother_param_ initial_vel initial_acc
          (points input) (points output') 0 cap_start)
  /\ (forall targets target,
        searchDecelTargetIndices input closest_index [] = Ok targets ->
        last targets = Some target ->
        exists cap_start,
          forward_built smoother_param_ initial_vel initial_acc
            (points input) (points output') target.1 cap_start).
Proof.
  intros Hvalid Hne Hrun.
  pose proof (apply_outcome fuel initial_vel initial_acc input output Hne)
    as Hout.
  rewrite Hrun in Hout. destruct Hout as [Hb Hlen]. simpl in Hb, Hlen.
  split; [done|]. split; [done|].
  unfold apply in Hrun.
  destruct (points input) as [|p0 [|p1 rest]] eqn:Epts; [done| |].
  - injection Hrun as _ <-.
    assert (E : points
                  (set_points input
                     [set_accel_linear_x
                        (set_twist_linear_x p0 initial_vel) initial_acc])
                = [set_accel_linear_x
                     (set_twist_linear_x p0 initial_vel) initial_acc])
      by (by destruct input).
    rewrite E. split.
    + intros _. exists 1.
      split; [simpl; lia|]. split; [|split].
      * intros _ _. eexists. split; [reflexivity|].
        by rewrite twist_linear_x_set, accel_linear_x_set.
      * intros i o_prev o Hi. lia.
      * intros i o Hi Ho. apply lookup_lt_Some in Ho. simpl in Ho. lia.
    + intros targets target Hsearch.
      apply searchDecelTargetIndices_Ok_length in Hsearch.
      rewrite Epts in Hsearch. simpl in Hsearch. lia.
  - assert (Hn : 2 <= length (points input)) by (rewrite Epts; simpl; lia).
    rewrite <- Epts in *. clear Epts Hne p0 p1 rest.
    rewrite searchDecelTargetIndices_spec in Hrun |- * by done.
    cbn [bind] in Hrun.
    pose proof (spec_decel_targets_within (points input) closest_index)
      as Hw.
    pose proof (spec_decel_targets_sorted (points input) closest_index)
      as Hsorted.
    set (targets := spec_decel_targets (points input) closest_index) in *.
    apply bind_Ok in Hrun as (r & Hrounds & Hrun).
    split.
    + intros Hclean.
      assert (Hclean' :
        forall i reference filtered bwd bv ba target ok filtered',
          apply_rounds fuel initial_vel initial_acc targets (seq 0 i) input
            input = Ok (Next reference filtered) ->
          round_backward fuel initial_vel initial_acc targets i reference
            filtered = Ok (bwd, bv, ba, target, ok, filtered') ->
          ok = false
          /\ round_forward initial_vel initial_acc targets i reference
               filtered = Ok filtered').
      { intros i reference filtered bwd bv ba target ok filtered'.
        apply Hclean. by rewrite searchDecelTargetIndices_spec. }
      assert (Hr :
        match r with
        | Returned out =>
            exists cap_start,
              forward_built smoother_param_ initial_vel initial_acc
                (points input) (points out) 0 cap_start
        | Next reference filtered =>
            same_but_motion input reference
            /\ length (points filtered) = length (points input)
            /\ (targets = []
                \/ (starts_with (points filtered) initial_vel initial_acc
                    /\ forward_steps smoother_param_ (points input)
                         (points filtered) 0 (length (points input))))
        end).
      { destruct (length targets) as [|k] eqn:Ek.
        - apply length_zero_iff_nil in Ek. simpl in Hrounds.
          injection Hrounds as <-.
          split; [apply same_but_motion_refl|]. split; [done|by left].
        - pose proof (apply_rounds_steps fuel initial_vel initial_acc
                        targets input k Hvalid Hw Hsorted Hclean' 0 input
                        input r eq_refl (same_but_motion_refl input)
                        eq_refl (or_introl eq_refl) Hrounds) as Hr.
          destruct r as [out|reference filtered]; [by destruct Hr|].
          destruct Hr as (? & ? & ? & ?). split; [done|].
          split; [done|]. by right. }
      destruct r as [out|reference filtered].
      * injection Hrun as _ <-. done.
      * destruct Hr as (Href & Hlf & Hinv).
        apply bind_Ok in Hrun as ([[s v] a] & Hlast & Hrun).
        apply bind_Ok in Hrun as (filtered' & Hpass & [= _ <-]).
        exists (length (points input)).
        destruct (forward_pass_steps smoother_param_ input reference
                    filtered filtered' s 0 v a initial_vel initial_acc)
          as (Hl' & Hstart' & Hsteps'); try done.
        { destruct Hinv as [->|[_ Hsteps]].
          - injection Hlast as <- <- <-. intros i o_prev o Hi.
            unfold closest_index in Hi. lia.
          - eapply forward_steps_within; [| |exact Hsteps]; [lia|].
            unfold applyForwardJerkFilter in Hpass.
            apply bind_Ok in Hpass as (o & Ho%at_Ok & _).
            apply lookup_lt_Some in Ho. lia. }
        { destruct Hinv as [->|[Hstart _]].
          - injection Hlast as <- <- <-. by left.
          - right. split; [done|].
            destruct targets as [|t ts]; [by injection Hlast as <- <- <-|].
            apply bind_Ok in Hlast as (back & _ & Hlast).
            apply bind_Ok in Hlast as (p & Hp%at_Ok & [= <- <- <-]).
            by exists p. }
        apply forward_built_all; [done|done|done].
    + intros targets' target [= <-] Hlast.
      assert (Hin : target ∈ targets).
      { apply last_Some in Hlast as [l' ->].
        apply elem_of_app. right. by left. }
      assert (Hpos : 1 <= target.1).
      { unfold targets_within in Hw. rewrite Forall_forall in Hw.
        by apply Hw. }
      pose proof (apply_rounds_cap fuel initial_vel initial_acc targets
                    input (seq 0 (length targets)) ltac:(lia) Hw Hsorted
                    input input r (same_but_motion_refl input) eq_refl
                    Hrounds) as Hr.
      destruct r as [out|reference filtered].
      * injection Hrun as _ <-.
        destruct Hr as (Hlo & cap_start & t & Ht & Hcap & Hstop).
        pose proof (sorted_last_index targets t target Hsorted Hlast Ht)
          as Hlt.
        exists cap_start. split; [|split; [|split; [|done]]].
        -- unfold targets_within in Hw. rewrite Forall_forall in Hw.
           specialize (Hw t Ht). simpl in Hw. lia.
        -- intros ?. lia.
        -- intros i o_prev o Hi. lia.
      * destruct Hr as (Href & Hlf).
        destruct targets as [|t ts] eqn:Et; [done|]. rewrite <- Et in *.
        apply bind_Ok in Hrun as ([[s v] a] & Hback & Hrun).
        apply bind_Ok in Hrun as (filtered' & Hpass & [= _ <-]).
        assert (Hs : s = target.1 /\ exists p,
                       points filtered !! s = Some p
                       /\ twist_linear_x p = v /\ accel_linear_x p = a).
        { rewrite Et in Hback. rewrite <- Et in Hback.
          apply bind_Ok in Hback as (back & Hbk%at_Ok & Hback).
          apply bind_Ok in Hback as (p & Hp%at_Ok & [= <- <- <-]).
          rewrite last_lookup in Hlast.
          replace (Init.Nat.pred (length targets))
            with (length targets - 1) in Hlast by lia.
          assert (back = target) as -> by congruence.
          split; [done|]. by exists p. }
        destruct Hs as [-> Hp].
        exists (length (points input)).
        destruct (forward_pass_steps smoother_param_ input reference
                    filtered filtered' target.1 target.1 v a initial_vel
                    initial_acc) as (Hl' & Hstart' & Hsteps'); try done.
        { intros i o_prev o Hi. lia. }
        { right. split; [intros ?; lia|done]. }
        apply forward_built_all; [done|intros ?; lia|done].
Qed.


(** ** The fallback of apply

    A round of the loop over the targets whose call of
    [applyBackwardDecelFilter] has returned [false]. *)
Lemma apply_round_after_failure (fuel : nat) (initial_vel initial_acc : Q)
  (targets : list (nat * Q)) (i n : nat) (reference filtered : Trajectory)
  (bwd_start_index : nat) (bwd_start_vel bwd_start_acc : Q)
  (target : nat * Q) (filtered' : Trajectory) :
  1 <= n -> length (points reference) = n -> length (points filtered) = n ->
  targets_within n targets -> StronglySorted index_lt targets ->
  round_backward fuel initial_vel initial_acc targets i reference filtered
  = Ok (bwd_start_index, bwd_start_vel, bwd_start_acc, target, false,
        filtered') ->
  ((std_abs target.2 < 0.001)%Q ->
   exists pts',
     apply_round fuel initial_vel initial_acc targets i reference filtered
     = Ok (Returned (set_points filtered' pts'))
     /\ length pts' = n
     /\ forall k p,
          points filtered' !! k = Some p ->
          pts' !! k = Some (if bwd_start_index <=? k then capped 0 p else p))
  /\ (~ (std_abs target.2 < 0.001)%Q ->
      exists reference_pts' filtered'',
        apply_round fuel initial_vel initial_acc targets i reference filtered
        = Ok (Next (set_points reference reference_pts') filtered'')
        /\ (forall k p,
              points reference !! k = Some p ->
              reference_pts' !! k
              = Some (if (bwd_start_index <=? k) && (k <=? target.1)
                      then capped target.2 p else p))
        /\ applyForwardJerkFilter (set_points reference reference_pts')
             bwd_start_index bwd_start_vel bwd_start_acc smoother_param_
             filtered' = Ok filtered''
        /\ length (points filtered'') = n).
Proof.
  intros Hn Hr Hf Hw Hsorted Hback.
  destruct (round_backward_inv _ _ _ _ _ _ _ _ _ _ _ _ _ _ Hn Hf Hw Hsorted
              Hback) as (Htarget & Hle & Hlt & Hf').
  unfold apply_round. rewrite Hback. simpl. unfold round_fallback.
  split.
  - intros Hsmall. apply Qltb_lt in Hsmall. rewrite Hsmall.
    destruct (applyMaxVelocity_inside 0 bwd_start_index
                (length (points filtered') - 1) filtered')
      as (pts' & -> & Hlen & Hpts); [lia|lia|].
    simpl. exists pts'. split; [done|]. split; [lia|].
    intros k p Hp. rewrite Hpts, Hp.
    replace (k <=? length (points filtered') - 1) with true.
    + rewrite andb_true_r. by destruct (bwd_start_index <=? k).
    + symmetry. apply Nat.leb_le. apply lookup_lt_Some in Hp. lia.
  - intros Hbig.
    replace (Qltb (std_abs target.2) 0.001) with false
      by (symmetry; apply Qltb_ge; lra).
    destruct (applyMaxVelocity_inside target.2 bwd_start_index target.1
                reference) as (pts' & -> & Hlen & Hpts); [lia|lia|].
    simpl bind.
    destruct (applyForwardJerkFilter_total (set_points reference pts')
                bwd_start_index bwd_start_vel bwd_start_acc smoother_param_
                filtered') as (filtered'' & Hfwd & Hlen'');
      [lia|simpl; lia|].
    rewrite Hfwd. simpl. exists pts', filtered''.
    split; [done|]. split; [|split; [done|lia]].
    intros k p Hp. rewrite Hpts, Hp.
    by destruct ((bwd_start_index <=? k) && (k <=? target.1)).
Qed.

(** [apply] on an input of two points or more. *)
Lemma apply_long (fuel : nat) (initial_vel initial_acc : Q)
  (input output : Trajectory) :
  2 <= length (points input) ->
  apply fuel initial_vel initial_acc input output
  = let* decel_target_indices :=
      searchDecelTargetIndices input closest_index [] in
    let* r := apply_rounds fuel initial_vel initial_acc decel_target_indices
                (seq 0 (length decel_target_indices)) input input in
    match r with
    | Returned output => Ok (true, output)
    | Next reference_trajectory filtered_trajectory =>
        let* (start_index, start_vel, start_acc) :=
          match decel_target_indices with
          | [] => Ok (closest_index, initial_vel, initial_acc)
          | _ :: _ =>
              let* back :=
                at_ decel_target_indices
                  (length decel_target_indices - 1) in
              let* p := at_ (points filtered_trajectory) back.1 in
              Ok (back.1, twist_linear_x p, accel_linear_x p)
          end in
        let* filtered_trajectory :=
          applyForwardJerkFilter reference_trajectory start_index start_vel
            start_acc smoother_param_ filtered_trajectory in
        Ok (true, filtered_trajectory)
    end.
Proof.
  intros Hn. unfold apply.
  destruct (points input) as [|p0 [|p1 rest]];
    [simpl in Hn; lia|simpl in Hn; lia|done].
Qed.

(** C3.  When the loop of [apply] over the deceleration targets has
    reached target [i] and [applyBackwardDecelFilter] returns [false]
    for it, [apply] does not fail: it does not throw and does not
    return [false] (it returns [true], unless a later scan of the
    planning jerks goes on for ever).  When the magnitude of the target
    velocity is below [0.001], [apply] returns [true] with the filtered
    trajectory in which every point from the backward start index to
    the end has its velocity capped to [0] (and its acceleration set to
    [0]).  Otherwise the reference trajectory has the velocities from
    the backward start index to the target index capped to the target
    velocity, the forward jerk filter is run again from the backward
    start index, and the loop goes on to the next target with these two
    trajectories. *)
Theorem apply_fallback (fuel : nat) (initial_vel initial_acc : Q)
  (input output : Trajectory) (targets : list (nat * Q)) (i : nat)
  (reference filtered : Trajectory) (bwd_start_index : nat)
  (bwd_start_vel bwd_start_acc : Q) (target : nat * Q)
  (filtered' : Trajectory) :
  2 <= length (points input) ->
  searchDecelTargetIndices input closest_index [] = Ok targets ->
  i < length targets ->
  apply_rounds fuel initial_vel initial_acc targets (seq 0 i) input input
  = Ok (Next reference filtered) ->
  round_backward fuel initial_vel initial_acc targets i reference filtered
  = Ok (bwd_start_index, bwd_start_vel, bwd_start_acc, target, false,
        filtered') ->
  targets !! i = Some target
  /\ ((exists output',
         apply fuel initial_vel initial_acc input output
         = Ok (true, output'))
      \/ apply fuel initial_vel initial_acc input output = Fail timeout)
  /\ ((std_abs target.2 < 0.001)%Q ->
      exists pts',
        apply fuel initial_vel initial_acc input output
        = Ok (true, set_points filtered' pts')
        /\ length pts' = length (points input)
        /\ forall k p,
             points filtered' !! k = Some p ->
             pts' !! k
             = Some (if bwd_start_index <=? k then capped 0 p else p))
  /\ (~ (std_abs target.2 < 0.001)%Q ->
      exists reference_pts' filtered'',
        (forall k p,
           points reference !! k = Some p ->
           reference_pts' !! k
           = Some (if (bwd_start_index <=? k) && (k <=? target.1)
                   then capped target.2 p else p))
        /\ applyForwardJerkFilter (set_points reference reference_pts')
             bwd_start_index bwd_start_vel bwd_start_acc smoother_param_
             filtered' = Ok filtered''
        /\ length (points filtered'') = length (points input)
        /\ apply_rounds fuel initial_vel initial_acc targets
             (seq 0 (Datatypes.S i)) input input
           = Ok (Next (set_points reference reference_pts') filtered'')
        /\ apply_rounds fuel initial_vel initial_acc targets
             (seq 0 (length targets)) input input
           = apply_rounds fuel initial_vel initial_acc targets
               (seq (Datatypes.S i) (length targets - Datatypes.S i))
               (set_points reference reference_pts') filtered'').
Proof.
  intros Hn Hsearch Hi Hreach Hback.
  rewrite searchDecelTargetIndices_spec in Hsearch by done.
  injection Hsearch as Htargets.
  pose proof (spec_decel_targets_within (points input) closest_index) as Hw.
  pose proof (spec_decel_targets_sorted (points input) closest_index)
    as Hsorted.
  rewrite Htargets in Hw, Hsorted.
  set (n := length (points input)) in *.
  assert (H1 : 1 <= n) by lia.
  pose proof (apply_rounds_outcome fuel initial_vel initial_acc targets
                (seq 0 i) n input input H1 eq_refl eq_refl Hw)
    as Hwithin.
  rewrite Hreach in Hwithin.
  destruct Hwithin as [Hr Hf].
  { apply Forall_forall. intros k Hk%elem_of_seq. lia. }
  destruct (apply_round_after_failure fuel initial_vel initial_acc targets i
              n reference filtered bwd_start_index bwd_start_vel
              bwd_start_acc target filtered' H1 Hr Hf Hw Hsorted
              Hback) as [Hzero Hother].
  destruct (round_backward_inv _ _ _ _ _ _ _ _ _ _ _ _ _ _ H1 Hf Hw
              Hsorted Hback) as (Htarget & _).
  split; [done|].
  split.
  { assert (Hne : points input <> []).
    { intros Hnil. unfold n in H1. rewrite Hnil in H1. simpl in H1. lia. }
    pose proof (apply_outcome fuel initial_vel initial_acc input output Hne)
      as Hout.
    apply no_throw_cases in Hout as [([b o] & Hrun & Hb & _)|Hstall];
      [|by right].
    simpl in Hb. subst b. left. by exists o. }
  assert (Hrounds : forall r,
             apply_round fuel initial_vel initial_acc targets i reference
               filtered = Ok r ->
             apply_rounds fuel initial_vel initial_acc targets
               (seq 0 (Datatypes.S i)) input input
             = match r with
               | Returned o => Ok (Returned o)
               | Next r' f' => Ok (Next r' f')
               end).
  { intros r Hround.
    replace (seq 0 (Datatypes.S i)) with (seq 0 i ++ [i])
      by (by rewrite seq_S).
    rewrite apply_rounds_app, Hreach. cbn [bind apply_rounds].
    rewrite Hround. cbn [bind]. by destruct r. }
  assert (Hall : forall r,
             apply_round fuel initial_vel initial_acc targets i reference
               filtered = Ok r ->
             apply_rounds fuel initial_vel initial_acc targets
               (seq 0 (length targets)) input input
             = match r with
               | Returned o => Ok (Returned o)
               | Next r' f' =>
                   apply_rounds fuel initial_vel initial_acc targets
                     (seq (Datatypes.S i) (length targets - Datatypes.S i))
                     r' f'
               end).
  { intros r Hround. rewrite (seq_split i (length targets)) by done.
    rewrite apply_rounds_app, Hreach. cbn [bind apply_rounds].
    rewrite Hround. cbn [bind]. by destruct r. }
  split.
  - intros Hsmall. destruct (Hzero Hsmall) as (pts' & Hround & Hlen & Hpts).
    exists pts'. split; [|split; [done|done]].
    rewrite apply_long by done.
    rewrite searchDecelTargetIndices_spec by done.
    rewrite Htargets. cbn [bind].
    rewrite (Hall _ Hround). done.
  - intros Hbig.
    destruct (Hother Hbig)
      as (reference_pts' & filtered'' & Hround & Hpts & Hpass & Hlen).
    exists reference_pts', filtered''.
    split; [done|]. split; [done|]. split; [done|].
    split; [by rewrite (Hrounds _ Hround)|by rewrite (Hall _ Hround)].
Qed.

(** ** The guard of applyMaxVelocity *)


(** ** More on applyForwardJerkFilter *)

Lemma foldM_app {S : Type} (body : nat -> S -> result S) (l1 l2 : list nat)
  (s : S) :
  foldM body (l1 ++ l2) s = bind (foldM body l1 s) (foldM body l2).
Proof.
  revert s. induction l1 as [|i l1 IH]; intros s; [done|].
  simpl. destruct (body i s); simpl; [apply IH|done].
Qed.

Lemma for_range_split {S : Type} (lo k hi : nat)
  (body : nat -> S -> result S) (s : S) :
  lo <= k -> k <= hi ->
  for_range lo hi body s = bind (for_range lo k body s) (for_range k hi body).
Proof.
  intros H1 H2. unfold for_range.
  replace (hi - lo) with ((k - lo) + (hi - k)) by lia.
  rewrite seq_app, foldM_app. replace (lo + (k - lo)) with k by lia. done.
Qed.

(** X2.  From whatever index a forward pass starts, with forward bounds
    that are in order, [applyForwardJerkFilter] returns; the point at
    the start index carries the initial velocity and acceleration, and
    every later point of the base is a forward step from the point
    before it: its acceleration is [prev_acc + limited_jerk * dt] for a
    jerk clamped to [[min_jerk, max_jerk]] that is computed towards an
    acceleration clamped to [[min_acc, max_acc]]. *)
Theorem forward_pass_clamps_from (base : Trajectory) (start_index : nat)
  (initial_vel initial_acc : Q) (params : Param) (output : Trajectory) :
  forward_bounds_valid params ->
  start_index < length (points output) ->
  length (points base) <= length (points output) ->
  exists output',
    applyForwardJerkFilter base start_index initial_vel initial_acc params
      output = Ok output'
    /\ (exists p, points output' !! start_index = Some p
                  /\ twist_linear_x p = initial_vel
                  /\ accel_linear_x p = initial_acc)
    /\ (forall i b_prev b o_prev o,
          start_index < i < length (points base) ->
          points base !! (i - 1) = Some b_prev ->
          points base !! i = Some b ->
          points output' !! (i - 1) = Some o_prev ->
          points output' !! i = Some o ->
          forward_step params b_prev b o_prev o).
Proof.
  intros Hvalid Hstart Hlen.
  destruct (applyForwardJerkFilter_spec base start_index initial_vel
              initial_acc params output)
    as (out' & Hrun & Hlen' & _ & (o0 & _ & Hat) & Hchain); [done|done|].
  exists (set_points output out'). split; [done|].
  assert (E : points (set_points output out') = out')
    by (by destruct output).
  rewrite E. split.
  - eexists. split; [exact Hat|].
    by rewrite twist_linear_x_set, accel_linear_x_set.
  - intros i b_prev b o_prev o Hi Hb1 Hb2 Ho1 Ho2.
    destruct (Hchain i Hi)
      as (b_prev' & b' & o_prev' & o_old & Hb1' & Hb2' & Ho1' & _ & Ho2').
    assert (b_prev' = b_prev) as -> by congruence.
    assert (b' = b) as -> by congruence.
    assert (o_prev' = o_prev) as -> by congruence.
    assert (o = forward_point params b_prev b o_prev o_old) as ->
      by congruence.
    by apply forward_point_step.
Qed.

Lemma set_motion_same (p : TrajectoryPoint) :
  set_accel_linear_x (set_twist_linear_x p (twist_linear_x p))
    (accel_linear_x p) = p.
Proof.
  destruct p as [ps [[lx ly lz] ang] [[ax ay az] aang]]. done.
Qed.

Lemma forward_point_again (params : Param)
  (b_prev b o_prev o : TrajectoryPoint) :
  forward_point params b_prev b o_prev (forward_point params b_prev b o_prev o)
  = forward_point params b_prev b o_prev o.
Proof. done. Qed.

Lemma set_points_same (t : Trajectory) : set_points t (points t) = t.
Proof. by destruct t. Qed.

(** X3.  A forward pass restarted at a later index, from the velocity
    and the acceleration found there, changes nothing: the trajectory a
    forward pass leaves is a fixed point of every forward pass over the
    same base from an index at or after its start. *)
Theorem forward_pass_restart (base : Trajectory) (start_index restart : nat)
  (initial_vel initial_acc : Q) (params : Param)
  (output output' : Trajectory) (p : TrajectoryPoint) :
  length (points base) <= length (points output) ->
  applyForwardJerkFilter base start_index initial_vel initial_acc params
    output = Ok output' ->
  start_index <= restart -> points output' !! restart = Some p ->
  applyForwardJerkFilter base restart (twist_linear_x p) (accel_linear_x p)
    params output' = Ok output'.
Proof.
  intros Hlen Hrun Hle Hp.
  assert (Hs : start_index < length (points output)).
  { unfold applyForwardJerkFilter in Hrun.
    apply bind_Ok in Hrun as (o & Ho%at_Ok & _). by eapply lookup_lt_Some. }
  destruct (applyForwardJerkFilter_spec base start_index initial_vel
              initial_acc params output)
    as (out1 & Hrun1 & Hlen1 & _ & _ & Hchain1); [done|done|].
  rewrite Hrun in Hrun1. injection Hrun1 as ->. simpl in Hp.
  destruct (applyForwardJerkFilter_spec base restart (twist_linear_x p)
              (accel_linear_x p) params (set_points output out1))
    as (out2 & -> & Hlen2 & Hsame2 & (o & Ho & Hfirst2) & Hchain2);
    [simpl; by eapply lookup_lt_Some|simpl; lia|].
  simpl in *. f_equal. unfold set_points. simpl. f_equal.
  assert (Hall : forall n i, i <= n -> out2 !! i = out1 !! i).
  { induction n as [|n IH]; intros i Hi.
    - destruct (decide (restart = 0)) as [->|Hne].
      + replace i with 0 by lia. rewrite Hfirst2.
        rewrite Hp in Ho. injection Ho as <-.
        by rewrite set_motion_same.
      + apply Hsame2; lia.
    - destruct (decide (i <= n)) as [Hin|Hin]; [by apply IH|].
      assert (i = Datatypes.S n) as -> by lia.
      destruct (decide (Datatypes.S n = restart)) as [Heq|Hne].
      { rewrite Heq, Hfirst2. rewrite Hp in Ho. injection Ho as <-.
        by rewrite set_motion_same. }
      destruct (decide (restart < Datatypes.S n
                        /\ Datatypes.S n < length (points base)))
        as [Hin'|Hout].
      + destruct (Hchain2 (Datatypes.S n))
          as (b_prev & b & o_prev & o_old & Hb1 & Hb2 & Hprev & Hold & ->);
          [lia|].
        destruct (Hchain1 (Datatypes.S n))
          as (b_prev' & b' & o_prev' & o_old' & Hb1' & Hb2' & Hprev' & _
              & Hnew); [lia|].
        replace (Datatypes.S n - 1) with n in * by lia.
        rewrite IH in Hprev by lia. simplify_eq.
        by rewrite forward_point_again.
      + apply Hsame2; lia. }
  apply list_eq. intros i. by apply (Hall i).
Qed.

(** X4.  [applyForwardJerkFilter] returns exactly when [start_index] is
    an index of the output trajectory and the output trajectory has a
    point for every base point after [start_index]; otherwise an [.at]
    throws.  When it returns, the points before [start_index] and those
    beyond the base trajectory are as they were. *)
Theorem applyForwardJerkFilter_returns_iff (base : Trajectory)
  (start_index : nat) (initial_vel initial_acc : Q) (params : Param)
  (output : Trajectory) :
  let fits :=
    start_index < length (points output)
    /\ (length (points base) <= length (points output)
        \/ length (points base) <= start_index + 1) in
  (fits ->
   exists output',
     applyForwardJerkFilter base start_index initial_vel initial_acc params
       output = Ok output'
     /\ length (points output') = length (points output)
     /\ forall i, i < start_index \/ length (points base) <= i ->
          i <> start_index ->
          points output' !! i = points output !! i)
  /\ (~ fits ->
      applyForwardJerkFilter base start_index initial_vel initial_acc params
        output = Fail out_of_range).
Proof.
  intros fits. unfold fits. split.
  - intros [Hs [Hlen|Hshort]].
    + destruct (applyForwardJerkFilter_spec base start_index initial_vel
                  initial_acc params output)
        as (out' & -> & Hlen' & Hsame & _); [done|done|].
      exists (set_points output out'). done.
    + unfold applyForwardJerkFilter.
      destruct (at_lt (points output) start_index Hs) as (o & -> & Ho).
      cbn [bind]. unfold for_range.
      replace (length (points base) - (start_index + 1)) with 0 by lia.
      cbn [seq foldM bind]. eexists. split; [done|]. simpl.
      split; [by rewrite length_insert|].
      intros i _ Hne. by rewrite list_lookup_insert_ne.
  - intros Hnot. unfold applyForwardJerkFilter.
    destruct (le_lt_dec (length (points output)) start_index) as [Hge|Hs].
    { by rewrite at_ge. }
    destruct (at_lt (points output) start_index Hs) as (o & -> & Ho).
    cbn [bind].
    set (out1 := <[start_index := _]> (points output)).
    assert (Hlen1 : length out1 = length (points output))
      by (unfold out1; by rewrite length_insert).
    rewrite (for_range_split (start_index + 1) (length (points output)))
      by lia.
    destruct (forward_loop (points base) params (start_index + 1)
                (length (points output)) out1)
      as (out2 & -> & Hlen2 & _); [lia|lia|lia|lia|].
    cbn [bind]. unfold for_range.
    replace (length (points base) - length (points output))
      with (Datatypes.S (length (points base) - length (points output) - 1))
      by lia.
    cbn [seq foldM]. unfold forward_body at 1.
    destruct (at_lt out2 (length (points output) - 1)) as (x1 & -> & _);
      [lia|].
    destruct (at_lt (points base) (length (points output) - 1))
      as (x2 & -> & _); [lia|].
    destruct (at_lt (points base) (length (points output)))
      as (x3 & -> & _); [lia|].
    cbn [bind]. rewrite at_ge by lia. done.
Qed.

(** ** More on applyMaxVelocity *)

Lemma std_min_again (v m : Q) : std_min (std_min v m) m = std_min v m.
Proof.
  unfold std_min. destruct (Qltb m v) eqn:E.
  - replace (Qltb m m) with false; [done|].
    symmetry. apply Qltb_ge. apply Qle_refl.
  - by rewrite E.
Qed.

Lemma capped_again (max_velocity : Q) (p : TrajectoryPoint) :
  capped max_velocity (capped max_velocity p) = capped max_velocity p.
Proof.
  unfold capped.
  change (twist_linear_x (set_accel_linear_x (set_twist_linear_x p ?v) 0))
    with v.
  assert (H : forall v w a b,
             set_accel_linear_x
               (set_twist_linear_x
                  (set_accel_linear_x (set_twist_linear_x p v) a) w) b
             = set_accel_linear_x (set_twist_linear_x p w) b) by done.
  rewrite H.
  change (twist_linear_x
            (set_accel_linear_x
               (set_twist_linear_x p (std_min (twist_linear_x p) max_velocity))
               0))
    with (std_min (twist_linear_x p) max_velocity).
  by rewrite std_min_again.
Qed.

(** X5.  Between two indices of the trajectory, [applyMaxVelocity]
    returns [true]; every point from [start_index] to [end_index] ends
    with a velocity that is at most [max_velocity] and at most what it
    was (it is the old velocity or [max_velocity]) and with acceleration
    [0], every other point is as it was, and nothing but longitudinal
    velocities and accelerations is written. *)
Theorem applyMaxVelocity_caps (max_velocity : Q) (start_index end_index : nat)
  (t : Trajectory) :
  start_index <= end_index -> end_index < length (points t) ->
  exists t',
    applyMaxVelocity max_velocity start_index end_index t = Ok (true, t')
    /\ same_but_motion t t'
    /\ forall i p, points t !! i = Some p ->
         exists p',
           points t' !! i = Some p'
           /\ if (start_index <=? i) && (i <=? end_index)
              then (twist_linear_x p' <= max_velocity)%Q
                   /\ (twist_linear_x p' <= twist_linear_x p)%Q
                   /\ (twist_linear_x p' = twist_linear_x p
                       \/ twist_linear_x p' = max_velocity)
                   /\ accel_linear_x p' = 0%Q
              else p' = p.
Proof.
  intros Hle Hlt.
  destruct (applyMaxVelocity_inside max_velocity start_index end_index t)
    as (pts' & Hrun & Hlen & Hpts); [done|done|].
  exists (set_points t pts'). split; [done|].
  split; [by eapply applyMaxVelocity_same_but_motion|].
  intros i p Hp. simpl. rewrite Hpts, Hp.
  destruct ((start_index <=? i) && (i <=? end_index)); simpl.
  - eexists. split; [done|]. unfold capped.
    rewrite twist_linear_x_set, accel_linear_x_set.
    split; [apply std_min_le_r|]. split; [apply std_min_le_l|].
    split; [|done].
    destruct (std_min_cases (twist_linear_x p) max_velocity)
      as [[_ ->]|[_ ->]]; [by right|by left].
  - by exists p.
Qed.

(** X6.  Capping twice is capping once: [applyMaxVelocity] leaves the
    trajectory it has returned unchanged when it is called again with
    the same arguments. *)
Theorem applyMaxVelocity_again (max_velocity : Q)
  (start_index end_index : nat) (t t' : Trajectory) :
  applyMaxVelocity max_velocity start_index end_index t = Ok (true, t') ->
  applyMaxVelocity max_velocity start_index end_index t' = Ok (true, t').
Proof.
  intros Hrun.
  assert (Hguard : start_index <= end_index
                   /\ end_index < length (points t)).
  { destruct (le_lt_dec start_index end_index) as [Hle|Hgt].
    - split; [done|].
      destruct (le_lt_dec (length (points t)) end_index) as [Hge|Hlt];
        [|done].
      destruct (decide (end_index = length (points t))) as [->|Hne].
      + rewrite applyMaxVelocity_at_size in Hrun by done. done.
      + unfold applyMaxVelocity in Hrun.
        replace (length (points t) <? end_index) with true in Hrun
          by (symmetry; apply Nat.ltb_lt; lia).
        by rewrite orb_true_r in Hrun.
    - unfold applyMaxVelocity in Hrun.
      replace (end_index <? start_index) with true in Hrun
        by (symmetry; apply Nat.ltb_lt; lia).
      done. }
  destruct Hguard as [Hle Hlt].
  destruct (applyMaxVelocity_inside max_velocity start_index end_index t)
    as (pts1 & Hrun1 & Hlen1 & Hpts1); [done|done|].
  rewrite Hrun in Hrun1. injection Hrun1 as ->.
  destruct (applyMaxVelocity_inside max_velocity start_index end_index
              (set_points t pts1))
    as (pts2 & -> & Hlen2 & Hpts2); [done|simpl; lia|].
  simpl in *. f_equal. f_equal. unfold set_points. simpl. f_equal.
  apply list_eq. intros i. rewrite Hpts2, Hpts1.
  destruct ((start_index <=? i) && (i <=? end_index)); [|done].
  destruct (points t !! i); simpl; [|done]. by rewrite capped_again.
Qed.

(** ** More on searchDecelTargetIndices *)

(** X7.  On a trajectory of fewer than two points
    [searchDecelTargetIndices] throws: with no point the bound
    [size() - 1] of its loop wraps and the first [.at] is out of range,
    with one point the index [i - 1] of the final step wraps. *)
Theorem searchDecelTargetIndices_too_short (trajectory : Trajectory)
  (closest_index : nat) (decel_target_indices : list (nat * Q)) :
  length (points trajectory) < 2 ->
  searchDecelTargetIndices trajectory closest_index decel_target_indices
  = Fail out_of_range.
Proof.
  intros Hlen. unfold searchDecelTargetIndices.
  destruct (points trajectory) as [|p [|q rest]] eqn:Epts;
    [done| |simpl in Hlen; lia].
  simpl length. unfold for_range.
  replace (0 - Nat.max 1 closest_index) with 0 by lia. done.
Qed.

Lemma coalesce_last (candidates : list (nat * Q)) (back : nat * Q) :
  last candidates = Some back -> back ∈ coalesce candidates.
Proof.
  intros Hlast. rewrite (coalesce_kept candidates back Hlast).
  apply elem_of_app. right. by left.
Qed.

(** X8.  On a trajectory of at least two points
    [searchDecelTargetIndices] returns the given vector with the targets
    appended.  The targets come in strictly increasing order of their
    indices; each one is an index from [1] to [size - 1] that is a local
    minimum of the velocity profile, paired with the velocity of its
    point; and the last local minimum is always among them. *)
Theorem searchDecelTargetIndices_appends (trajectory : Trajectory)
  (closest_index : nat) (decel_target_indices : list (nat * Q)) :
  2 <= length (points trajectory) ->
  exists targets,
    searchDecelTargetIndices trajectory closest_index decel_target_indices
    = Ok (decel_target_indices ++ targets)
    /\ searchDecelTargetIndices trajectory closest_index [] = Ok targets
    /\ StronglySorted index_lt targets
    /\ (forall i v, (i, v) ∈ targets ->
          1 <= i < length (points trajectory)
          /\ local_minimum (points trajectory) closest_index i = true
          /\ v = velocity_at (points trajectory) i)
    /\ (forall i, last (local_minima (points trajectory) closest_index)
                  = Some i ->
          (i, velocity_at (points trajectory) i) ∈ targets).
Proof.
  intros Hlen.
  exists (spec_decel_targets (points trajectory) closest_index).
  split; [|split; [by apply searchDecelTargetIndices_spec|split; [|split]]].
  - unfold searchDecelTargetIndices, spec_decel_targets.
    destruct (length (points trajectory)) as [|last] eqn:Elen; [lia|].
    rewrite (local_minima_split _ _ last Elen).
    set (start := Nat.max 1 closest_index).
    assert (Htmp : for_range start last (search_body (points trajectory)) []
                   = Ok (map (target_of (points trajectory))
                           (List.filter
                              (fun k => decreases_into (points trajectory) k
                                        && not_decreasing_after
                                             (points trajectory) k)
                              (seq start (last - start))))).
    { destruct (le_lt_dec start last) as [Hs|Hs].
      - apply search_loop; unfold start; lia.
      - unfold for_range. replace (last - start) with 0 by lia. done. }
    rewrite Htmp. simpl bind.
    rewrite search_last_spec by lia. simpl bind.
    rewrite <- map_app.
    set (tmp := map _ (_ ++ _)).
    destruct tmp as [|c tmp'] eqn:Etmp; [by rewrite app_nil_r|].
    rewrite <- Etmp.
    assert (Hne : length tmp - 1 < length tmp) by (rewrite Etmp; simpl; lia).
    destruct (at_lt tmp (length tmp - 1) Hne) as (back & Hat & Hback).
    unfold for_range. rewrite Nat.sub_0_r.
    pose proof (coalesce_loop [] tmp decel_target_indices) as Hloop.
    simpl in Hloop. rewrite Hloop. simpl bind. rewrite Hat. simpl.
    rewrite (coalesce_kept tmp back); [by rewrite app_assoc|].
    rewrite last_lookup. rewrite <- Hback. f_equal. lia.
  - apply spec_decel_targets_sorted.
  - intros i v Hin.
    pose proof (spec_decel_targets_within (points trajectory) closest_index)
      as Hw.
    unfold targets_within in Hw. rewrite Forall_forall in Hw.
    split; [apply (Hw _ Hin)|].
    unfold spec_decel_targets in Hin. apply coalesce_subset in Hin.
    apply list_elem_of_In, in_map_iff in Hin as (j & [= <- <-] & Hj).
    unfold local_minima in Hj. apply List.filter_In in Hj as [_ Hj].
    done.
  - intros i Hlast. unfold spec_decel_targets.
    apply coalesce_last.
    apply last_Some in Hlast as [l' ->].
    rewrite map_app. simpl. apply last_snoc.
Qed.

(** X9.  When the velocity never decreases by more than the tolerance
    from one point to the next, there is no deceleration target, and
    [apply] is one forward pass from the first point with the initial
    velocity and acceleration: the backward filter, its parameters and
    the fuel play no part. *)
Theorem apply_non_decreasing_profile (fuel : nat)
  (initial_vel initial_acc : Q) (input output : Trajectory) :
  2 <= length (points input) ->
  (forall i p q,
     points input !! i = Some p -> points input !! (S i) = Some q ->
     (search_ep <= twist_linear_x q - twist_linear_x p)%Q) ->
  searchDecelTargetIndices input closest_index [] = Ok []
  /\ exists output',
       applyForwardJerkFilter input 0 initial_vel initial_acc
         smoother_param_ input = Ok output'
       /\ apply fuel initial_vel initial_acc input output
          = Ok (true, output').
Proof.
  intros Hlen Hmono.
  assert (Hnone : spec_decel_targets (points input) closest_index = []).
  { unfold spec_decel_targets, local_minima.
    rewrite filter_none_seq; [done|].
    intros i Hi. unfold local_minimum.
    assert (Hdec : decreases_into (points input) i = false).
    { destruct i as [|i]; [apply decreases_into_first|].
      unfold decreases_into. apply Qltb_ge.
      replace (Datatypes.S i - 1) with i by lia.
      destruct (lookup_lt_is_Some_2 (points input) i) as [p Hp]; [lia|].
      destruct (lookup_lt_is_Some_2 (points input) (Datatypes.S i))
        as [q Hq]; [lia|].
      rewrite (velocity_at_Some _ _ _ Hp), (velocity_at_Some _ _ _ Hq).
      by eapply Hmono. }
    rewrite Hdec. by rewrite !andb_false_r. }
  split; [by rewrite searchDecelTargetIndices_spec, Hnone|].
  destruct (applyForwardJerkFilter_total input 0 initial_vel initial_acc
              smoother_param_ input) as (output' & Hfwd & _); [lia|done|].
  exists output'. split; [done|]. unfold apply.
  destruct (points input) as [|p0 [|p1 rest]] eqn:Epts;
    [simpl in Hlen; lia|simpl in Hlen; lia|].
  rewrite <- Epts in *.
  rewrite searchDecelTargetIndices_spec by done.
  rewrite Hnone. cbn [bind apply_rounds seq length].
  unfold closest_index. by rewrite Hfwd.
Qed.

(** ** More on resampleTrajectory *)

Lemma resample_inner_length (p tp0 tp1 : TrajectoryPoint) (ds : Q)
  (lo n : nat) (st : list TrajectoryPoint * Q) :
  exists st',
    foldM (resample_inner_body p tp0 tp1 ds) (seq lo n) st = Ok st'
    /\ length st'.1 = length st.1 + n
    /\ forall q, q ∈ st'.1 ->
         q ∈ st.1
         \/ (twist_linear_x q = twist_linear_x tp0
             /\ accel_linear_x q = accel_linear_x tp0).
Proof.
  revert lo st. induction n as [|n IH]; intros lo st.
  - exists st. split; [done|]. split; [simpl; lia|]. by left.
  - cbn [seq foldM]. unfold resample_inner_body at 1. cbn [bind].
    edestruct (IH (Datatypes.S lo)) as (st' & -> & Hlen & Hin).
    exists st'. split; [done|]. split.
    + rewrite Hlen. cbn [fst]. rewrite length_app. simpl. lia.
    + intros q Hq. destruct (Hin q Hq) as [Hq'|Hq']; [|by right].
      cbn [fst] in Hq'.
      apply elem_of_app in Hq' as [Hq'|Hq'%list_elem_of_singleton];
        [by left|].
      right. by rewrite Hq'.
Qed.

(** X10.  On a non-empty input [resampleTrajectory] returns a
    trajectory with the header of the input whose last point is the
    last point of the input, and every returned point carries the
    longitudinal velocity and acceleration of one and the same input
    point (the velocity and acceleration are held, not interpolated). *)
Theorem resample_holds_motion (input : Trajectory) :
  points input <> [] ->
  exists output,
    resampleTrajectory input = Ok (Some output)
    /\ header output = header input
    /\ last (points output) = last (points input)
    /\ forall q, q ∈ points output ->
         exists p, p ∈ points input
                   /\ twist_linear_x q = twist_linear_x p
                   /\ accel_linear_x q = accel_linear_x p.
Proof.
  intros Hne. unfold resampleTrajectory.
  destruct (points input) as [|p0 rest] eqn:Epts; [done|].
  rewrite <- Epts in *. clear Epts p0 rest.
  set (ds := (1 / _)%Q).
  set (P := fun out : list TrajectoryPoint =>
              forall q, q ∈ out ->
                exists p, p ∈ points input
                          /\ twist_linear_x q = twist_linear_x p
                          /\ accel_linear_x q = accel_linear_x p).
  assert (Hloop : exists out,
             for_range 0 (length (points input) - 1)
               (resample_body (points input) ds) [] = Ok out /\ P out).
  { apply (foldM_total P).
    - intros i out Hi%elem_of_seq Hout. unfold resample_body.
      destruct (at_lt (points input) i) as (tp0 & -> & Htp0); [lia|].
      destruct (at_lt (points input) (i + 1)) as (tp1 & -> & _); [lia|].
      cbn [bind].
      assert (Hin0 : tp0 ∈ points input)
        by (by eapply list_elem_of_lookup_2).
      destruct (Qltb _ _).
      + eexists. split; [done|].
        intros q [Hq|Hq%list_elem_of_singleton]%elem_of_app.
        * by apply Hout.
        * exists tp0. by rewrite Hq.
      + unfold for_range.
        destruct (resample_inner_length tp0 tp0 tp1 ds 0
                    (Resample.num_resample (resample smoother_param_) - 0)
                    (out, 0%Q)) as (st' & -> & _ & Hst').
        cbn [bind]. eexists. split; [done|].
        intros q Hq. destruct (Hst' q Hq) as [Hq'|[Hv Ha]].
        * by apply Hout.
        * by exists tp0.
    - intros q Hq. by apply elem_of_nil in Hq. }
  destruct Hloop as (out & -> & Hout). cbn [bind].
  destruct (back_total (points input) Hne) as (b & Hb & Hbin).
  rewrite Hb. cbn [bind]. eexists. split; [done|]. split; [done|].
  simpl. split.
  - rewrite last_snoc. unfold back_ in Hb.
    destruct (last (points input)); by simplify_eq.
  - intros q [Hq|Hq%list_elem_of_singleton]%elem_of_app.
    + by apply Hout.
    + exists b. by rewrite Hq.
Qed.

(** X11.  With [num_resample >= 1] the returned trajectory has at least
    as many points as the input and at most
    [(size - 1) * num_resample + 1]; it has exactly that many when no
    two consecutive input points are closer than 1 mm. *)
Theorem resample_length (input : Trajectory) :
  points input <> [] ->
  1 <= Resample.num_resample (resample smoother_param_) ->
  exists output,
    resampleTrajectory input = Ok (Some output)
    /\ length (points input) <= length (points output)
    /\ length (points output)
       <= (length (points input) - 1)
          * Resample.num_resample (resample smoother_param_) + 1
    /\ ((forall i p q,
           points input !! i = Some p -> points input !! (S i) = Some q ->
           (0.001 <= std_abs (calcDistance2d p q))%Q) ->
        length (points output)
        = (length (points input) - 1)
          * Resample.num_resample (resample smoother_param_) + 1).
Proof.
  intros Hne Hnum. unfold resampleTrajectory.
  destruct (points input) as [|p0 rest] eqn:Epts; [done|].
  rewrite <- Epts in *. clear Epts p0 rest.
  set (ds := (1 / _)%Q).
  set (num := Resample.num_resample (resample smoother_param_)) in *.
  assert (Hloop : forall hi, hi <= length (points input) - 1 ->
             exists out,
               for_range 0 hi (resample_body (points input) ds) [] = Ok out
               /\ hi <= length out /\ length out <= hi * num
               /\ ((forall i p q,
                      points input !! i = Some p ->
                      points input !! (Datatypes.S i) = Some q ->
                      (0.001 <= std_abs (calcDistance2d p q))%Q) ->
                   length out = hi * num)).
  { induction hi as [|hi IH]; intros Hhi.
    - exists []. rewrite for_range_nil. simpl. done.
    - destruct IH as (out & Hrun & H1 & H2 & H3); [lia|].
      rewrite for_range_S, Hrun by lia. cbn [bind]. unfold resample_body.
      destruct (at_lt (points input) hi) as (tp0 & -> & Htp0); [lia|].
      destruct (at_lt (points input) (hi + 1)) as (tp1 & -> & Htp1);
        [lia|].
      cbn [bind]. destruct (Qltb _ _) eqn:Eclose.
      + eexists. split; [done|]. rewrite length_app. simpl.
        split; [lia|]. split; [nia|].
        intros Hfar. exfalso.
        replace (hi + 1) with (Datatypes.S hi) in Htp1 by lia.
        specialize (Hfar hi tp0 tp1 Htp0 Htp1).
        apply Qltb_lt in Eclose. lra.
      + unfold for_range.
        destruct (resample_inner_length tp0 tp0 tp1 ds 0
                    (Resample.num_resample (resample smoother_param_) - 0)
                    (out, 0%Q)) as (st' & -> & Hlen & _).
        cbn [bind]. eexists. split; [done|].
        fold num in Hlen. rewrite Hlen. cbn [fst]. rewrite Nat.sub_0_r.
        split; [lia|]. split; [lia|].
        intros Hfar. rewrite (H3 Hfar). lia. }
  destruct (Hloop (length (points input) - 1)) as (out & -> & H1 & H2 & H3);
    [done|].
  cbn [bind].
  destruct (back_total (points input) Hne) as (b & -> & _).
  cbn [bind]. eexists. split; [done|]. simpl.
  rewrite length_app. simpl.
  assert (1 <= length (points input)).
  { destruct (points input); [done|simpl; lia]. }
  split; [lia|]. split; [lia|].
  intros Hfar. rewrite (H3 Hfar). done.
Qed.

(** ** More on applyBackwardDecelFilter *)

Lemma scan_jerk_le (fuel : nat) (trajectory : Trajectory)
  (start_index : nat) (decel_target_vel : Q) (params : Param)
  (dist_to_target : list Q) (planning_jerk : Q) (out : Z * list Q)
  (b : bool) (found : Q) (out' : Z * list Q) :
  (Backward.span_jerk (backward params) <= 0)%Q ->
  scan_jerk fuel trajectory start_index decel_target_vel params
    dist_to_target planning_jerk out = Ok (b, found, out') ->
  (found <= planning_jerk)%Q.
Proof.
  intros Hspan. revert planning_jerk out.
  induction fuel as [|fuel IH]; intros pj out; [done|].
  cbn [scan_jerk]. destruct (Qltb _ pj).
  - intros H. apply bind_Ok in H as ([ok o] & _ & H). destruct ok.
    + injection H as _ <- _. lra.
    + apply IH in H. lra.
  - intros H. injection H as _ <- _. lra.
Qed.

Lemma scan_jerk_checked (fuel : nat) (trajectory : Trajectory)
  (start_index : nat) (decel_target_vel : Q) (params : Param)
  (dist_to_target : list Q) (planning_jerk : Q) (out : Z * list Q)
  (found : Q) (out' : Z * list Q) :
  scan_jerk fuel trajectory start_index decel_target_vel params
    dist_to_target planning_jerk out = Ok (true, found, out') ->
  (Backward.min_jerk (backward params) - backward_ep < found)%Q
  /\ calcEnoughDistForDecel trajectory start_index decel_target_vel found
       params dist_to_target = Ok (true, out').
Proof.
  revert planning_jerk out.
  induction fuel as [|fuel IH]; intros pj out; [done|].
  cbn [scan_jerk]. destruct (Qltb _ pj) eqn:E.
  - intros H. apply bind_Ok in H as ([ok o] & Hcall & H). destruct ok.
    + injection H as <- <-. split; [by apply Qltb_lt|done].
    + by apply IH in H.
  - done.
Qed.

Lemma plan_body_sentinel (fuel : nat) (decel_target_index : nat)
  (decel_target_vel : Q) (params : Param) (trajectory : Trajectory)
  (start_index : nat) (plan plan' : DecelPlan) :
  (Backward.span_jerk (backward params) <= 0)%Q ->
  (Backward.start_jerk (backward params) <= - 100)%Q ->
  Qeqb (output_planning_jerk plan) (- 100)%Q = true ->
  plan_body fuel decel_target_index decel_target_vel params trajectory
    start_index plan = Ok plan' ->
  Qeqb (output_planning_jerk plan') (- 100)%Q = true.
Proof.
  intros Hspan Hstart Hplan. unfold plan_body. cbv zeta. intros H.
  apply bind_Ok in H as (d0 & _ & H).
  apply bind_Ok in H as (s & _ & H).
  apply bind_Ok in H as ([dist d] & _ & H).
  apply bind_Ok in H as ([[ok pj] [type times]] & Hscan & H).
  apply scan_jerk_le in Hscan; [|done].
  destruct ok; cbn [negb] in H; [|by injection H as <-].
  destruct (Qleb _ pj) eqn:E; [|by injection H as <-].
  injection H as <-. cbn [output_planning_jerk].
  apply Qleb_le in E. apply Qeq_bool_iff in Hplan.
  apply Qeq_bool_iff. lra.
Qed.

Lemma plan_loop_sentinel (fuel : nat) (decel_target_index : nat)
  (decel_target_vel : Q) (params : Param) (trajectory : Trajectory)
  (start_indices : list nat) (plan plan' : DecelPlan) :
  (Backward.span_jerk (backward params) <= 0)%Q ->
  (Backward.start_jerk (backward params) <= - 100)%Q ->
  Qeqb (output_planning_jerk plan) (- 100)%Q = true ->
  plan_loop fuel decel_target_index decel_target_vel params trajectory
    start_indices plan = Ok plan' ->
  Qeqb (output_planning_jerk plan') (- 100)%Q = true.
Proof.
  intros Hspan Hstart. revert plan.
  induction start_indices as [|s rest IH]; intros plan Hplan.
  - by intros [= <-].
  - cbn [plan_loop]. intros H. apply bind_Ok in H as (plan1 & H1 & H).
    apply (IH plan1); [|done].
    by eapply plan_body_sentinel.
Qed.

(** X12.  The jerk [-100.0] is the mark of "no plan found": a plan
    whose jerk is [-100] or below is never applied.  With
    [backward.start_jerk <= -100] and a [span_jerk] that is not
    positive, so that every jerk the scan tries is at most [-100],
    [applyBackwardDecelFilter], whenever it returns, returns [false]
    and leaves the trajectory as it was, even when
    [calcEnoughDistForDecel] has found the distance to be enough. *)
Theorem applyBackwardDecelFilter_sentinel (fuel : nat)
  (start_indices : list nat) (decel_target_index : nat)
  (decel_target_vel : Q) (params : Param)
  (trajectory trajectory' : Trajectory) (ok : bool) :
  (Backward.span_jerk (backward params) <= 0)%Q ->
  (Backward.start_jerk (backward params) <= - 100)%Q ->
  applyBackwardDecelFilter fuel start_indices decel_target_index
    decel_target_vel params trajectory = Ok (ok, trajectory') ->
  ok = false /\ trajectory' = trajectory.
Proof.
  intros Hspan Hstart. unfold applyBackwardDecelFilter. intros H.
  apply bind_Ok in H as (plan & Hrun & H).
  rewrite (plan_loop_sentinel fuel decel_target_index decel_target_vel
             params trajectory start_indices initial_plan plan Hspan
             Hstart eq_refl Hrun) in H.
  by injection H as <- <-.
Qed.

(** The loop that measures the distances to the target. *)
Lemma dist_loop_spec (pts : list TrajectoryPoint) (hi : nat)
  (d0 : list Q) (k : nat) :
  forall (lo : nat) (dist : Q) (d : list Q),
    k = hi - lo ->
    (forall i x, d0 !! i = Some x -> (x == 0)%Q) ->
    foldM (dist_body pts) (rev (seq (Datatypes.S lo) k)) (0%Q, d0)
    = Ok (dist, d) ->
    (dist == path_length pts lo k)%Q
    /\ forall i x, lo <= i -> d !! i = Some x ->
         (x == path_length pts i (hi - i))%Q.
Proof.
  induction k as [|k IH]; intros lo dist d Hk Hzero.
  - cbn [seq rev foldM]. intros [= <- <-]. split; [done|].
    intros i x Hi Hx. replace (hi - i) with 0 by lia.
    by apply (Hzero i).
  - cbn [seq rev]. rewrite foldM_app. intros H.
    apply bind_Ok in H as ([dist1 d1] & Hrun & Hstep).
    apply (IH (Datatypes.S lo)) in Hrun as [Hdist1 Hd1]; [|lia|done].
    cbn [foldM] in Hstep. apply bind_Ok in Hstep as (st & Hstep & [= ->]).
    unfold dist_body in Hstep. cbn [fst snd] in Hstep.
    replace (Datatypes.S lo - 1) with lo in Hstep by lia.
    apply bind_Ok in Hstep as (p_prev & Hprev%at_Ok & Hstep).
    apply bind_Ok in Hstep as (p & Hp%at_Ok & Hstep).
    apply bind_Ok in Hstep as (d' & [Hlo ->]%set_at_Ok & [= <- <-]).
    assert (Hdist : (dist1 + calcDistance2d p_prev p
                     == path_length pts lo (Datatypes.S k))%Q).
    { cbn [path_length]. rewrite Hprev, Hp. lra. }
    split; [done|].
    intros i x Hi. destruct (decide (i = lo)) as [->|Hne].
    + rewrite list_lookup_insert_eq by done. intros [= <-].
      by rewrite <- Hk.
    + rewrite list_lookup_insert_ne by done. apply Hd1. lia.
Qed.

Lemma calcEnoughDistForDecel_true (trajectory : Trajectory)
  (start_index : nat) (decel_target_vel planning_jerk : Q) (params : Param)
  (dist_to_target : list Q) (type : Z) (times : list Q) :
  calcEnoughDistForDecel trajectory start_index decel_target_vel
    planning_jerk params dist_to_target = Ok (true, (type, times)) ->
  exists p stop_dist allowed,
    points trajectory !! start_index = Some p
    /\ calcStopDistWithJerkAndAccConstraints (twist_linear_x p)
         (accel_linear_x p) (std_abs planning_jerk) planning_jerk
         (calcMinAcc params planning_jerk) decel_target_vel
       = (true, (type, times, stop_dist))
    /\ dist_to_target !! start_index = Some allowed
    /\ (0 <= stop_dist)%Q /\ (stop_dist <= allowed)%Q.
Proof.
  unfold calcEnoughDistForDecel. intros H.
  apply bind_Ok in H as (p & Hp%at_Ok & H). cbv zeta in H.
  destruct (calcStopDistWithJerkAndAccConstraints _ _ _ _ _ _)
    as [ok [[ty ti] stop_dist]] eqn:E.
  destruct ok; cbn [negb] in H; [|done].
  apply bind_Ok in H as (allowed & Hallowed%at_Ok & H).
  destruct (Qleb 0 stop_dist) eqn:E1; [|done].
  destruct (Qleb stop_dist allowed) eqn:E2; [|done].
  cbn [andb] in H. injection H as <- <-.
  exists p, stop_dist, allowed.
  split; [done|]. split; [done|]. split; [done|].
  split; by apply Qleb_le.
Qed.

Lemma plan_body_checked (fuel : nat) (decel_target_index : nat)
  (decel_target_vel : Q) (params : Param) (trajectory : Trajectory)
  (start_index : nat) (plan plan' : DecelPlan) :
  plan_checked trajectory decel_target_index decel_target_vel params plan ->
  plan_body fuel decel_target_index decel_target_vel params trajectory
    start_index plan = Ok plan' ->
  plan_checked trajectory decel_target_index decel_target_vel params plan'.
Proof.
  intros Hplan. unfold plan_body. cbv zeta. intros H.
  apply bind_Ok in H as (d0 & [Ht ->]%set_at_Ok & H).
  apply bind_Ok in H as (s & _ & H).
  apply bind_Ok in H as ([dist d] & Hdist & H).
  apply bind_Ok in H as ([[ok pj] [type times]] & Hscan & H).
  destruct ok; cbn [negb] in H; [|by injection H as <-].
  destruct (Qleb _ pj); [|by injection H as <-].
  injection H as <-. right. cbn.
  apply scan_jerk_checked in Hscan as [Hjerk Hcall].
  split; [done|]. split; [done|].
  eapply dist_loop_spec; [reflexivity| |exact Hdist].
  intros i x. destruct (decide (i = decel_target_index)) as [->|Hne].
  - rewrite list_lookup_insert_eq by done. by intros [= <-].
  - rewrite list_lookup_insert_ne by done.
    intros Hx%list_elem_of_lookup_2%list_elem_of_In%repeat_spec.
    by subst x.
Qed.

Lemma plan_loop_checked (fuel : nat) (decel_target_index : nat)
  (decel_target_vel : Q) (params : Param) (trajectory : Trajectory)
  (start_indices : list nat) (plan plan' : DecelPlan) :
  plan_checked trajectory decel_target_index decel_target_vel params plan ->
  plan_loop fuel decel_target_index decel_target_vel params trajectory
    start_indices plan = Ok plan' ->
  plan_checked trajectory decel_target_index decel_target_vel params plan'.
Proof.
  revert plan.
  induction start_indices as [|s rest IH]; intros plan Hplan.
  - by intros [= <-].
  - cbn [plan_loop]. intros H. apply bind_Ok in H as (plan1 & H1 & H).
    apply (IH plan1); [|done].
    by eapply plan_body_checked.
Qed.

Lemma search_decel_start_checked (trajectory : Trajectory)
  (decel_target_vel : Q) (params : Param) (plan : DecelPlan) (i : nat)
  (out : Z * list Q) (r : nat) (o : Z * list Q) :
  (exists o0,
     calcEnoughDistForDecel trajectory (output_start_index plan)
       decel_target_vel (output_planning_jerk plan) params
       (output_dist_to_target plan) = Ok (true, o0)) ->
  search_decel_start trajectory decel_target_vel params plan i out
  = Ok (r, o) ->
  (i < output_start_index plan /\ r = output_start_index plan /\ o = out)
  \/ (output_start_index plan <= r <= i
      /\ calcEnoughDistForDecel trajectory r decel_target_vel
           (output_planning_jerk plan) params (output_dist_to_target plan)
         = Ok (true, o)).
Proof.
  intros (o0 & Hstart). revert out.
  induction i as [|i IH]; intros out; cbn [search_decel_start].
  - destruct (0 <? output_start_index plan) eqn:E.
    + intros [= <- <-]. left. by apply Nat.ltb_lt in E.
    + apply Nat.ltb_ge in E. intros H.
      apply bind_Ok in H as ([ok o'] & Hcall & H). destruct ok; [|done].
      injection H as <- <-. right. split; [lia|done].
  - destruct (Datatypes.S i <? output_start_index plan) eqn:E.
    + intros [= <- <-]. left. by apply Nat.ltb_lt in E.
    + apply Nat.ltb_ge in E. intros H.
      apply bind_Ok in H as ([ok o'] & Hcall & H). destruct ok.
      * injection H as <- <-. right. split; [lia|done].
      * apply IH in H as [(Hi & -> & ->)|[Hr Hcall']].
        -- assert (output_start_index plan = Datatypes.S i) as Heq by lia.
           rewrite Heq in Hstart. congruence.
        -- right. split; [lia|done].
Qed.

(** X13.  [applyBackwardDecelFilter] writes a deceleration profile only
    from a plan that was checked against the path.  Whenever it returns,
    either it returns [false] with the trajectory as it was, or what it
    returns is what [calcStopVelocityWithConstantJerkAccLimit] gives
    from a start index inside the trajectory and a jerk above
    [min_jerk - 0.001] and other than [-100], with the type and the
    times that [calcStopDistWithJerkAndAccConstraints] gave for the
    velocity and the acceleration of that start point, and the stop
    distance it gave is between [0] and the length of the path from the
    start index to the target. *)
Theorem applyBackwardDecelFilter_applies_checked_plan (fuel : nat)
  (start_indices : list nat) (decel_target_index : nat)
  (decel_target_vel : Q) (params : Param)
  (trajectory trajectory' : Trajectory) (ok : bool) :
  applyBackwardDecelFilter fuel start_indices decel_target_index
    decel_target_vel params trajectory = Ok (ok, trajectory') ->
  (ok = false /\ trajectory' = trajectory)
  \/ exists decel_start_index planning_jerk type times stop_dist p,
       points trajectory !! decel_start_index = Some p
       /\ (Backward.min_jerk (backward params) - backward_ep
           < planning_jerk)%Q
       /\ ~ (planning_jerk == - 100)%Q
       /\ calcStopDistWithJerkAndAccConstraints (twist_linear_x p)
            (accel_linear_x p) (std_abs planning_jerk) planning_jerk
            (calcMinAcc params planning_jerk) decel_target_vel
          = (true, (type, times, stop_dist))
       /\ (0 <= stop_dist)%Q
       /\ (stop_dist
           <= path_length (points trajectory) decel_start_index
                (decel_target_index - decel_start_index))%Q
       /\ calcStopVelocityWithConstantJerkAccLimit (twist_linear_x p)
            (accel_linear_x p) (std_abs planning_jerk) planning_jerk
            (calcMinAcc params planning_jerk) decel_target_vel type times
            decel_start_index trajectory
          = (ok, trajectory').
Proof.
  unfold applyBackwardDecelFilter. intros H.
  apply bind_Ok in H as (plan & Hrun & H).
  apply (plan_loop_checked _ decel_target_index) in Hrun; [|by left].
  destruct (Qeqb _ (- 100)) eqn:Esent.
  { injection H as <- <-. by left. }
  destruct Hrun as [Hrun|(Hjerk & Hcall & Hdist)]; [congruence|].
  right.
  apply bind_Ok in H as ([decel_start_index [type times]] & Hsearch & H).
  apply bind_Ok in H as ([ok' t''] & Hfilter & [= <- <-]).
  unfold applyDecelVelocityFilter in Hfilter.
  apply bind_Ok in Hfilter as (p & Hp%at_Ok & Hfilter).
  injection Hfilter as Hfilter.
  assert (Hchecked :
            output_start_index plan <= decel_start_index
            /\ calcEnoughDistForDecel trajectory decel_start_index
                 decel_target_vel (output_planning_jerk plan) params
                 (output_dist_to_target plan) = Ok (true, (type, times))).
  { destruct (Qeqb _ (Backward.start_jerk _)).
    - destruct decel_target_index as [|i]; [done|].
      apply search_decel_start_checked in Hsearch
          as [(_ & -> & Ho)|[Hr Hc]]; [| |by eexists].
      + injection Ho as -> ->. done.
      + split; [lia|done].
    - injection Hsearch as <- <- <-. done. }
  destruct Hchecked as [Hfrom Hc].
  apply calcEnoughDistForDecel_true in Hc
      as (p' & stop_dist & allowed & Hp' & Hstop & Hallowed & H0 & Hle).
  assert (p' = p) as -> by congruence.
  specialize (Hdist decel_start_index allowed Hfrom Hallowed).
  exists decel_start_index, (output_planning_jerk plan), type, times,
    stop_dist, p.
  split; [done|]. split; [done|]. split.
  { intros Heq. apply Qeq_bool_iff in Heq. unfold Qeqb in Esent.
    congruence. }
  split; [done|]. split; [done|]. split; [lra|done].
Qed.

(** ** More on applyLateralAccelerationFilter *)

Lemma elem_of_concat_inv {A : Type} (x : A) (ls : list (list A)) :
  x ∈ concat ls -> exists l, l ∈ ls /\ x ∈ l.
Proof.
  induction ls as [|l0 ls IH]; cbn [concat]; intros H.
  - by apply elem_of_nil in H.
  - apply elem_of_app in H as [H|H].
    + exists l0. split; [by left|done].
    + destruct (IH H) as (l & Hl & Hx). exists l. split; [by right|done].
Qed.

Lemma set_twist_linear_x_twice (p : TrajectoryPoint) (a b : Q) :
  set_twist_linear_x (set_twist_linear_x p a) b = set_twist_linear_x p b.
Proof. done. Qed.

Lemma set_twist_linear_x_same (p : TrajectoryPoint) :
  set_twist_linear_x p (twist_linear_x p) = p.
Proof. destruct p as [ps [[lx ly lz] ang] ac]. done. Qed.

(** The three loops of the filter, run one after the other. *)
Lemma lateral_filter_run (input interpolated prepared : Trajectory)
  (back : Q) (curvature_v : list Q) :
  3 <= length (points input) ->
  back_ (calcArclengthArray input) = Ok back ->
  applyLinearInterpolation (calcArclengthArray input) input
    (out_arclength_of back) = Some interpolated ->
  keep_final_speed input interpolated = Ok prepared ->
  calcTrajectoryCurvatureFrom3Points prepared idx_dist = Some curvature_v ->
  length (points prepared) <= length curvature_v ->
  exists pts1 filtered_points pts2,
    applyLateralAccelerationFilter input
    = Ok (Some (set_points prepared pts2))
    /\ length pts1 = length (points prepared)
    /\ length pts2 = length pts1
    /\ StronglySorted lt filtered_points
    /\ (forall i p, points prepared !! i = Some p ->
          exists c,
            window_curvature curvature_v (length (points prepared)) i = Ok c
            /\ (0 <= c)%Q
            /\ pts1 !! i = Some (lowered c p)
            /\ (i ∈ filtered_points
                <-> Qltb (v_curvature_max_of c) (twist_linear_x p) = true))
    /\ (forall i p, pts1 !! i = Some p ->
          pts2 !! i
          = Some match range_velocity
                         (map (group_range pts1)
                            (groups pts1 filtered_points)) i with
                 | Some v => set_twist_linear_x p v
                 | None => p
                 end).
Proof.
  intros Hn Hback Hinterp Hprep Hcurv Hcv.
  destruct (latacc_loop curvature_v (points prepared)
              (length (points prepared)))
    as (pts1 & fp & Hrun & Hlen1 & _ & Hsorted & Hbelow & Hdone);
    [done|done|].
  assert (Hfp : Forall (fun j => j < length pts1) fp)
    by (by rewrite Hlen1).
  destruct (plateau_loop (map (group_range pts1) (groups pts1 fp)) pts1
              (length pts1)) as (pts2 & Hplateau & Hlen2 & Hpts2); [done|].
  exists pts1, fp, pts2.
  split; [|split; [done|split; [done|split; [done|split]]]].
  - unfold applyLateralAccelerationFilter.
    destruct (points input) as [|p0 rest] eqn:Epts; [simpl in Hn; lia|].
    rewrite <- Epts in Hn |- *.
    replace (length (points input) <? 3) with false
      by (symmetry; apply Nat.ltb_ge; lia).
    rewrite Hback. cbn [bind]. rewrite Hinterp, Hprep. cbn [bind].
    rewrite Hcurv. unfold latacc_limit in Hrun. unfold latacc_limit.
    rewrite Hrun. cbn [bind].
    rewrite latacc_ranges_spec by done. cbn [bind].
    rewrite Hplateau. done.
  - intros i p Hp. apply Hdone; [by eapply lookup_lt_Some|done].
  - intros i p Hp. rewrite (Hpts2 i p Hp).
    replace (i <? length pts1) with true
      by (symmetry; apply Nat.ltb_lt; by eapply lookup_lt_Some).
    done.
Qed.

(** X14.  Whatever [enable_constant_velocity_while_turning] says, a
    point whose velocity was above the cap of its window leaves
    [applyLateralAccelerationFilter] with a velocity at most that cap,
    and below the velocity it had: the plateau of its group is the
    least capped velocity of the group and never lifts a capped point
    above its own cap. *)
Theorem lateral_filter_lowers_capped_points
  (input interpolated prepared : Trajectory) (back : Q)
  (curvature_v : list Q) :
  3 <= length (points input) ->
  back_ (calcArclengthArray input) = Ok back ->
  applyLinearInterpolation (calcArclengthArray input) input
    (out_arclength_of back) = Some interpolated ->
  keep_final_speed input interpolated = Ok prepared ->
  calcTrajectoryCurvatureFrom3Points prepared idx_dist = Some curvature_v ->
  length (points prepared) <= length curvature_v ->
  exists out_pts,
    applyLateralAccelerationFilter input
    = Ok (Some (set_points prepared out_pts))
    /\ forall i p, points prepared !! i = Some p ->
         exists c p',
           window_curvature curvature_v (length (points prepared)) i = Ok c
           /\ out_pts !! i = Some p'
           /\ ((v_curvature_max_of c < twist_linear_x p)%Q ->
               (twist_linear_x p' <= v_curvature_max_of c)%Q
               /\ (twist_linear_x p' < twist_linear_x p)%Q).
Proof.
  intros Hn Hback Hinterp Hprep Hcurv Hcv.
  destruct (lateral_filter_run input interpolated prepared back curvature_v)
    as (pts1 & fp & pts2 & Happly & Hlen1 & Hlen2 & Hsorted & Hdone & Hpts2);
    try done.
  exists pts2. split; [done|]. intros i p Hp.
  destruct (Hdone i p Hp) as (c & Hc & Hc0 & Hlow & Hiff).
  exists c. rewrite (Hpts2 i _ Hlow). eexists. split; [done|].
  split; [done|]. intros Hcap.
  assert (Hle : (twist_linear_x
                   match range_velocity
                           (map (group_range pts1) (groups pts1 fp)) i with
                   | Some v => set_twist_linear_x (lowered c p) v
                   | None => lowered c p
                   end <= v_curvature_max_of c)%Q).
  { apply Qltb_lt in Hcap.
    assert (Hcapped : lowered c p
                      = set_twist_linear_x p (v_curvature_max_of c))
      by (unfold lowered; by rewrite Hcap).
    destruct (Latacc.enable_constant_velocity_while_turning
                (latacc smoother_param_)) eqn:Hen.
    - apply Hiff in Hcap.
      destruct (groups_concat pts1 fp) as [Hcat Hne].
      rewrite <- Hcat in Hcap.
      apply elem_of_concat_inv in Hcap as (G & HG & HiG).
      assert (HGne : G <> []).
      { rewrite Forall_forall in Hne. by apply Hne. }
      destruct G as [|j g]; [done|].
      destruct (group_range_spec pts1 j g)
        as (e & m & E & Hlast & Hmin & Hmle).
      assert (HsG : StronglySorted lt (j :: g)).
      { apply (sorted_member_of_concat (groups pts1 fp)); [|done].
        by rewrite Hcat. }
      rewrite (range_velocity_group pts1 (groups pts1 fp) (j :: g) i);
        [|done|done|by rewrite Hcat|done|].
      + rewrite E. cbn [snd].
        specialize (Hmle i HiG).
        rewrite (velocity_at_Some pts1 i _ Hlow), Hcapped in Hmle.
        exact Hmle.
      + rewrite E. cbn [fst snd].
        split; [by apply (sorted_first_le j g)|by eapply sorted_last_ge].
    - rewrite range_velocity_disabled by done. rewrite Hcapped.
      apply Qle_refl. }
  split; [done|lra].
Qed.

(** X15.  [applyLateralAccelerationFilter] changes nothing but
    [twist.linear.x] of the interpolated points: the returned trajectory
    has their header, as many points, and each point is the interpolated
    one once its velocity is put back.  With
    [enable_constant_velocity_while_turning] unset the new velocity is
    the least of the old one and the cap of the window, so that no
    velocity is raised. *)
Theorem lateral_filter_changes_velocity_only
  (input interpolated prepared : Trajectory) (back : Q)
  (curvature_v : list Q) :
  3 <= length (points input) ->
  back_ (calcArclengthArray input) = Ok back ->
  applyLinearInterpolation (calcArclengthArray input) input
    (out_arclength_of back) = Some interpolated ->
  keep_final_speed input interpolated = Ok prepared ->
  calcTrajectoryCurvatureFrom3Points prepared idx_dist = Some curvature_v ->
  length (points prepared) <= length curvature_v ->
  exists output,
    applyLateralAccelerationFilter input = Ok (Some output)
    /\ header output = header prepared
    /\ length (points output) = length (points prepared)
    /\ forall i p, points prepared !! i = Some p ->
         exists c p',
           window_curvature curvature_v (length (points prepared)) i = Ok c
           /\ points output !! i = Some p'
           /\ set_twist_linear_x p' (twist_linear_x p) = p
           /\ (Latacc.enable_constant_velocity_while_turning
                 (latacc smoother_param_) = false ->
               twist_linear_x p'
               = std_min (twist_linear_x p) (v_curvature_max_of c)
               /\ (twist_linear_x p' <= twist_linear_x p)%Q).
Proof.
  intros Hn Hback Hinterp Hprep Hcurv Hcv.
  destruct (lateral_filter_run input interpolated prepared back curvature_v)
    as (pts1 & fp & pts2 & Happly & Hlen1 & Hlen2 & Hsorted & Hdone & Hpts2);
    try done.
  exists (set_points prepared pts2). split; [done|].
  split; [by destruct prepared|].
  split; [destruct prepared; simpl in *; lia|].
  intros i p Hp.
  destruct (Hdone i p Hp) as (c & Hc & Hc0 & Hlow & Hiff).
  exists c.
  assert (Hout : points (set_points prepared pts2) = pts2)
    by (by destruct prepared).
  rewrite Hout, (Hpts2 i _ Hlow). eexists. split; [done|].
  split; [done|]. split.
  - unfold lowered.
    destruct (range_velocity _ i), (Qltb _ _);
      rewrite ?set_twist_linear_x_twice; apply set_twist_linear_x_same.
  - intros Hen. rewrite range_velocity_disabled by done.
    unfold lowered, std_min.
    destruct (Qltb _ _) eqn:E.
    + split; [done|]. apply Qltb_lt in E.
      change (twist_linear_x
                (set_twist_linear_x p (v_curvature_max_of c)))
        with (v_curvature_max_of c). lra.
    + split; [done|]. apply Qle_refl.
Qed.

End Smoother.
(** ** The stand-ins meet what the theorems assume of the functions they
    stand for *)

Lemma keep_trajectory_length (v0 a0 jerk_acc jerk_dec min_acc target_vel : Q)
  (type : Z) (times : list Q) (start_index : nat) (trajectory : Trajectory) :
  length (points (keep_trajectory v0 a0 jerk_acc jerk_dec min_acc target_vel
                    type times start_index trajectory).2)
  = length (points trajectory).
Proof. done. Qed.

Lemma no_stop_profile_finds_none : finds_no_profile no_stop_profile.
Proof. by intros v0 a0 jerk_acc jerk_dec min_acc target_vel. Qed.

(** ** The claims, at concrete inputs *)

Lemma apply_builds_forward_steps_witness :
  exists output',
    apply distance2d_floor no_stop_profile keep_trajectory example_param 10
      2 0 (on_axis [2; 1; 2]%Q) (on_axis []) = Ok (true, output')
    /\ length (points output') = length (points (on_axis [2; 1; 2]%Q))
    /\ (exists cap_start,
          forward_built distance2d_floor example_param 2 0
            (points (on_axis [2; 1; 2]%Q)) (points output') 0 cap_start)
    /\ (exists cap_start,
          forward_built distance2d_floor example_param 2 0
            (points (on_axis [2; 1; 2]%Q)) (points output') 1 cap_start).
Proof.
  eexists.
  assert (Hrun :
    apply distance2d_floor no_stop_profile keep_trajectory example_param 10
      2 0 (on_axis [2; 1; 2]%Q) (on_axis []) = Ok (true, _))
    by (vm_compute; reflexivity).
  destruct (apply_builds_forward_steps distance2d_floor no_stop_profile
              keep_trajectory example_param keep_trajectory_length 10 2 0
              (on_axis [2; 1; 2]%Q) (on_axis []) _ true
              ltac:(repeat split; vm_compute; discriminate)
              ltac:(discriminate) Hrun)
    as (_ & Hlen & Hclean & Hlast).
  split; [exact Hrun|]. split; [exact Hlen|]. split.
  - apply Hclean. apply finds_no_profile_writes_none.
    exact no_stop_profile_finds_none.
  - apply (Hlast [(1, 1%Q)] (1, 1%Q)); reflexivity.
Defined.


Lemma searchDecelTargetIndices_local_minima_witness :
  searchDecelTargetIndices (on_axis [5; 3; 4; 2; 3]%Q) 0 []
  = Ok (spec_decel_targets (points (on_axis [5; 3; 4; 2; 3]%Q)) 0).
Proof.
  apply (searchDecelTargetIndices_local_minima (on_axis [5; 3; 4; 2; 3]%Q) 0).
  simpl. lia.
Defined.

Lemma forward_time_step_divisor_witness :
  exists output',
    applyForwardJerkFilter distance2d_floor (on_axis [0; 3; 3]%Q) 0 0 1
      example_param (on_axis [0; 3; 3]%Q) = Ok output'
    /\ forall i, 0 < i < 3 ->
         exists b_prev b o_prev o,
           points (on_axis [0; 3; 3]%Q) !! (i - 1) = Some b_prev
           /\ points (on_axis [0; 3; 3]%Q) !! i = Some b
           /\ points output' !! (i - 1) = Some o_prev
           /\ points output' !! i = Some o
           /\ let divisor := std_max (twist_linear_x o_prev) 1 in
              let dt := (distance2d_floor b_prev b / divisor)%Q in
              (1 <= divisor)%Q
              /\ twist_linear_x o
                 = (twist_linear_x o_prev + accel_linear_x o_prev * dt)%Q.
Proof.
  apply (forward_time_step_divisor distance2d_floor (on_axis [0; 3; 3]%Q) 0 0 1
           example_param (on_axis [0; 3; 3]%Q)).
  - simpl. lia.
  - simpl. lia.
Defined.

Lemma apply_single_point_witness :
  exists p',
    apply distance2d_floor no_stop_profile keep_trajectory example_param 0
      3 (1 # 2) (on_axis [7%Q]) (on_axis [])
    = Ok (true, mkTrajectory example_header [p'])
    /\ pose p' = pose (point_on_axis 0 7 0)
    /\ twist p' = Twist.mk (Vector3.mk 3 0 0) (Vector3.mk 0 0 0)
    /\ accel p' = Accel.mk (Vector3.mk (1 # 2) 0 0) (Vector3.mk 0 0 0).
Proof.
  apply (apply_single_point distance2d_floor no_stop_profile keep_trajectory
           example_param 0 3 (1 # 2) (on_axis [7%Q]) (on_axis [])
           (point_on_axis 0 7 0)).
  reflexivity.
Defined.

Lemma resample_uniform_velocity_witness :
  exists output,
    resampleTrajectory distance2d_floor lerp_linear slerp_first example_param
      (on_axis [4; 4; 4]%Q) = Ok (Some output)
    /\ header output = example_header
    /\ forall p, p ∈ points output -> twist_linear_x p = 4%Q.
Proof.
  apply (resample_uniform_velocity distance2d_floor lerp_linear slerp_first
           example_param (on_axis [4; 4; 4]%Q) 4%Q).
  - intros p Hp. simpl in Hp.
    repeat (apply elem_of_cons in Hp as [->|Hp]; [reflexivity|]).
    by apply elem_of_nil in Hp.
  - discriminate.
Defined.
Lemma apply_fallback_witness :
  (exists filtered' pts',
     round_backward distance2d_floor no_stop_profile keep_trajectory
       example_param 10 3 0 [(3, 0%Q)] 0 (on_axis [3; 2; 1; 0]%Q)
       (on_axis [3; 2; 1; 0]%Q)
     = Ok (0, 3%Q, 0%Q, (3, 0%Q), false, filtered')
     /\ apply distance2d_floor no_stop_profile keep_trajectory example_param
          10 3 0 (on_axis [3; 2; 1; 0]%Q) (on_axis [])
        = Ok (true, set_points filtered' pts')
     /\ length pts' = length (points (on_axis [3; 2; 1; 0]%Q))
     /\ forall k p,
          points filtered' !! k = Some p ->
          pts' !! k = Some (if 0 <=? k then capped 0 p else p))
  /\ (exists reference filtered filtered' reference_pts' filtered'',
        apply_rounds distance2d_floor no_stop_profile keep_trajectory
          example_param 10 2 0 [(1, 1%Q); (3, 1.5%Q)] (seq 0 1)
          (on_axis [2; 1; 2; 1.5]%Q) (on_axis [2; 1; 2; 1.5]%Q)
        = Ok (Next reference filtered)
        /\ round_backward distance2d_floor no_stop_profile keep_trajectory
             example_param 10 2 0 [(1, 1%Q); (3, 1.5%Q)] 1 reference filtered
           = Ok (1, (4 # 2)%Q, (- 5 # 20)%Q, (3, 1.5%Q), false, filtered')
        /\ (forall k p,
              points reference !! k = Some p ->
              reference_pts' !! k
              = Some (if (1 <=? k) && (k <=? 3) then capped 1.5 p else p))
        /\ applyForwardJerkFilter distance2d_floor
             (set_points reference reference_pts') 1 (4 # 2) (- 5 # 20)
             example_param filtered' = Ok filtered''
        /\ length (points filtered'')
           = length (points (on_axis [2; 1; 2; 1.5]%Q))
        /\ apply_rounds distance2d_floor no_stop_profile keep_trajectory
             example_param 10 2 0 [(1, 1%Q); (3, 1.5%Q)] (seq 0 2)
             (on_axis [2; 1; 2; 1.5]%Q) (on_axis [2; 1; 2; 1.5]%Q)
           = Ok (Next (set_points reference reference_pts') filtered'')).
Proof.
  split.
  - eexists.
    assert (Hback :
      round_backward distance2d_floor no_stop_profile keep_trajectory
        example_param 10 3 0 [(3, 0%Q)] 0 (on_axis [3; 2; 1; 0]%Q)
        (on_axis [3; 2; 1; 0]%Q)
      = Ok (0, 3%Q, 0%Q, (3, 0%Q), false, _)) by (vm_compute; reflexivity).
    destruct (apply_fallback distance2d_floor no_stop_profile keep_trajectory
                example_param keep_trajectory_length 10 3 0
                (on_axis [3; 2; 1; 0]%Q) (on_axis []) [(3, 0%Q)] 0
                (on_axis [3; 2; 1; 0]%Q) (on_axis [3; 2; 1; 0]%Q)
                0 3%Q 0%Q (3, 0%Q) _ ltac:(simpl; lia) eq_refl
                ltac:(simpl; lia) eq_refl Hback) as (_ & _ & Hzero & _).
    destruct Hzero as (pts' & Hrun & Hlen & Hpts); [reflexivity|].
    exists pts'. split; [exact Hback|]. split; [exact Hrun|].
    split; [exact Hlen|exact Hpts].
  - eexists _, _, _.
    assert (Hreach :
      apply_rounds distance2d_floor no_stop_profile keep_trajectory
        example_param 10 2 0 [(1, 1%Q); (3, 1.5%Q)] (seq 0 1)
        (on_axis [2; 1; 2; 1.5]%Q) (on_axis [2; 1; 2; 1.5]%Q)
      = Ok (Next _ _)) by (vm_compute; reflexivity).
    match type of Hreach with
    | _ = Ok (Next ?reference ?filtered) =>
        assert (Hback :
          round_backward distance2d_floor no_stop_profile keep_trajectory
            example_param 10 2 0 [(1, 1%Q); (3, 1.5%Q)] 1 reference filtered
          = Ok (1, (4 # 2)%Q, (- 5 # 20)%Q, (3, 1.5%Q), false, _))
          by (vm_compute; reflexivity)
    end.
    destruct (apply_fallback distance2d_floor no_stop_profile keep_trajectory
                example_param keep_trajectory_length 10 2 0
                (on_axis [2; 1; 2; 1.5]%Q) (on_axis [])
                [(1, 1%Q); (3, 1.5%Q)] 1 _ _ 1 (4 # 2)%Q (- 5 # 20)%Q (3, 1.5%Q) _
                ltac:(simpl; lia) eq_refl ltac:(simpl; lia) Hreach Hback)
      as (_ & _ & _ & Hnext).
    destruct Hnext as (reference_pts' & filtered'' & H1 & H2 & H3 & H4 & _).
    { vm_compute. discriminate. }
    exists reference_pts', filtered''. split; [exact Hreach|].
    split; [exact Hback|]. split; [exact H1|]. split; [exact H2|].
    split; [exact H3|exact H4].
Defined.

Lemma lateral_filter_caps_and_plateaus_witness :
  exists lowered_pts filtered_points out_pts,
    latacc_limit Qsqrt_floor example_base_param (repeat (1 # 2)%Q 3)
      (points (on_axis [4; 3; 4]%Q))
    = Ok (lowered_pts, filtered_points)
    /\ applyLateralAccelerationFilter distance2d_floor Qsqrt_floor
         arclength_floor interpolate_same curvature_half plateau_param
         example_base_param (on_axis [4; 3; 4]%Q)
       = Ok (Some (set_points (on_axis [4; 3; 4]%Q) out_pts))
    /\ length out_pts = length (points (on_axis [4; 3; 4]%Q))
    /\ (forall i p, points (on_axis [4; 3; 4]%Q) !! i = Some p ->
          exists c,
            window_curvature example_base_param (repeat (1 # 2)%Q 3)
              (length (points (on_axis [4; 3; 4]%Q))) i = Ok c
            /\ lowered_pts !! i
               = Some (lowered Qsqrt_floor example_base_param c p)
            /\ (i ∈ filtered_points
                <-> (v_curvature_max_of Qsqrt_floor example_base_param c
                     < twist_linear_x p)%Q))
    /\ (Latacc.enable_constant_velocity_while_turning (latacc plateau_param)
        = false ->
        out_pts = lowered_pts)
    /\ (Latacc.enable_constant_velocity_while_turning (latacc plateau_param)
        = true ->
        forall G,
          G ∈ groups distance2d_floor plateau_param lowered_pts
                filtered_points ->
          exists m,
            (forall j, j ∈ G ->
               j ∈ filtered_points
               /\ (m <= velocity_at lowered_pts j)%Q
               /\ velocity_at out_pts j = m)
            /\ (exists j, j ∈ G /\ m = velocity_at lowered_pts j))
    /\ (forall i,
          (forall G,
             G ∈ groups distance2d_floor plateau_param lowered_pts
                   filtered_points ->
             ~ ((group_range lowered_pts G).1.1 <= i
                <= (group_range lowered_pts G).1.2)) ->
          out_pts !! i = lowered_pts !! i).
Proof.
  apply (lateral_filter_caps_and_plateaus distance2d_floor Qsqrt_floor
           arclength_floor interpolate_same curvature_half plateau_param
           example_base_param (on_axis [4; 3; 4]%Q) (on_axis [4; 3; 4]%Q)
           (on_axis [4; 3; 4]%Q) 2%Q (repeat (1 # 2)%Q 3)).
  - simpl. lia.
  - reflexivity.
  - reflexivity.
  - reflexivity.
  - reflexivity.
  - simpl. lia.
Defined.


(** ** Where the code departs from a claim *)

(** *** The forward bounds *)

(** With the forward bounds [[-1, 1]] on the acceleration and
    [[-0.5, 0.5]] on the jerk, an initial acceleration of [1] and the
    reference velocities [0, -1, 1, 0] on points one metre apart, no
    stopping profile being found, [apply] returns [true] with the
    accelerations [1, 0, 0, 0]: the second target has velocity [0], the
    fallback writes the acceleration [0] from the first target on, and
    the finite difference from point 0 to point 1 is [-1] over a time step
    of [1]. *)
Lemma zero_cap_exceeds_jerk_bound :
  forward_bounds_valid example_param
  /\ acc_within example_param 1
  /\ exists output',
       apply distance2d_floor no_stop_profile keep_trajectory example_param 10
         0 1 (on_axis [0; -1; 1; 0]%Q) (on_axis []) = Ok (true, output')
       /\ map accel_linear_x (points output') = [1; 0; 0; 0]%Q
       /\ ~ respects_forward_bounds distance2d_floor example_param
              (points (on_axis [0; -1; 1; 0]%Q)) (points output').
Proof.
  split; [repeat split; vm_compute; discriminate|].
  split; [split; vm_compute; discriminate|].
  eexists. split; [vm_compute; reflexivity|]. split; [reflexivity|].
  intros [_ Hjerk].
  edestruct (Hjerk 0) as [_ Hquot]; [reflexivity..|].
  assert (Hdt : (0 < 1)%Q) by reflexivity.
  apply Hquot in Hdt. vm_compute in Hdt. destruct Hdt as [Hlo _]. by apply Hlo.
Qed.

(** In binary64, with the same bounds and [kp = 0.3], one round of the
    forward filter from the velocity [0] and the acceleration [0.08],
    three metres on towards a base velocity of [100]: the time step is
    [3], the clamped acceleration is [max_acc = 1], the clamped jerk is
    the rounded [(1 - 0.08) / 3], and the sum [0.08 + limited_jerk * 3]
    that is stored as the acceleration is [1.0000000000000002], above
    [max_acc]. *)
Lemma forward_round_exceeds_max_acc :
  PrimFloat.ltb (Binary64.max_acc example_forward64)
    (Binary64.forward_round example_forward64 0 0.08 3 100).2
  = true.
Proof. vm_compute. reflexivity. Qed.

(** In binary64 again, from the velocity [0] and the acceleration [0.01],
    [0.03] metres on: the clamped jerk is [max_jerk = 0.5], the stored
    acceleration is the rounded [0.01 + 0.5 * dt], and the finite
    difference [(a_1 - a_0) / dt] is [0.50000000000000011], above
    [max_jerk]; [a_1 - a_0] is above [max_jerk * dt] as well. *)
Lemma forward_round_exceeds_max_jerk :
  let dt := Binary64.forward_round_dt 0 0.03 in
  let curr_acc :=
    (Binary64.forward_round example_forward64 0 0.01 0.03 100).2 in
  PrimFloat.ltb (Binary64.max_jerk example_forward64)
    (PrimFloat.div (PrimFloat.sub curr_acc 0.01) dt)
  = true
  /\ PrimFloat.ltb (PrimFloat.mul (Binary64.max_jerk example_forward64) dt)
       (PrimFloat.sub curr_acc 0.01)
     = true.
Proof. split; vm_compute; reflexivity. Qed.

(** C1, as stated, fails, for two reasons.  The cap to the velocity [0]
    of the fallback writes the acceleration [0] without limiting the jerk
    ([zero_cap_exceeds_jerk_bound]); and the acceleration the forward
    filter stores is a rounded sum of a clamped jerk, which binary64 puts
    above [max_acc], and at a finite difference above [max_jerk], on
    inputs without any deceleration target. *)
Lemma apply_exceeds_forward_bounds :
  (forward_bounds_valid example_param
   /\ acc_within example_param 1
   /\ exists output',
        apply distance2d_floor no_stop_profile keep_trajectory example_param
          10 0 1 (on_axis [0; -1; 1; 0]%Q) (on_axis []) = Ok (true, output')
        /\ map accel_linear_x (points output') = [1; 0; 0; 0]%Q
        /\ ~ respects_forward_bounds distance2d_floor example_param
               (points (on_axis [0; -1; 1; 0]%Q)) (points output'))
  /\ PrimFloat.ltb (Binary64.max_acc example_forward64)
       (Binary64.forward_round example_forward64 0 0.08 3 100).2
     = true
  /\ PrimFloat.ltb (Binary64.max_jerk example_forward64)
       (PrimFloat.div
          (PrimFloat.sub
             (Binary64.forward_round example_forward64 0 0.01 0.03 100).2
             0.01)
          (Binary64.forward_round_dt 0 0.03))
     = true.
Proof.
  split; [exact zero_cap_exceeds_jerk_bound|].
  split; [exact forward_round_exceeds_max_acc|].
  exact (proj1 forward_round_exceeds_max_jerk).
Qed.

(** *** The lateral-acceleration bound *)

(** With [max_lateral_accel = 0.5], a floor velocity
    [min_curve_velocity = 2.74] and a curvature of [1/2] over the window,
    the cap is [max(sqrt(0.5 / 0.5), 2.74) = 2.74]; a point of velocity
    [2] is below it and is returned as it is, with
    [2 * 2 * 1/2 = 2 > 0.5] and a velocity that is not the floor. *)
Lemma lateral_filter_leaves_velocity_below_floor :
  exists output p c,
    applyLateralAccelerationFilter distance2d_floor Qsqrt_floor arclength_floor
      interpolate_same curvature_half example_param example_base_param
      (on_axis [2; 2; 2]%Q) = Ok (Some output)
    /\ points output !! 1 = Some p
    /\ window_curvature example_base_param (repeat (1 # 2)%Q 3) 3 1 = Ok c
    /\ ~ (twist_linear_x p * twist_linear_x p * c
          <= max_lateral_accel example_base_param)%Q
    /\ ~ (twist_linear_x p == min_curve_velocity example_base_param)%Q.
Proof.
  eexists _, _, _. split; [vm_compute; reflexivity|].
  split; [reflexivity|]. split; [vm_compute; reflexivity|].
  split; vm_compute; intros H; by apply H || discriminate.
Qed.

(** With [enable_constant_velocity_while_turning] set,
    [max_lateral_accel = 1], no floor velocity and the curvatures
    [1/4, 1, 1/4] (each window being the point itself), the caps are
    [2, 1, 2].  On the velocities [10, 1, 10] the first and the last point
    are lowered to [2] and form one group; the point between them, which
    was at its cap and is no member of the group, lies in the index range
    of the group and is returned with the velocity [2] of the plateau:
    [2 * 2 * 1 = 4 > 1]. *)
Lemma plateau_lifts_point_above_cap :
  exists output p c,
    applyLateralAccelerationFilter distance2d_floor Qsqrt_floor arclength_floor
      interpolate_same curvature_bend wide_plateau_param narrow_base_param
      (on_axis [10; 1; 10]%Q) = Ok (Some output)
    /\ map twist_linear_x (points output) = [2; 2; 2]%Q
    /\ points output !! 1 = Some p
    /\ window_curvature narrow_base_param [(1 # 4)%Q; 1%Q; (1 # 4)%Q] 3 1
       = Ok c
    /\ v_curvature_max_of Qsqrt_floor narrow_base_param c = 1%Q
    /\ ~ (twist_linear_x p * twist_linear_x p * c
          <= max_lateral_accel narrow_base_param)%Q
    /\ ~ (twist_linear_x p == min_curve_velocity narrow_base_param)%Q.
Proof.
  eexists _, _, _. split; [vm_compute; reflexivity|].
  split; [reflexivity|]. split; [reflexivity|].
  split; [vm_compute; reflexivity|]. split; [vm_compute; reflexivity|].
  split; vm_compute; intros H; by apply H || discriminate.
Qed.

(** In binary64, with [max_lateral_accel = 1], no floor velocity and a
    curvature of [0.5], the cap is [sqrt(1 / 0.5) = 1.4142135623730951],
    and a point lowered to it has [v * v * curvature =
    1.0000000000000002], above [max_lateral_accel]: [std::sqrt] rounds to
    nearest, and up here. *)
Lemma lateral_cap_exceeds_bound :
  let v := Binary64.v_curvature_max 1 0 0.5 in
  PrimFloat.ltb 1 (PrimFloat.mul (PrimFloat.mul v v) 0.5) = true
  /\ PrimFloat.eqb v 0 = false.
Proof. split; vm_compute; reflexivity. Qed.

(** C5, as stated, fails, for three reasons.  A velocity below the floor
    [min_curve_velocity] is left as it is, whatever the lateral
    acceleration it gives ([lateral_filter_leaves_velocity_below_floor]);
    with [enable_constant_velocity_while_turning] set, a point that lies
    between the capped points of a group without being one of them is
    given the velocity of the plateau, which may be above its own cap
    ([plateau_lifts_point_above_cap]); and the cap itself is a rounded
    square root, whose square binary64 puts above the bound
    ([lateral_cap_exceeds_bound]). *)
Lemma lateral_filter_exceeds_bound :
  (exists output p c,
     applyLateralAccelerationFilter distance2d_floor Qsqrt_floor
       arclength_floor interpolate_same curvature_half example_param
       example_base_param (on_axis [2; 2; 2]%Q) = Ok (Some output)
     /\ points output !! 1 = Some p
     /\ window_curvature example_base_param (repeat (1 # 2)%Q 3) 3 1 = Ok c
     /\ ~ (twist_linear_x p * twist_linear_x p * c
           <= max_lateral_accel example_base_param)%Q
     /\ ~ (twist_linear_x p == min_curve_velocity example_base_param)%Q)
  /\ (exists output p c,
        applyLateralAccelerationFilter distance2d_floor Qsqrt_floor
          arclength_floor interpolate_same curvature_bend wide_plateau_param
          narrow_base_param (on_axis [10; 1; 10]%Q) = Ok (Some output)
        /\ points output !! 1 = Some p
        /\ window_curvature narrow_base_param [(1 # 4)%Q; 1%Q; (1 # 4)%Q] 3 1
           = Ok c
        /\ ~ (twist_linear_x p * twist_linear_x p * c
              <= max_lateral_accel narrow_base_param)%Q
        /\ ~ (twist_linear_x p == min_curve_velocity narrow_base_param)%Q)
  /\ PrimFloat.ltb 1
       (PrimFloat.mul
          (PrimFloat.mul (Binary64.v_curvature_max 1 0 0.5)
             (Binary64.v_curvature_max 1 0 0.5))
          0.5)
     = true.
Proof.
  split; [exact lateral_filter_leaves_velocity_below_floor|].
  split; [|exact (proj1 lateral_cap_exceeds_bound)].
  destruct plateau_lifts_point_above_cap
    as (output & p & c & H1 & _ & H2 & H3 & _ & H4 & H5).
  by exists output, p, c.
Qed.

(** *** The jerk scan without progress *)






(** *** applyMaxVelocity with the end index at the size *)


(** ** The velocity controller *)

(** C9.  Before any control cycle has run, the control state the
    controller holds is [STOPPED]: the member [control_state_] is
    initialised with [ControlState::STOPPED]. *)
Theorem control_state_initially_stopped :
  control_state_ VelocityController_default = STOPPED.
Proof. reflexivity. Qed.

(** ** Further properties, at concrete inputs *)

Lemma keep_trajectory_same_but_motion
  (v0 a0 jerk_acc jerk_dec min_acc target_vel : Q) (type : Z)
  (times : list Q) (start_index : nat) (trajectory : Trajectory) :
  same_but_motion trajectory
    (keep_trajectory v0 a0 jerk_acc jerk_dec min_acc target_vel type times
       start_index trajectory).2.
Proof. apply same_but_motion_refl. Qed.

Lemma apply_changes_motion_only_witness :
  exists b output',
    apply distance2d_floor no_stop_profile keep_trajectory example_param 10
      2 0 (on_axis [2; 1; 2]%Q) (on_axis []) = Ok (b, output')
    /\ b = true
    /\ header output' = header (on_axis [2; 1; 2]%Q)
    /\ length (points output') = length (points (on_axis [2; 1; 2]%Q))
    /\ forall i p, points (on_axis [2; 1; 2]%Q) !! i = Some p ->
         exists p',
           points output' !! i = Some p'
           /\ pose p' = pose p
           /\ erase_motion p' = erase_motion p.
Proof.
  eexists _, _. split; [vm_compute; reflexivity|].
  apply (apply_changes_motion_only distance2d_floor no_stop_profile
           keep_trajectory example_param keep_trajectory_same_but_motion 10
           2 0 (on_axis [2; 1; 2]%Q) (on_axis [])).
  - discriminate.
  - vm_compute. reflexivity.
Defined.

Lemma forward_pass_clamps_from_witness :
  exists output',
    applyForwardJerkFilter distance2d_floor (on_axis [0; 3; 3]%Q) 0 0 1
      example_param (on_axis [0; 3; 3]%Q) = Ok output'
    /\ (exists p, points output' !! 0 = Some p
                  /\ twist_linear_x p = 0%Q
                  /\ accel_linear_x p = 1%Q)
    /\ (forall i b_prev b o_prev o,
          0 < i < length (points (on_axis [0; 3; 3]%Q)) ->
          points (on_axis [0; 3; 3]%Q) !! (i - 1) = Some b_prev ->
          points (on_axis [0; 3; 3]%Q) !! i = Some b ->
          points output' !! (i - 1) = Some o_prev ->
          points output' !! i = Some o ->
          forward_step distance2d_floor example_param b_prev b o_prev o).
Proof.
  apply (forward_pass_clamps_from distance2d_floor (on_axis [0; 3; 3]%Q) 0 0 1
           example_param (on_axis [0; 3; 3]%Q)).
  - repeat split; vm_compute; discriminate.
  - simpl. lia.
  - simpl. lia.
Defined.

Lemma forward_pass_restart_witness :
  exists output' p,
    applyForwardJerkFilter distance2d_floor (on_axis [0; 3; 3]%Q) 0 0 1
      example_param (on_axis [0; 3; 3]%Q) = Ok output'
    /\ points output' !! 1 = Some p
    /\ applyForwardJerkFilter distance2d_floor (on_axis [0; 3; 3]%Q) 1
         (twist_linear_x p) (accel_linear_x p) example_param output'
       = Ok output'.
Proof.
  eexists _, _. split; [vm_compute; reflexivity|].
  split; [vm_compute; reflexivity|].
  apply (forward_pass_restart distance2d_floor (on_axis [0; 3; 3]%Q) 0 1 0 1
           example_param (on_axis [0; 3; 3]%Q)).
  - simpl. lia.
  - vm_compute. reflexivity.
  - lia.
  - vm_compute. reflexivity.
Defined.

Lemma applyMaxVelocity_caps_witness :
  exists t',
    applyMaxVelocity 1 0 1 (on_axis [2; 1; 2]%Q) = Ok (true, t')
    /\ same_but_motion (on_axis [2; 1; 2]%Q) t'
    /\ forall i p, points (on_axis [2; 1; 2]%Q) !! i = Some p ->
         exists p',
           points t' !! i = Some p'
           /\ if (0 <=? i) && (i <=? 1)
              then (twist_linear_x p' <= 1)%Q
                   /\ (twist_linear_x p' <= twist_linear_x p)%Q
                   /\ (twist_linear_x p' = twist_linear_x p
                       \/ twist_linear_x p' = 1%Q)
                   /\ accel_linear_x p' = 0%Q
              else p' = p.
Proof.
  apply (applyMaxVelocity_caps 1 0 1 (on_axis [2; 1; 2]%Q)).
  - lia.
  - simpl. lia.
Defined.

Lemma applyMaxVelocity_again_witness :
  exists t',
    applyMaxVelocity 1 0 1 (on_axis [2; 1; 2]%Q) = Ok (true, t')
    /\ applyMaxVelocity 1 0 1 t' = Ok (true, t').
Proof.
  eexists. split; [vm_compute; reflexivity|].
  apply (applyMaxVelocity_again 1 0 1 (on_axis [2; 1; 2]%Q)).
  vm_compute. reflexivity.
Defined.

Lemma searchDecelTargetIndices_too_short_witness :
  searchDecelTargetIndices (on_axis [7%Q]) 0 [] = Fail out_of_range.
Proof.
  apply (searchDecelTargetIndices_too_short (on_axis [7%Q]) 0 []).
  simpl. lia.
Defined.

Lemma searchDecelTargetIndices_appends_witness :
  exists targets,
    searchDecelTargetIndices (on_axis [5; 3; 4; 2; 3]%Q) 0 [(0, 7%Q)]
    = Ok ([(0, 7%Q)] ++ targets)
    /\ searchDecelTargetIndices (on_axis [5; 3; 4; 2; 3]%Q) 0 [] = Ok targets
    /\ StronglySorted index_lt targets
    /\ (forall i v, (i, v) ∈ targets ->
          1 <= i < length (points (on_axis [5; 3; 4; 2; 3]%Q))
          /\ local_minimum (points (on_axis [5; 3; 4; 2; 3]%Q)) 0 i = true
          /\ v = velocity_at (points (on_axis [5; 3; 4; 2; 3]%Q)) i)
    /\ (forall i,
          last (local_minima (points (on_axis [5; 3; 4; 2; 3]%Q)) 0) = Some i ->
          (i, velocity_at (points (on_axis [5; 3; 4; 2; 3]%Q)) i) ∈ targets).
Proof.
  apply (searchDecelTargetIndices_appends (on_axis [5; 3; 4; 2; 3]%Q) 0
           [(0, 7%Q)]).
  simpl. lia.
Defined.

Lemma apply_non_decreasing_profile_witness :
  searchDecelTargetIndices (on_axis [1; 2; 3]%Q) closest_index [] = Ok []
  /\ exists output',
       applyForwardJerkFilter distance2d_floor (on_axis [1; 2; 3]%Q) 0 1 0
         example_param (on_axis [1; 2; 3]%Q) = Ok output'
       /\ apply distance2d_floor no_stop_profile keep_trajectory example_param
            10 1 0 (on_axis [1; 2; 3]%Q) (on_axis []) = Ok (true, output').
Proof.
  apply (apply_non_decreasing_profile distance2d_floor no_stop_profile
           keep_trajectory example_param 10 1 0 (on_axis [1; 2; 3]%Q)
           (on_axis [])).
  - simpl. lia.
  - intros [|[|[|i]]] p q Hp Hq; simpl in Hp, Hq; simplify_eq;
      vm_compute; discriminate.
Defined.

Lemma resample_holds_motion_witness :
  exists output,
    resampleTrajectory distance2d_floor lerp_linear slerp_first example_param
      (on_axis [1; 2; 3]%Q) = Ok (Some output)
    /\ header output = header (on_axis [1; 2; 3]%Q)
    /\ last (points output) = last (points (on_axis [1; 2; 3]%Q))
    /\ forall q, q ∈ points output ->
         exists p, p ∈ points (on_axis [1; 2; 3]%Q)
                   /\ twist_linear_x q = twist_linear_x p
                   /\ accel_linear_x q = accel_linear_x p.
Proof.
  apply (resample_holds_motion distance2d_floor lerp_linear slerp_first
           example_param (on_axis [1; 2; 3]%Q)).
  discriminate.
Defined.

Lemma resample_length_witness :
  exists output,
    resampleTrajectory distance2d_floor lerp_linear slerp_first example_param
      (on_axis [1; 2; 3]%Q) = Ok (Some output)
    /\ length (points (on_axis [1; 2; 3]%Q)) <= length (points output)
    /\ length (points output)
       <= (length (points (on_axis [1; 2; 3]%Q)) - 1)
          * Resample.num_resample (resample example_param) + 1
    /\ ((forall i p q,
           points (on_axis [1; 2; 3]%Q) !! i = Some p ->
           points (on_axis [1; 2; 3]%Q) !! (S i) = Some q ->
           (0.001 <= std_abs (distance2d_floor p q))%Q) ->
        length (points output)
        = (length (points (on_axis [1; 2; 3]%Q)) - 1)
          * Resample.num_resample (resample example_param) + 1).
Proof.
  apply (resample_length distance2d_floor lerp_linear slerp_first
           example_param (on_axis [1; 2; 3]%Q)).
  - discriminate.
  - vm_compute. lia.
Defined.

Lemma applyBackwardDecelFilter_sentinel_witness :
  exists ok trajectory',
    applyBackwardDecelFilter distance2d_floor stop_at_once
      write_target_velocity 10 [0] 1 1 sentinel_param (on_axis [2; 1; 2]%Q)
    = Ok (ok, trajectory')
    /\ ok = false
    /\ trajectory' = on_axis [2; 1; 2]%Q.
Proof.
  eexists _, _. split; [vm_compute; reflexivity|].
  apply (applyBackwardDecelFilter_sentinel distance2d_floor stop_at_once
           write_target_velocity 10 [0] 1 1 sentinel_param
           (on_axis [2; 1; 2]%Q)).
  - vm_compute. discriminate.
  - vm_compute. discriminate.
  - vm_compute. reflexivity.
Defined.

Lemma applyBackwardDecelFilter_applies_checked_plan_witness :
  exists trajectory',
    applyBackwardDecelFilter distance2d_floor stop_at_once
      write_target_velocity 10 [0] 1 1 example_param (on_axis [2; 1; 2]%Q)
    = Ok (true, trajectory')
    /\ ((true = false /\ trajectory' = on_axis [2; 1; 2]%Q)
        \/ exists decel_start_index planning_jerk type times stop_dist p,
             points (on_axis [2; 1; 2]%Q) !! decel_start_index = Some p
             /\ (Backward.min_jerk (backward example_param) - backward_ep
                 < planning_jerk)%Q
             /\ ~ (planning_jerk == - 100)%Q
             /\ stop_at_once (twist_linear_x p) (accel_linear_x p)
                  (std_abs planning_jerk) planning_jerk
                  (calcMinAcc example_param planning_jerk) 1
                = (true, (type, times, stop_dist))
             /\ (0 <= stop_dist)%Q
             /\ (stop_dist
                 <= path_length distance2d_floor
                      (points (on_axis [2; 1; 2]%Q)) decel_start_index
                      (1 - decel_start_index))%Q
             /\ write_target_velocity (twist_linear_x p) (accel_linear_x p)
                  (std_abs planning_jerk) planning_jerk
                  (calcMinAcc example_param planning_jerk) 1 type times
                  decel_start_index (on_axis [2; 1; 2]%Q)
                = (true, trajectory')).
Proof.
  eexists. split; [vm_compute; reflexivity|].
  apply (applyBackwardDecelFilter_applies_checked_plan distance2d_floor
           stop_at_once write_target_velocity 10 [0] 1 1 example_param
           (on_axis [2; 1; 2]%Q)).
  vm_compute. reflexivity.
Defined.

Lemma lateral_filter_lowers_capped_points_witness :
  exists out_pts,
    applyLateralAccelerationFilter distance2d_floor Qsqrt_floor arclength_floor
      interpolate_same curvature_half plateau_param example_base_param
      (on_axis [4; 3; 4]%Q)
    = Ok (Some (set_points (on_axis [4; 3; 4]%Q) out_pts))
    /\ forall i p, points (on_axis [4; 3; 4]%Q) !! i = Some p ->
         exists c p',
           window_curvature example_base_param (repeat (1 # 2)%Q 3)
             (length (points (on_axis [4; 3; 4]%Q))) i = Ok c
           /\ out_pts !! i = Some p'
           /\ ((v_curvature_max_of Qsqrt_floor example_base_param c
                < twist_linear_x p)%Q ->
               (twist_linear_x p'
                <= v_curvature_max_of Qsqrt_floor example_base_param c)%Q
               /\ (twist_linear_x p' < twist_linear_x p)%Q).
Proof.
  apply (lateral_filter_lowers_capped_points distance2d_floor Qsqrt_floor
           arclength_floor interpolate_same curvature_half plateau_param
           example_base_param (on_axis [4; 3; 4]%Q) (on_axis [4; 3; 4]%Q)
           (on_axis [4; 3; 4]%Q) 2%Q (repeat (1 # 2)%Q 3)).
  - simpl. lia.
  - reflexivity.
  - reflexivity.
  - reflexivity.
  - reflexivity.
  - simpl. lia.
Defined.

Lemma lateral_filter_changes_velocity_only_witness :
  exists output,
    applyLateralAccelerationFilter distance2d_floor Qsqrt_floor arclength_floor
      interpolate_same curvature_half example_param example_base_param
      (on_axis [4; 3; 4]%Q) = Ok (Some output)
    /\ header output = header (on_axis [4; 3; 4]%Q)
    /\ length (points output) = length (points (on_axis [4; 3; 4]%Q))
    /\ forall i p, points (on_axis [4; 3; 4]%Q) !! i = Some p ->
         exists c p',
           window_curvature example_base_param (repeat (1 # 2)%Q 3)
             (length (points (on_axis [4; 3; 4]%Q))) i = Ok c
           /\ points output !! i = Some p'
           /\ set_twist_linear_x p' (twist_linear_x p) = p
           /\ (Latacc.enable_constant_velocity_while_turning
                 (latacc example_param) = false ->
               twist_linear_x p'
               = std_min (twist_linear_x p)
                   (v_curvature_max_of Qsqrt_floor example_base_param c)
               /\ (twist_linear_x p' <= twist_linear_x p)%Q).
Proof.
  apply (lateral_filter_changes_velocity_only distance2d_floor Qsqrt_floor
           arclength_floor interpolate_same curvature_half example_param
           example_base_param (on_axis [4; 3; 4]%Q) (on_axis [4; 3; 4]%Q)
           (on_axis [4; 3; 4]%Q) 2%Q (repeat (1 # 2)%Q 3)).
  - simpl. lia.
  - reflexivity.
  - reflexivity.
  - reflexivity.
  - reflexivity.
  - simpl. lia.
Defined.

Lemma applyForwardJerkFilter_returns_iff_witness :
  exists output',
    applyForwardJerkFilter distance2d_floor (on_axis [0; 3; 3]%Q) 1 0 1
      example_param (on_axis [0; 3; 3]%Q) = Ok output'
    /\ length (points output') = length (points (on_axis [0; 3; 3]%Q))
    /\ forall i, i < 1 \/ length (points (on_axis [0; 3; 3]%Q)) <= i ->
         i <> 1 ->
         points output' !! i = points (on_axis [0; 3; 3]%Q) !! i.
Proof.
  apply (proj1 (applyForwardJerkFilter_returns_iff distance2d_floor
                  (on_axis [0; 3; 3]%Q) 1 0 1 example_param
                  (on_axis [0; 3; 3]%Q))).
  split; [simpl; lia|left; simpl; lia].
Defined.
